(** * MirvCalcs: the calc graph of AfxHookSource and its trajectory smoother

    A shallow embedding of [AfxHookSource/MirvCalcs.cpp].

    Conventions of the embedding:
    - In the calcs, C++ [double] and [float] values are modelled by the
      real numbers [R]: arithmetic is exact, casts between the two are the
      identity, and there is no NaN or infinity.  What is proved on this
      model is about evaluations in which the code copies and compares
      values or computes without rounding.  The trajectory smoother
      [CalcSmooth] is given a second time in IEEE 754 binary64 arithmetic
      (module [Binary64], on the primitive floats of Rocq), operation by
      operation as the source has them; what the rounding of [double]
      decides is settled there.
    - A C++ function that returns [bool] and writes its value through
      reference parameters is modelled by a function into [option]:
      [Some v] for [true] with the written value, [None] for [false].
    - A nullable pointer is an [option]; the objects on the free store are
      kept in a finite map from addresses to objects.  Reference counts
      ([int]) are integers of [Z]; their overflow is out of reach.
    - An interface pointer held by a calc ([IMirvVecAngCalc *] and the
      like) is modelled by the computation its [Calc...] method performs,
      which threads the state of the game and of the calcs it evaluates.
    - [while] loops and nested destructor calls take fuel; the lemmas show
      how much fuel is enough. *)

From Stdlib Require Import PrimFloat.
From Stdlib Require Import Reals Lra Lia ZArith Bool List Ascii String.
From stdpp Require Import gmap strings list fin_maps.

Open Scope R_scope.

(* ===================================================================== *)
(** * Part I: definitions                                                 *)
(* ===================================================================== *)

(** ** Comparisons of real numbers as decisions *)

#[global] Instance Rlt_decision (a b : R) : Decision (a < b) := Rlt_dec a b.
#[global] Instance Rle_decision (a b : R) : Decision (a <= b) := Rle_dec a b.
#[global] Instance Rgt_decision (a b : R) : Decision (a > b) := Rgt_dec a b.
#[global] Instance Rge_decision (a b : R) : Decision (a >= b) := Rge_dec a b.
#[global] Instance Req_decision : EqDecision R := Req_dec_T.

(** ** <algorithm> and <math.h> on real numbers *)

(** [std::min(a, b)] is [(b < a) ? b : a]. *)
Definition std_min (a b : R) : R := if Rlt_dec b a then b else a.

(** [std::max(a, b)] is [(a < b) ? b : a]. *)
Definition std_max (a b : R) : R := if Rlt_dec a b then b else a.

(** Rounding toward zero, as used by [fmod]. *)
Definition Rtrunc (r : R) : Z :=
  if Rle_dec 0 r then Int_part r else (- Int_part (- r))%Z.

(** [fmod(x, y)]: [x - n * y] where [n] is [x / y] with its fractional part
    cut off, so that the result has the sign of [x]. *)
Definition fmod (x y : R) : R := x - IZR (Rtrunc (x / y)) * y.

(** ** The trajectory smoother, [CalcSmooth] *)

(** The three variables the loop of [CalcSmooth] updates: the by-value
    parameter [deltaT] and the two reference parameters. *)
Record SmoothVars : Type := MkSmoothVars {
  v_deltaT : R;
  v_lastPos : R;
  v_lastVel : R
}.

(** [double dir = 0 < lastVel ? 1 : (0 > lastVel ? -1 : (0 <= deltaPos ? 1 : -1));] *)
Definition CalcSmooth_dir (lastVel deltaPos : R) : R :=
  if Rlt_dec 0 lastVel then 1
  else if Rgt_dec 0 lastVel then -1
  else if Rle_dec 0 deltaPos then 1 else -1.

(** The test guarding solving steps 2 and 3:
    [0 < dir && 0 < deltaPos - resultDeltaPos
     || 0 > dir && 0 > deltaPos - resultDeltaPos]. *)
Definition CalcSmooth_short (dir deltaPos resultDeltaPos : R) : bool :=
  (bool_decide (0 < dir) && bool_decide (0 < deltaPos - resultDeltaPos))
  || (bool_decide (0 > dir) && bool_decide (0 > deltaPos - resultDeltaPos)).

(** Solving steps 1 to 3 of the normal case: the phase times
    [(phase1T, phase2T, phase3T)] before they are limited by [deltaT]. *)
Definition CalcSmooth_phases
  (LimitVelocity LimitAcceleration lastVel deltaPos dir : R) : R * R * R :=
  let phase1T := 0 in
  let phase2T := 0 in
  let phase3T := lastVel / (dir * LimitAcceleration) in
  let resultDeltaPos :=
    lastVel * phase3T - dir * LimitAcceleration / 2 * phase3T * phase3T in
  if CalcSmooth_short dir deltaPos resultDeltaPos then
    let temp1 := (2 * lastVel) / (dir * LimitAcceleration) in
    let phase1T_2d1 :=
      (1 / 2) * ((- temp1)
        + sqrt (temp1 * temp1
                - 4 * (- deltaPos + lastVel * phase3T
                       - dir * LimitAcceleration / 2 * phase3T * phase3T)
                  / (dir * LimitAcceleration))) in
    let phase1T_2d2 :=
      (dir * LimitVelocity - lastVel) / (dir * LimitAcceleration) in
    let phase1T := std_min phase1T_2d1 phase1T_2d2 in
    let phase3T := phase3T + phase1T in
    let resultDeltaPos :=
      lastVel * phase1T + dir * LimitAcceleration / 2 * phase1T * phase1T
      + (lastVel + dir * LimitAcceleration * phase1T) * phase3T
      - dir * LimitAcceleration / 2 * phase3T * phase3T in
    if CalcSmooth_short dir deltaPos resultDeltaPos then
      let temp2 := lastVel + dir * LimitAcceleration * phase1T in
      if Req_dec_T temp2 0 then (phase1T, phase2T, phase3T)
      else
        let phase2T :=
          (deltaPos - lastVel * phase1T
           - dir * LimitAcceleration / 2 * phase1T * phase1T
           - temp2 * phase3T
           + dir * LimitAcceleration / 2 * phase3T * phase3T) / temp2 in
        (phase1T, phase2T, phase3T)
    else (phase1T, phase2T, phase3T)
  else (phase1T, phase2T, phase3T).

(** "Limit by deltaT": phase 3 is cut first, then phase 2, then phase 1. *)
Definition CalcSmooth_limit (deltaT : R) (ph : R * R * R) : R * R * R :=
  let '(phase1T, phase2T, phase3T) := ph in
  let phase3T :=
    std_max (std_min (phase1T + phase2T + phase3T) deltaT - phase2T - phase1T) 0 in
  let phase2T := std_max (std_min (phase1T + phase2T) deltaT - phase1T) 0 in
  let phase1T := std_min phase1T deltaT in
  (phase1T, phase2T, phase3T).

Section Smoother.

(** The tolerance macro of [shared/AfxMath.h], which [MirvCalcs.cpp] only
    uses: a parameter. *)
Variable AFX_MATH_EPS : R.

(** One execution of the body of [while (0 < deltaT)]; [abs] is the
    absolute value of a [double]. *)
Definition CalcSmooth_body
  (targetPos LimitVelocity LimitAcceleration : R) (s : SmoothVars) : SmoothVars :=
  let deltaT := v_deltaT s in
  let lastPos := v_lastPos s in
  let lastVel := v_lastVel s in
  if Rgt_dec lastVel LimitVelocity then
    let phaseT := (LimitVelocity - lastVel) / - LimitAcceleration in
    let phaseT := std_min phaseT deltaT in
    {| v_lastPos := lastPos + (lastVel * phaseT - LimitAcceleration / 2 * phaseT * phaseT);
       v_lastVel := lastVel + - LimitAcceleration * phaseT;
       v_deltaT := deltaT - phaseT |}
  else if Rlt_dec lastVel (- LimitVelocity) then
    let phaseT := (- LimitVelocity - lastVel) / LimitAcceleration in
    let phaseT := std_min phaseT deltaT in
    {| v_lastPos := lastPos + (lastVel * phaseT + LimitAcceleration / 2 * phaseT * phaseT);
       v_lastVel := lastVel + LimitAcceleration * phaseT;
       v_deltaT := deltaT - phaseT |}
  else
    let deltaPos := targetPos - lastPos in
    let dir := CalcSmooth_dir lastVel deltaPos in
    let '(phase1T, phase2T, phase3T) :=
      CalcSmooth_limit deltaT
        (CalcSmooth_phases LimitVelocity LimitAcceleration lastVel deltaPos dir) in
    let lastPos' :=
      lastPos
      + (lastVel * phase1T + dir * LimitAcceleration / 2 * phase1T * phase1T
         + (lastVel + dir * LimitAcceleration * phase1T) * phase2T
         + (lastVel + dir * LimitAcceleration * phase1T) * phase3T
         - dir * LimitAcceleration / 2 * phase3T * phase3T) in
    let lastVel' :=
      lastVel + (dir * LimitAcceleration * phase1T - dir * LimitAcceleration * phase3T) in
    let deltaT' := deltaT - (phase1T + phase2T + phase3T) in
    {| v_lastPos := lastPos';
       v_lastVel := lastVel';
       v_deltaT :=
         if bool_decide (Rabs (targetPos - lastPos') <= AFX_MATH_EPS)
            && bool_decide (Rabs (0 - lastVel') <= AFX_MATH_EPS)
         then 0 else deltaT' |}.

(** The loop with fuel: [None] when the loop condition still holds after
    [fuel] iterations. *)
Fixpoint CalcSmooth_while
  (fuel : nat) (targetPos LimitVelocity LimitAcceleration : R) (s : SmoothVars)
  : option SmoothVars :=
  if Rlt_dec 0 (v_deltaT s) then
    match fuel with
    | O => None
    | S k =>
      CalcSmooth_while k targetPos LimitVelocity LimitAcceleration
        (CalcSmooth_body targetPos LimitVelocity LimitAcceleration s)
    end
  else Some s.

(** [CalcSmooth]: the new values of the reference parameters
    [(lastPos, lastVel)]. *)
Definition CalcSmooth
  (fuel : nat) (deltaT targetPos lastPos lastVel LimitVelocity LimitAcceleration : R)
  : option (R * R) :=
  if Rle_dec deltaT 0 then Some (lastPos, lastVel)
  else
    match CalcSmooth_while fuel targetPos LimitVelocity LimitAcceleration
            (MkSmoothVars deltaT lastPos lastVel) with
    | Some (MkSmoothVars _ lastPos' lastVel') => Some (lastPos', lastVel')
    | None => None
    end.

End Smoother.

(** ** [CalcSmooth] in binary64 arithmetic *)

(** The same function with [double] as IEEE 754 binary64: every operation
    rounds to nearest (ties to even), in the order and with the
    association the C++ expressions have; no operation is fused or kept in
    a wider format.  A comparison with a NaN is false. *)
Module Binary64.

Local Open Scope float_scope.

(** [std::min(a, b)] is [(b < a) ? b : a]; [std::max(a, b)] is
    [(a < b) ? b : a]. *)
Definition std_min (a b : float) : float := if b <? a then b else a.

Definition std_max (a b : float) : float := if a <? b then b else a.

Record SmoothVars : Type := MkSmoothVars {
  v_deltaT : float;
  v_lastPos : float;
  v_lastVel : float
}.

(** [double dir = 0 < lastVel ? 1 : (0 > lastVel ? -1 : (0 <= deltaPos ? 1 : -1));] *)
Definition CalcSmooth_dir (lastVel deltaPos : float) : float :=
  if 0 <? lastVel then 1
  else if lastVel <? 0 then -1
  else if 0 <=? deltaPos then 1 else -1.

(** [0 < dir && 0 < deltaPos - resultDeltaPos
     || 0 > dir && 0 > deltaPos - resultDeltaPos] *)
Definition CalcSmooth_short (dir deltaPos resultDeltaPos : float) : bool :=
  ((0 <? dir) && (0 <? deltaPos - resultDeltaPos))
  || ((dir <? 0) && (deltaPos - resultDeltaPos <? 0)).

(** Solving steps 1 to 3; [if (temp2)] holds for every [temp2] other than
    the two zeros. *)
Definition CalcSmooth_phases
  (LimitVelocity LimitAcceleration lastVel deltaPos dir : float) : float * float * float :=
  let phase1T := 0 in
  let phase2T := 0 in
  let phase3T := lastVel / (dir * LimitAcceleration) in
  let resultDeltaPos :=
    lastVel * phase3T - dir * LimitAcceleration / 2 * phase3T * phase3T in
  if CalcSmooth_short dir deltaPos resultDeltaPos then
    let temp1 := (2 * lastVel) / (dir * LimitAcceleration) in
    let phase1T_2d1 :=
      0.5 * ((- temp1)
        + PrimFloat.sqrt
            (temp1 * temp1
             - 4 * (- deltaPos + lastVel * phase3T
                    - dir * LimitAcceleration / 2 * phase3T * phase3T)
               / (dir * LimitAcceleration))) in
    let phase1T_2d2 :=
      (dir * LimitVelocity - lastVel) / (dir * LimitAcceleration) in
    let phase1T := std_min phase1T_2d1 phase1T_2d2 in
    let phase3T := phase3T + phase1T in
    let resultDeltaPos :=
      lastVel * phase1T + dir * LimitAcceleration / 2 * phase1T * phase1T
      + (lastVel + dir * LimitAcceleration * phase1T) * phase3T
      - dir * LimitAcceleration / 2 * phase3T * phase3T in
    if CalcSmooth_short dir deltaPos resultDeltaPos then
      let temp2 := lastVel + dir * LimitAcceleration * phase1T in
      if temp2 =? 0 then (phase1T, phase2T, phase3T)
      else
        let phase2T :=
          (deltaPos - lastVel * phase1T
           - dir * LimitAcceleration / 2 * phase1T * phase1T
           - temp2 * phase3T
           + dir * LimitAcceleration / 2 * phase3T * phase3T) / temp2 in
        (phase1T, phase2T, phase3T)
    else (phase1T, phase2T, phase3T)
  else (phase1T, phase2T, phase3T).

(** "Limit by deltaT". *)
Definition CalcSmooth_limit (deltaT : float) (ph : float * float * float)
  : float * float * float :=
  let '(phase1T, phase2T, phase3T) := ph in
  let phase3T :=
    std_max (std_min (phase1T + phase2T + phase3T) deltaT - phase2T - phase1T) 0 in
  let phase2T := std_max (std_min (phase1T + phase2T) deltaT - phase1T) 0 in
  let phase1T := std_min phase1T deltaT in
  (phase1T, phase2T, phase3T).

Section Smoother.

(** The tolerance macro of [shared/AfxMath.h]: a parameter. *)
Variable AFX_MATH_EPS : float.

(** One execution of the body of [while (0 < deltaT)]. *)
Definition CalcSmooth_body
  (targetPos LimitVelocity LimitAcceleration : float) (s : SmoothVars) : SmoothVars :=
  let deltaT := v_deltaT s in
  let lastPos := v_lastPos s in
  let lastVel := v_lastVel s in
  if LimitVelocity <? lastVel then
    let phaseT := (LimitVelocity - lastVel) / - LimitAcceleration in
    let phaseT := std_min phaseT deltaT in
    {| v_lastPos := lastPos + (lastVel * phaseT - LimitAcceleration / 2 * phaseT * phaseT);
       v_lastVel := lastVel + - LimitAcceleration * phaseT;
       v_deltaT := deltaT - phaseT |}
  else if lastVel <? - LimitVelocity then
    let phaseT := (- LimitVelocity - lastVel) / LimitAcceleration in
    let phaseT := std_min phaseT deltaT in
    {| v_lastPos := lastPos + (lastVel * phaseT + LimitAcceleration / 2 * phaseT * phaseT);
       v_lastVel := lastVel + LimitAcceleration * phaseT;
       v_deltaT := deltaT - phaseT |}
  else
    let deltaPos := targetPos - lastPos in
    let dir := CalcSmooth_dir lastVel deltaPos in
    let '(phase1T, phase2T, phase3T) :=
      CalcSmooth_limit deltaT
        (CalcSmooth_phases LimitVelocity LimitAcceleration lastVel deltaPos dir) in
    let lastPos' :=
      lastPos
      + (lastVel * phase1T + dir * LimitAcceleration / 2 * phase1T * phase1T
         + (lastVel + dir * LimitAcceleration * phase1T) * phase2T
         + (lastVel + dir * LimitAcceleration * phase1T) * phase3T
         - dir * LimitAcceleration / 2 * phase3T * phase3T) in
    let lastVel' :=
      lastVel + (dir * LimitAcceleration * phase1T - dir * LimitAcceleration * phase3T) in
    let deltaT' := deltaT - (phase1T + phase2T + phase3T) in
    {| v_lastPos := lastPos';
       v_lastVel := lastVel';
       v_deltaT :=
         if (PrimFloat.abs (targetPos - lastPos') <=? AFX_MATH_EPS)
            && (PrimFloat.abs (0 - lastVel') <=? AFX_MATH_EPS)
         then 0 else deltaT' |}.

(** The loop with fuel: [None] when the loop condition still holds after
    [fuel] iterations. *)
Fixpoint CalcSmooth_while
  (fuel : nat) (targetPos LimitVelocity LimitAcceleration : float) (s : SmoothVars)
  : option SmoothVars :=
  if 0 <? v_deltaT s then
    match fuel with
    | O => None
    | S k =>
      CalcSmooth_while k targetPos LimitVelocity LimitAcceleration
        (CalcSmooth_body targetPos LimitVelocity LimitAcceleration s)
    end
  else Some s.

(** [CalcSmooth]: the new values of [(lastPos, lastVel)]. *)
Definition CalcSmooth
  (fuel : nat) (deltaT targetPos lastPos lastVel LimitVelocity LimitAcceleration : float)
  : option (float * float) :=
  if deltaT <=? 0 then Some (lastPos, lastVel)
  else
    match CalcSmooth_while fuel targetPos LimitVelocity LimitAcceleration
            (MkSmoothVars deltaT lastPos lastVel) with
    | Some (MkSmoothVars _ lastPos' lastVel') => Some (lastPos', lastVel')
    | None => None
    end.

End Smoother.

End Binary64.

(** ** <ctype.h> and case-insensitive comparison, in the "C" locale *)

Definition isupper (c : ascii) : bool :=
  let n := nat_of_ascii c in (65 <=? n)%nat && (n <=? 90)%nat.

Definition islower (c : ascii) : bool :=
  let n := nat_of_ascii c in (97 <=? n)%nat && (n <=? 122)%nat.

Definition isdigit (c : ascii) : bool :=
  let n := nat_of_ascii c in (48 <=? n)%nat && (n <=? 57)%nat.

Definition isalpha (c : ascii) : bool := isupper c || islower c.

Definition isalnum (c : ascii) : bool := isalpha c || isdigit c.

Definition tolower (c : ascii) : ascii :=
  if isupper c then ascii_of_nat (nat_of_ascii c + 32) else c.

(** [_stricmp(a, b)]: the strings are compared after [tolower]; the result
    is negative, zero or positive. *)
Fixpoint _stricmp (a b : string) : Z :=
  match a, b with
  | EmptyString, EmptyString => 0
  | EmptyString, String _ _ => -1
  | String _ _, EmptyString => 1
  | String x a', String y b' =>
    let x' := nat_of_ascii (tolower x) in
    let y' := nat_of_ascii (tolower y) in
    if (x' <? y')%nat then -1
    else if (y' <? x')%nat then 1
    else _stricmp a' b'
  end.

(** The string with every character replaced by its [tolower]. *)
Fixpoint string_lower (s : string) : string :=
  match s with
  | EmptyString => EmptyString
  | String c rest => String (tolower c) (string_lower rest)
  end.

(** Modelled from the spec: [StringIsAlNum] of [shared/StringTools.h],
    which [MirvCalcs.cpp] only calls.  The spec has "all characters ASCII
    letters or digits". *)
Fixpoint StringIsAlNum (value : string) : bool :=
  match value with
  | EmptyString => true
  | String c rest => isalnum c && StringIsAlNum rest
  end.

(** The first character of a C string; the terminating NUL for the empty
    string. *)
Definition first_char (name : string) : ascii :=
  match name with
  | EmptyString => zero
  | String c _ => c
  end.

(** ** Calc objects on the free store *)

(** Addresses of objects allocated with [new]. *)
Abbreviation addr := positive.

(** The five families of calcs, one registry class each:
    [CMirvHandleCalcs], [CMirvVecAngCalcs], [CMirvCamCalcs],
    [CMirvFovCalcs] and [CMirvBoolCalcs]. *)
Inductive CalcFamily : Type :=
| HandleCalcs | VecAngCalcs | CamCalcs | FovCalcs | BoolCalcs.

#[global] Instance CalcFamily_eq_dec : EqDecision CalcFamily.
Proof. solve_decision. Defined.

(** The concrete classes with the arguments of their constructors (the
    name apart); operands are addresses of other calcs. *)
Inductive CalcKind : Type :=
| HandleValueCalc (handle : Z)
| HandleIndexCalc (index : Z)
| HandleKeyCalc (key : Z)
| HandleActiveWeaponCalc (parentCalc : addr) (world : bool)
| HandleLocalPlayerCalc
| HandleObserverTargetCalc (parentCalc : addr)
| VecAngValueCalc (x y z rX rY rZ : R)
| VecAngOffsetCalc (parent offset : addr) (legacyMethod : bool)
| VecAngHandleCalcEx (handle : addr) (eyeVec eyeAng : bool)
| VecAngHandleAttachmentCalc (handle : addr) (attachmentName : string)
| VecAngIfCalc (condition condTrue condFalse : addr)
| VecAngOrCalc (a b : addr)
| VecAngCamCalc (cam : addr)
| VecAngSmoothCalc (parent trackHandle : addr)
| CamCamCalc (camFileName startClientTime : string)
| CamGameCalc
| FovCamCalc (cam : addr)
| BoolHandleCalc (handle : addr)
| BoolVecAngCalc (vecAng : addr).

(** The operands a constructor takes a reference to, in the order of its
    [AddRef] calls; the destructor releases them in the reverse order. *)
Definition operands (k : CalcKind) : list addr :=
  match k with
  | HandleActiveWeaponCalc parentCalc _ => [parentCalc]
  | HandleObserverTargetCalc parentCalc => [parentCalc]
  | VecAngOffsetCalc parent offset _ => [parent; offset]
  | VecAngHandleCalcEx handle _ _ => [handle]
  | VecAngHandleAttachmentCalc handle _ => [handle]
  | VecAngIfCalc condition condTrue condFalse => [condition; condTrue; condFalse]
  | VecAngOrCalc a b => [a; b]
  | VecAngCamCalc cam => [cam]
  | VecAngSmoothCalc parent trackHandle => [parent; trackHandle]
  | FovCamCalc cam => [cam]
  | BoolHandleCalc handle => [handle]
  | BoolVecAngCalc vecAng => [vecAng]
  | _ => []
  end.

(** The members of the base class [CMirvCalc], and the dynamic type. *)
Record CMirvCalc : Type := MkCalc {
  m_Name : string;
  m_RefCount : Z;
  m_Kind : CalcKind
}.

(** The free store and the list [m_Calcs] of each registry. *)
Record Calcs : Type := MkCalcs {
  free_store : gmap addr CMirvCalc;
  m_Calcs : CalcFamily -> list addr
}.

(** [CMirvCalc::CMirvCalc(char const * name)]. *)
Definition CMirvCalc_new (name : option string) (k : CalcKind) : CMirvCalc :=
  {| m_Name := match name with Some n => n | None => "(no name)" end;
     m_RefCount := 0;
     m_Kind := k |}.

(** [CMirvCalc::AddRef]: [++m_RefCount]. *)
Definition AddRef (p : addr) (h : gmap addr CMirvCalc) : gmap addr CMirvCalc :=
  alter (fun c => MkCalc (m_Name c) (m_RefCount c + 1) (m_Kind c)) p h.

(** [CMirvCalc::GetRefCount] and [CMirvCalc::GetName].  An address at
    which there is no object (undefined behaviour in C++) reads as 0 and as
    the empty name. *)
Definition GetRefCount (p : addr) (h : gmap addr CMirvCalc) : Z :=
  match h !! p with Some c => m_RefCount c | None => 0%Z end.

Definition GetName (p : addr) (h : gmap addr CMirvCalc) : string :=
  match h !! p with Some c => m_Name c | None => EmptyString end.

(** [CMirvCalc::Release]: [int cnt = --m_RefCount; if (0 == cnt) delete this;]
    where the destructor of the dynamic type releases the operands before
    the object is freed.  The nesting of destructor calls takes fuel.  An
    address at which there is no object is left alone. *)
Fixpoint Release (fuel : nat) (p : addr) (h : gmap addr CMirvCalc)
  : option (gmap addr CMirvCalc) :=
  match fuel with
  | O => None
  | S k =>
    match h !! p with
    | None => Some h
    | Some c =>
      let cnt := (m_RefCount c - 1)%Z in
      let h1 := <[p := MkCalc (m_Name c) cnt (m_Kind c)]> h in
      if decide (0 = cnt)%Z then
        match
          foldl (fun acc q => match acc with Some h' => Release k q h' | None => None end)
                (Some h1) (rev (operands (m_Kind c)))
        with
        | Some h2 => Some (delete p h2)
        | None => None
        end
      else Some h1
    end
  end.

(** [new C(name, ...)]: the object is placed at an unused address with
    reference count 0, and its constructor takes a reference to each
    operand. *)
Definition construct (name : option string) (k : CalcKind) (h : gmap addr CMirvCalc)
  : addr * gmap addr CMirvCalc :=
  let p := fresh (dom h) in
  (p, foldl (fun h' q => AddRef q h') (<[p := CMirvCalc_new name k]> h) (operands k)).

(** ** The registries *)

(** [GetIteratorByName]: the position of the first calc of the list whose
    name equals [name] up to case; [None] stands for [m_Calcs.end()]. *)
Definition GetIteratorByName (name : string) (h : gmap addr CMirvCalc) (calcs : list addr)
  : option (nat * addr) :=
  list_find (fun p => 0%Z = _stricmp name (GetName p h)) calcs.

(** [GetByName]: the calc found, or the null pointer. *)
Definition GetByName (name : string) (h : gmap addr CMirvCalc) (calcs : list addr)
  : option addr :=
  match GetIteratorByName name h calcs with
  | Some (_, p) => Some p
  | None => None
  end.

(** [Console_CheckName]: the result, and the warning printed if any. *)
Definition Console_CheckName
  (name : option string) (h : gmap addr CMirvCalc) (calcs : list addr)
  : bool * list string :=
  match name with
  | None => (false, ["Error: Name cannot be null pointer."])
  | Some name =>
    if negb (isalpha (first_char name))
    then (false, ["Error: Name has to begin with an alphabet letter."])
    else if negb (StringIsAlNum name)
    then (false, ["Error: Name has to be alpha-numeric (letters and digits)."])
    else
      match GetByName name h calcs with
      | Some _ => (false, ["Error: Name is already in use."])
      | None => (true, [])
      end
  end.

(** The body shared by every factory method [New...Calc(name, ...)] of the
    five registry classes:
    [if (name && !Console_CheckName(name)) return 0;
     result = new C(name, ...);
     if (name) { result->AddRef(); m_Calcs.push_back(result); }
     return result;] *)
Definition NewCalc (fam : CalcFamily) (name : option string) (k : CalcKind) (st : Calcs)
  : option addr * Calcs :=
  if bool_decide (is_Some name)
     && negb (Console_CheckName name (free_store st) (m_Calcs st fam)).1
  then (None, st)
  else
    let '(result, h) := construct name k (free_store st) in
    match name with
    | Some _ =>
      (Some result,
       {| free_store := AddRef result h;
          m_Calcs := fun f =>
            if decide (f = fam) then m_Calcs st f ++ [result] else m_Calcs st f |})
    | None => (Some result, {| free_store := h; m_Calcs := m_Calcs st |})
    end.

(** [Console_Remove]: the new state and the warning printed if any;
    [None] if [Release] ran out of fuel. *)
Definition Console_Remove (fam : CalcFamily) (name : string) (st : Calcs)
  : option (Calcs * list string) :=
  match GetIteratorByName name (free_store st) (m_Calcs st fam) with
  | Some (it, p) =>
    if decide (1 = GetRefCount p (free_store st))%Z then
      match Release (S (size (free_store st))) p (free_store st) with
      | Some h =>
        Some ({| free_store := h;
                 m_Calcs := fun f =>
                   if decide (f = fam) then delete it (m_Calcs st f) else m_Calcs st f |},
              [])
      | None => None
      end
    else
      Some (st, ["Error: Cannot remove " +:+ GetName p (free_store st) +:+ ": Still in use."])
  | None =>
    Some (st, ["Error: No Calc named " +:+ name +:+ " found."])
  end.

(** The factory methods of the five registry classes. *)

Definition CMirvHandleCalcs_NewValueCalc (name : option string) (handle : Z) :=
  NewCalc HandleCalcs name (HandleValueCalc handle).
Definition CMirvHandleCalcs_NewIndexCalc (name : option string) (entityIndex : Z) :=
  NewCalc HandleCalcs name (HandleIndexCalc entityIndex).
Definition CMirvHandleCalcs_NewActiveWeaponCalc
  (name : option string) (parent : addr) (world : bool) :=
  NewCalc HandleCalcs name (HandleActiveWeaponCalc parent world).
Definition CMirvHandleCalcs_NewLocalPlayerCalc (name : option string) :=
  NewCalc HandleCalcs name HandleLocalPlayerCalc.
Definition CMirvHandleCalcs_NewObserverTargetCalc (name : option string) (parent : addr) :=
  NewCalc HandleCalcs name (HandleObserverTargetCalc parent).
Definition CMirvHandleCalcs_NewKeyCalc (name : option string) (key : Z) :=
  NewCalc HandleCalcs name (HandleKeyCalc key).

Definition CMirvVecAngCalcs_NewValueCalc (name : option string) (x y z rX rY rZ : R) :=
  NewCalc VecAngCalcs name (VecAngValueCalc x y z rX rY rZ).
Definition CMirvVecAngCalcs_NewOffsetCalc
  (name : option string) (parent offset : addr) (legacyMethod : bool) :=
  NewCalc VecAngCalcs name (VecAngOffsetCalc parent offset legacyMethod).
Definition CMirvVecAngCalcs_NewHandleCalc (name : option string) (handle : addr) :=
  NewCalc VecAngCalcs name (VecAngHandleCalcEx handle false false).
Definition CMirvVecAngCalcs_NewHandleEyeCalc (name : option string) (handle : addr) :=
  NewCalc VecAngCalcs name (VecAngHandleCalcEx handle true true).
Definition CMirvVecAngCalcs_NewHandleCalcEx
  (name : option string) (handle : addr) (eyeVec eyeAng : bool) :=
  NewCalc VecAngCalcs name (VecAngHandleCalcEx handle eyeVec eyeAng).
Definition CMirvVecAngCalcs_NewHandleAttachmentCalc
  (name : option string) (handle : addr) (attachmentName : string) :=
  NewCalc VecAngCalcs name (VecAngHandleAttachmentCalc handle attachmentName).
Definition CMirvVecAngCalcs_NewIfCalc
  (name : option string) (condition condTrue condFalse : addr) :=
  NewCalc VecAngCalcs name (VecAngIfCalc condition condTrue condFalse).
Definition CMirvVecAngCalcs_NewOrCalc (name : option string) (a b : addr) :=
  NewCalc VecAngCalcs name (VecAngOrCalc a b).
Definition CMirvVecAngCalcs_NewCamCalc (name : option string) (src : addr) :=
  NewCalc VecAngCalcs name (VecAngCamCalc src).
Definition CMirvVecAngCalcs_NewSmoothCalc (name : option string) (parent trackHandle : addr) :=
  NewCalc VecAngCalcs name (VecAngSmoothCalc parent trackHandle).

Definition CMirvCamCalcs_NewCamCalc (name : option string) (camFileName startClientTime : string) :=
  NewCalc CamCalcs name (CamCamCalc camFileName startClientTime).
Definition CMirvCamCalcs_NewGameCalc (name : option string) :=
  NewCalc CamCalcs name CamGameCalc.

Definition CMirvFovCalcs_NewCamCalc (name : option string) (src : addr) :=
  NewCalc FovCalcs name (FovCamCalc src).

Definition CMirvBoolCalcs_NewHandleCalc (name : option string) (handle : addr) :=
  NewCalc BoolCalcs name (BoolHandleCalc handle).
Definition CMirvBoolCalcs_NewVecAngCalc (name : option string) (vecAng : addr) :=
  NewCalc BoolCalcs name (BoolVecAngCalc vecAng).

(** The state at program start: nothing allocated, every registry empty. *)
Definition Calcs_empty : Calcs :=
  {| free_store := ∅; m_Calcs := fun _ => [] |}.

(** ** Evaluation of calcs *)

(** [SOURCESDK::Vector] and [SOURCESDK::QAngle]. *)
Record Vector : Type := MkVector { vec_x : R; vec_y : R; vec_z : R }.
Record QAngle : Type := MkQAngle { ang_x : R; ang_y : R; ang_z : R }.

(** The result of code that may call a method through a null pointer. *)
Inductive Outcome (A : Type) : Type :=
| Done (a : A)
| NullDereference.
Arguments Done {A} a.
Arguments NullDereference {A}.

(** [p->...] for a nullable pointer [p]. *)
Definition deref {A : Type} (p : option A) : Outcome A :=
  match p with
  | Some a => Done a
  | None => NullDereference
  end.

Definition Outcome_bind {A B : Type} (o : Outcome A) (k : A -> Outcome B) : Outcome B :=
  match o with
  | Done a => k a
  | NullDereference => NullDereference
  end.

(** The part of the Source SDK and of the game the calcs call into. *)
Class SourceSdk : Type := {
  CBaseHandle : Type;
  CBaseHandle_eq_dec :: EqDecision CBaseHandle;
  (** the value of a default-constructed handle *)
  CBaseHandle_default : CBaseHandle;
  IsValid : CBaseHandle -> bool;
  IClientEntity_csgo : Type;
  C_BaseEntity_csgo : Type;
  C_BaseCombatCharacter_csgo : Type;
  C_BaseCombatWeapon_csgo : Type;
  (** [g_Entitylist_csgo] *)
  GetClientEntity : Z -> option IClientEntity_csgo;
  GetClientEntityFromHandle : CBaseHandle -> option IClientEntity_csgo;
  (** [g_VEngineClient] *)
  GetLocalPlayer : Z;
  (** [IClientEntity_csgo] *)
  GetBaseEntity : IClientEntity_csgo -> option C_BaseEntity_csgo;
  GetRefEHandle : IClientEntity_csgo -> CBaseHandle;
  GetAbsOrigin : IClientEntity_csgo -> Vector;
  GetAbsAngles : IClientEntity_csgo -> QAngle;
  LookupAttachment : IClientEntity_csgo -> string -> Z;
  GetAttachment : IClientEntity_csgo -> Z -> option (Vector * QAngle);
  (** [C_BaseEntity_csgo] and [C_BasePlayer_csgo] *)
  EyePosition : C_BaseEntity_csgo -> Vector;
  EyeAngles : C_BaseEntity_csgo -> QAngle;
  IsPlayer : C_BaseEntity_csgo -> bool;
  GetObserverTarget : C_BaseEntity_csgo -> option C_BaseEntity_csgo;
  GetIClientEntity : C_BaseEntity_csgo -> option IClientEntity_csgo;
  MyCombatCharacterPointer : C_BaseEntity_csgo -> option C_BaseCombatCharacter_csgo;
  (** [C_BaseCombatCharacter_csgo] and [C_BaseCombatWeapon_csgo] *)
  GetActiveWeapon : C_BaseCombatCharacter_csgo -> option C_BaseCombatWeapon_csgo;
  Weapon_GetIClientEntity : C_BaseCombatWeapon_csgo -> option IClientEntity_csgo;
  (** the handle read at offset [csgo_C_BaseCombatWeapon_m_hWeaponWorldModel];
      [None] when that offset is -1 *)
  m_hWeaponWorldModel : C_BaseCombatWeapon_csgo -> option CBaseHandle
}.

(** The part of [shared/AfxMath.h] the offset calc uses. *)
Class AfxMath : Type := {
  QEulerAngles : Type;
  QREulerAngles : Type;
  Quaternion : Type;
  (** the constructor [QEulerAngles(a, b, c)] and the members read back *)
  QEulerAngles_new : R -> R -> R -> QEulerAngles;
  Pitch : QEulerAngles -> R;
  Yaw : QEulerAngles -> R;
  Roll : QEulerAngles -> R;
  QREulerAngles_FromQEulerAngles : QEulerAngles -> QREulerAngles;
  Quaternion_FromQREulerAngles : QREulerAngles -> Quaternion;
  Quaternion_mul : Quaternion -> Quaternion -> Quaternion;
  ToQREulerAngles : Quaternion -> QREulerAngles;
  ToQEulerAngles : QREulerAngles -> QEulerAngles;
  (** [MakeVectors(a, b, c, forward, right, up)]: the three arrays *)
  MakeVectors : R -> R -> R -> (R * R * R) * (R * R * R) * (R * R * R)
}.

(** A computation that evaluates calcs: it may read and change the state
    [S] of whatever the calcs of a test or of the game consist of. *)
Definition EvalM (S A : Type) : Type := S -> A * S.

Definition Eval_ret {S A : Type} (a : A) : EvalM S A := fun s => (a, s).

Definition Eval_bind {S A B : Type} (m : EvalM S A) (k : A -> EvalM S B) : EvalM S B :=
  fun s => let '(a, s') := m s in k a s'.

Declare Scope eval_scope.
Delimit Scope eval_scope with eval.
Notation "'do' x <- m ; k" := (Eval_bind m (fun x => k))
  (at level 10, x name, m at level 100, k at level 200) : eval_scope.

Section Evaluation.

Context {sdk : SourceSdk} {math : AfxMath} {S : Type}.

(** The interfaces [IMirvHandleCalc], [IMirvVecAngCalc], [IMirvCamCalc],
    [IMirvFovCalc] and [IMirvBoolCalc], each reduced to its [Calc...]
    method. *)
Definition IMirvHandleCalc : Type := EvalM S (option CBaseHandle).
Definition IMirvVecAngCalc : Type := EvalM S (option (Vector * QAngle)).
Definition IMirvCamCalc : Type := EvalM S (option (Vector * QAngle * R)).
Definition IMirvFovCalc : Type := EvalM S (option R).
Definition IMirvBoolCalc : Type := EvalM S bool.

Open Scope eval_scope.

(** *** Handle calcs *)

Definition CMirvHandleValueCalc_CalcHandle (m_Handle : CBaseHandle) : IMirvHandleCalc :=
  Eval_ret (Some m_Handle).

Definition CMirvHandleIndexCalc_CalcHandle (m_Index : Z) : IMirvHandleCalc :=
  Eval_ret
    match GetClientEntity m_Index with
    | Some ce => Some (GetRefEHandle ce)
    | None => None
    end.

Definition CMirvHandleLocalPlayerCalc_CalcHandle : IMirvHandleCalc :=
  Eval_ret
    match GetClientEntity GetLocalPlayer with
    | Some ce => Some (GetRefEHandle ce)
    | None => None
    end.

Definition CMirvHandleActiveWeaponCalc_CalcHandle
  (m_ParentCalc : IMirvHandleCalc) (m_World : bool) : IMirvHandleCalc :=
  do calcedParent <- m_ParentCalc;
  Eval_ret
    match calcedParent with
    | Some parentHandle =>
      if IsValid parentHandle then
        let clientEntity := GetClientEntityFromHandle parentHandle in
        let baseEntity := clientEntity ≫= GetBaseEntity in
        let combatCharacter := baseEntity ≫= MyCombatCharacterPointer in
        let activeWeapon := combatCharacter ≫= GetActiveWeapon in
        match activeWeapon with
        | Some activeWeapon =>
          let ce :=
            if negb m_World then Weapon_GetIClientEntity activeWeapon
            else
              match m_hWeaponWorldModel activeWeapon with
              | Some hWeaponWorldModel => GetClientEntityFromHandle hWeaponWorldModel
              | None => None
              end in
          match ce with
          | Some ce => Some (GetRefEHandle ce)
          | None => None
          end
        | None => None
        end
      else None
    | None => None
    end.

Definition CMirvHandleObserverTargetCalc_CalcHandle
  (m_ParentCalc : IMirvHandleCalc) : IMirvHandleCalc :=
  do calcedParent <- m_ParentCalc;
  Eval_ret
    match calcedParent with
    | Some parentHandle =>
      if IsValid parentHandle then
        let clientEntity := GetClientEntityFromHandle parentHandle in
        let baseEntity := clientEntity ≫= GetBaseEntity in
        match baseEntity with
        | Some player =>
          if IsPlayer player then
            match GetObserverTarget player with
            | Some be =>
              match GetIClientEntity be with
              | Some ce => Some (GetRefEHandle ce)
              | None => None
              end
            | None => None
            end
          else None
        | None => None
        end
      else None
    | None => None
    end.

(** *** VecAng calcs *)

Definition CMirvVecAngValueCalc_CalcVecAng (m_Vec : Vector) (m_Ang : QAngle)
  : IMirvVecAngCalc :=
  Eval_ret (Some (m_Vec, m_Ang)).

(** [parentVector + offsetVector.x*forward - offsetVector.y*right
     + offsetVector.z*up], component by component. *)
Definition offset_along
  (parentVector offsetVector : Vector) (axes : (R * R * R) * (R * R * R) * (R * R * R))
  : Vector :=
  let '((forward0, forward1, forward2), (right0, right1, right2), (up0, up1, up2)) := axes in
  {| vec_x := vec_x parentVector + vec_x offsetVector * forward0
              - vec_y offsetVector * right0 + vec_z offsetVector * up0;
     vec_y := vec_y parentVector + vec_x offsetVector * forward1
              - vec_y offsetVector * right1 + vec_z offsetVector * up1;
     vec_z := vec_z parentVector + vec_x offsetVector * forward2
              - vec_y offsetVector * right2 + vec_z offsetVector * up2 |}.

(** [(q1 * q2).ToQREulerAngles().ToQEulerAngles()] for the quaternions of
    the two angle triples, written back to a [QAngle]. *)
Definition compose_angles (parentAngles offsetAngles : QAngle) : QAngle :=
  let q1 :=
    Quaternion_FromQREulerAngles (QREulerAngles_FromQEulerAngles
      (QEulerAngles_new (ang_x parentAngles) (ang_y parentAngles) (ang_z parentAngles))) in
  let q2 :=
    Quaternion_FromQREulerAngles (QREulerAngles_FromQEulerAngles
      (QEulerAngles_new (ang_x offsetAngles) (ang_y offsetAngles) (ang_z offsetAngles))) in
  let angs := ToQEulerAngles (ToQREulerAngles (Quaternion_mul q1 q2)) in
  {| ang_z := Roll angs; ang_x := Pitch angs; ang_y := Yaw angs |}.

Definition CMirvVecAngOffsetCalc_CalcVecAng
  (m_Parent m_Offset : IMirvVecAngCalc) (m_LegacyMethod : bool) : IMirvVecAngCalc :=
  do calcedParent <- m_Parent;
  do calcedOffset <-
    match calcedParent with
    | Some _ => m_Offset
    | None => Eval_ret None
    end;
  Eval_ret
    match calcedParent, calcedOffset with
    | Some (parentVector, parentAngles), Some (offsetVector, offsetAngles) =>
      if m_LegacyMethod then
        let outVector :=
          if bool_decide (vec_x offsetVector <> 0)
             || bool_decide (vec_y offsetVector <> 0)
             || bool_decide (vec_z offsetVector <> 0)
          then
            offset_along parentVector offsetVector
              (MakeVectors (ang_z parentAngles) (ang_x parentAngles) (ang_y parentAngles))
          else parentVector in
        let outAngles :=
          if bool_decide (ang_x offsetAngles <> 0)
             || bool_decide (ang_y offsetAngles <> 0)
             || bool_decide (ang_z offsetAngles <> 0)
          then compose_angles parentAngles offsetAngles
          else parentAngles in
        Some (outVector, outAngles)
      else
        let outAngles := compose_angles parentAngles offsetAngles in
        let outVector :=
          offset_along parentVector offsetVector
            (MakeVectors (ang_z outAngles) (ang_x outAngles) (ang_y outAngles)) in
        Some (outVector, outAngles)
    | _, _ => None
    end.

Definition CMirvVecAngHandleCalcEx_CalcVecAng
  (m_Handle : IMirvHandleCalc) (m_EyeVec m_EyeAng : bool)
  : EvalM S (Outcome (option (Vector * QAngle))) :=
  do calcedHandle <- m_Handle;
  let ce :=
    match calcedHandle with
    | Some handle => GetClientEntityFromHandle handle
    | None => None
    end in
  let be :=
    match ce with
    | Some ce => GetBaseEntity ce
    | None => None
    end in
  Eval_ret
    (if bool_decide (is_Some be)
        || (bool_decide (is_Some ce) && negb m_EyeVec && m_EyeAng)
     then
       Outcome_bind
         (if m_EyeVec
          then Outcome_bind (deref be) (fun be => Done (EyePosition be))
          else Outcome_bind (deref ce) (fun ce => Done (GetAbsOrigin ce)))
         (fun outVector =>
       Outcome_bind
         (if m_EyeAng
          then Outcome_bind (deref be) (fun be => Done (EyeAngles be))
          else Outcome_bind (deref ce) (fun ce => Done (GetAbsAngles ce)))
         (fun outAngles =>
       Done (Some (outVector, outAngles))))
     else Done None).

Definition CMirvVecAngHandleAttachmentCalc_CalcVecAng
  (m_Handle : IMirvHandleCalc) (m_AttachmentName : string) : IMirvVecAngCalc :=
  do calcedHandle <- m_Handle;
  let ce :=
    match calcedHandle with
    | Some handle => GetClientEntityFromHandle handle
    | None => None
    end in
  Eval_ret
    match ce with
    | Some ce =>
      let idx := LookupAttachment ce m_AttachmentName in
      if bool_decide (-1 <> idx)%Z then GetAttachment ce idx else None
    | None => None
    end.

Definition CMirvVecAngIfCalc_CalcVecAng
  (m_Condition : IMirvBoolCalc) (m_CondTrue m_CondFalse : IMirvVecAngCalc)
  : IMirvVecAngCalc :=
  do condition <- m_Condition;
  if condition : bool then m_CondTrue else m_CondFalse.

Definition CMirvVecAngOrCalc_CalcVecAng (m_A m_B : IMirvVecAngCalc) : IMirvVecAngCalc :=
  do a <- m_A;
  match a with
  | Some _ => Eval_ret a
  | None => m_B
  end.

Definition CMirvVecAngCamCalc_CalcVecAng (m_Cam : IMirvCamCalc) : IMirvVecAngCalc :=
  do calcedCam <- m_Cam;
  Eval_ret
    match calcedCam with
    | Some (outVector, outAngles, dummyFov) => Some (outVector, outAngles)
    | None => None
    end.

(** *** Fov and Bool calcs *)

Definition CMirvFovCamCalc_CalcFov (m_Cam : IMirvCamCalc) : IMirvFovCalc :=
  do calcedCam <- m_Cam;
  Eval_ret
    match calcedCam with
    | Some (dummyVector, dummyAngles, outFov) => Some outFov
    | None => None
    end.

Definition CMirvBoolHandleCalc_CalcBool (m_Handle : IMirvHandleCalc) : IMirvBoolCalc :=
  do calcedHandle <- m_Handle;
  Eval_ret (bool_decide (is_Some calcedHandle)).

Definition CMirvBoolVecAngCalc_CalcBool (m_VecAng : IMirvVecAngCalc) : IMirvBoolCalc :=
  do calcedVecAng <- m_VecAng;
  Eval_ret (bool_decide (is_Some calcedVecAng)).

(** *** The smooth calc *)

(** The members of [CMirvVecAngSmoothCalc] its [CalcVecAng] writes to. *)
Record CMirvVecAngSmoothCalc : Type := MkSmoothCalc {
  m_Reset : bool;
  m_LastHandle : CBaseHandle;
  m_LastX : R;
  m_LastY : R;
  m_LastZ : R;
  m_XVelocity : R;
  m_YVelocity : R;
  m_ZVelocity : R;
  m_LastYPitch : R;
  m_LastZYaw : R;
  m_LastXRoll : R;
  m_YPitchVelocity : R;
  m_ZYawVelocity : R;
  m_XRollVelocity : R
}.

(** The default member initializers. *)
Definition CMirvVecAngSmoothCalc_new : CMirvVecAngSmoothCalc :=
  {| m_Reset := true;
     m_LastHandle := CBaseHandle_default;
     m_LastX := 0; m_LastY := 0; m_LastZ := 0;
     m_XVelocity := 0; m_YVelocity := 0; m_ZVelocity := 0;
     m_LastYPitch := 0; m_LastZYaw := 0; m_LastXRoll := 0;
     m_YPitchVelocity := 0; m_ZYawVelocity := 0; m_XRollVelocity := 0 |}.

(** The limits: members that are initialized and never written. *)
Definition m_LimitVelocityX : R := 6000.
Definition m_LimitAccelerationX : R := 6000.
Definition m_LimitVelocityY : R := 6000.
Definition m_LimitAccelerationY : R := 6000.
Definition m_LimitVelocityZ : R := 6000.
Definition m_LimitAccelerationZ : R := 6000.
Definition m_LimitVelocityRx : R := 360.
Definition m_LimitAccelerationRx : R := 90.
Definition m_LimitVelocityRy : R := 360.
Definition m_LimitAccelerationRy : R := 90.
Definition m_LimitVelocityRz : R := 360.
Definition m_LimitAccelerationRz : R := 90.

(** [fmod(reaim + 180.0, 360.0) - 180.0], the line under the comment
    "Force reaim angles to be in [-180, 180)". *)
Definition reaim (angle : R) : R := fmod (angle + 180) 360 - 180.

(** The tolerance macro of [shared/AfxMath.h] and the frame time
    [g_Hook_VClient_RenderView.GetGlobals()->absoluteframetime_get()]. *)
Variable AFX_MATH_EPS : R.
Variable absoluteframetime_get : S -> R.

(** What [CalcVecAng] does once both operands have been evaluated: the
    value returned and the new members; [None] when a call of
    [CalcSmooth] ran out of fuel. *)
Definition CMirvVecAngSmoothCalc_update
  (fuel : nat) (deltaT : R)
  (calcedParent : option (Vector * QAngle)) (calcedHandle : option CBaseHandle)
  (this : CMirvVecAngSmoothCalc)
  : option (option (Vector * QAngle) * CMirvVecAngSmoothCalc) :=
  let reset :=
    m_Reset this
    || negb (match calcedParent, calcedHandle with
             | Some _, Some handle => bool_decide (m_LastHandle this = handle)
             | _, _ => false
             end) in
  let lastHandle :=
    match calcedHandle with
    | Some handle => handle
    | None => m_LastHandle this
    end in
  match calcedParent, calcedHandle with
  | Some (parentVector, parentAngles), Some _ =>
    if reset then
      Some
        (Some ({| vec_x := vec_x parentVector;
                  vec_y := vec_y parentVector;
                  vec_z := vec_z parentVector |},
               {| ang_x := ang_x parentAngles;
                  ang_y := ang_y parentAngles;
                  ang_z := ang_z parentAngles |}),
         {| m_Reset := false;
            m_LastHandle := lastHandle;
            m_LastX := vec_x parentVector;
            m_LastY := vec_y parentVector;
            m_LastZ := vec_z parentVector;
            m_XVelocity := 0; m_YVelocity := 0; m_ZVelocity := 0;
            m_LastXRoll := ang_x parentAngles;
            m_LastYPitch := ang_y parentAngles;
            m_LastZYaw := ang_z parentAngles;
            m_XRollVelocity := 0; m_YPitchVelocity := 0; m_ZYawVelocity := 0 |})
    else
      let reaimYPitch := reaim (ang_y parentAngles - m_LastYPitch this) in
      let reaimZYaw := reaim (ang_z parentAngles - m_LastZYaw this) in
      let reaimXRoll := reaim (ang_x parentAngles - m_LastXRoll this) in
      '(lastYPitch, yPitchVelocity) ←
        CalcSmooth AFX_MATH_EPS fuel deltaT (m_LastYPitch this + reaimYPitch)
          (m_LastYPitch this) (m_YPitchVelocity this)
          m_LimitVelocityRy m_LimitAccelerationRy;
      '(lastZYaw, zYawVelocity) ←
        CalcSmooth AFX_MATH_EPS fuel deltaT (m_LastZYaw this + reaimZYaw)
          (m_LastZYaw this) (m_ZYawVelocity this)
          m_LimitVelocityRz m_LimitAccelerationRz;
      '(lastXRoll, xRollVelocity) ←
        CalcSmooth AFX_MATH_EPS fuel deltaT (m_LastXRoll this + reaimXRoll)
          (m_LastXRoll this) (m_XRollVelocity this)
          m_LimitVelocityRx m_LimitAccelerationRx;
      '(lastX, xVelocity) ←
        CalcSmooth AFX_MATH_EPS fuel deltaT (vec_x parentVector)
          (m_LastX this) (m_XVelocity this) m_LimitVelocityX m_LimitAccelerationX;
      '(lastY, yVelocity) ←
        CalcSmooth AFX_MATH_EPS fuel deltaT (vec_y parentVector)
          (m_LastY this) (m_YVelocity this) m_LimitVelocityY m_LimitAccelerationY;
      '(lastZ, zVelocity) ←
        CalcSmooth AFX_MATH_EPS fuel deltaT (vec_z parentVector)
          (m_LastZ this) (m_ZVelocity this) m_LimitVelocityZ m_LimitAccelerationZ;
      Some
        (Some ({| vec_x := lastX; vec_y := lastY; vec_z := lastZ |},
               {| ang_x := lastXRoll; ang_y := lastYPitch; ang_z := lastZYaw |}),
         {| m_Reset := false;
            m_LastHandle := lastHandle;
            m_LastX := lastX; m_LastY := lastY; m_LastZ := lastZ;
            m_XVelocity := xVelocity; m_YVelocity := yVelocity; m_ZVelocity := zVelocity;
            m_LastXRoll := lastXRoll; m_LastYPitch := lastYPitch; m_LastZYaw := lastZYaw;
            m_XRollVelocity := xRollVelocity;
            m_YPitchVelocity := yPitchVelocity;
            m_ZYawVelocity := zYawVelocity |})
  | _, _ =>
    Some
      (None,
       {| m_Reset := reset;
          m_LastHandle := lastHandle;
          m_LastX := m_LastX this; m_LastY := m_LastY this; m_LastZ := m_LastZ this;
          m_XVelocity := m_XVelocity this;
          m_YVelocity := m_YVelocity this;
          m_ZVelocity := m_ZVelocity this;
          m_LastXRoll := m_LastXRoll this;
          m_LastYPitch := m_LastYPitch this;
          m_LastZYaw := m_LastZYaw this;
          m_XRollVelocity := m_XRollVelocity this;
          m_YPitchVelocity := m_YPitchVelocity this;
          m_ZYawVelocity := m_ZYawVelocity this |})
  end.

(** [CMirvVecAngSmoothCalc::CalcVecAng]: both operands are evaluated, the
    parent first. *)
Definition CMirvVecAngSmoothCalc_CalcVecAng
  (fuel : nat) (m_Parent : IMirvVecAngCalc) (m_TrackHandle : IMirvHandleCalc)
  (this : CMirvVecAngSmoothCalc)
  : EvalM S (option (option (Vector * QAngle) * CMirvVecAngSmoothCalc)) :=
  do calcedParent <- m_Parent;
  do calcedHandle <- m_TrackHandle;
  fun s =>
    (CMirvVecAngSmoothCalc_update fuel (absoluteframetime_get s)
       calcedParent calcedHandle this, s).

End Evaluation.

(** ** Test doubles *)

(** A calc that records its evaluation in a log and returns [result]. *)
Definition probe {A : Type} (name : string) (result : A) : EvalM (list string) A :=
  fun log => (result, log ++ [name]).

(** A game with two client entities, reached through the handles 1 and 2.
    Entity 1 has a base entity; entity 2 has none ([GetBaseEntity] returns
    the null pointer). *)
#[local] Instance TestSdk : SourceSdk := {|
  CBaseHandle := Z;
  CBaseHandle_default := 4294967295%Z;
  IsValid := fun h => negb (h =? 4294967295)%Z;
  IClientEntity_csgo := Z;
  C_BaseEntity_csgo := Z;
  C_BaseCombatCharacter_csgo := Z;
  C_BaseCombatWeapon_csgo := Z;
  GetClientEntity := fun i => if ((i =? 1) || (i =? 2))%Z then Some i else None;
  GetClientEntityFromHandle := fun h => if ((h =? 1) || (h =? 2))%Z then Some h else None;
  GetLocalPlayer := 1%Z;
  GetBaseEntity := fun ce => if (ce =? 1)%Z then Some ce else None;
  GetRefEHandle := fun ce => ce;
  GetAbsOrigin := fun ce => MkVector (IZR ce) 0 0;
  GetAbsAngles := fun ce => MkQAngle 0 (IZR ce) 0;
  LookupAttachment := fun _ _ => (-1)%Z;
  GetAttachment := fun _ _ => None;
  EyePosition := fun be => MkVector (IZR be) 0 64;
  EyeAngles := fun be => MkQAngle 0 (IZR be) 0;
  IsPlayer := fun _ => true;
  GetObserverTarget := fun _ => None;
  GetIClientEntity := fun be => Some be;
  MyCombatCharacterPointer := fun _ => None;
  GetActiveWeapon := fun _ => None;
  Weapon_GetIClientEntity := fun _ => None;
  m_hWeaponWorldModel := fun _ => None
|}.

(** A stand-in for [shared/AfxMath.h] in which an orientation is its
    triple of angles and composition adds the angles; the axes are those
    of the unrotated frame. *)
#[local] Instance TestMath : AfxMath := {|
  QEulerAngles := R * R * R;
  QREulerAngles := R * R * R;
  Quaternion := R * R * R;
  QEulerAngles_new := fun a b c => (a, b, c);
  Pitch := fun e => e.1.1;
  Yaw := fun e => e.1.2;
  Roll := fun e => e.2;
  QREulerAngles_FromQEulerAngles := fun e => e;
  Quaternion_FromQREulerAngles := fun e => e;
  Quaternion_mul := fun q1 q2 =>
    (q1.1.1 + q2.1.1, q1.1.2 + q2.1.2, q1.2 + q2.2);
  ToQREulerAngles := fun q => q;
  ToQEulerAngles := fun e => e;
  MakeVectors := fun _ _ _ => ((1, 0, 0), (0, 1, 0), (0, 0, 1))
|}.

(** ** Notions used in the statements below *)

(** The number of objects whose reference count is at least one: it bounds
    the nesting of destructor calls in [Release]. *)
Definition alive (h : gmap addr CMirvCalc) : nat :=
  size (filter (fun pc : addr * CMirvCalc => (1 <= m_RefCount pc.2)%Z) h).

(** The releases of a destructor, one after the other. *)
Definition release_all (fuel : nat) (ops : list addr) (h : option (gmap addr CMirvCalc))
  : option (gmap addr CMirvCalc) :=
  foldl (fun acc q => match acc with Some h' => Release fuel q h' | None => None end) h ops.

(** The members after a reset to the pose [(v, a)] for the handle [handle]. *)
Definition snapped {sdk : SourceSdk} (handle : CBaseHandle) (v : Vector) (a : QAngle)
  : CMirvVecAngSmoothCalc :=
  {| m_Reset := false;
     m_LastHandle := handle;
     m_LastX := vec_x v; m_LastY := vec_y v; m_LastZ := vec_z v;
     m_XVelocity := 0; m_YVelocity := 0; m_ZVelocity := 0;
     m_LastXRoll := ang_x a; m_LastYPitch := ang_y a; m_LastZYaw := ang_z a;
     m_XRollVelocity := 0; m_YPitchVelocity := 0; m_ZYawVelocity := 0 |}.

(** A sequence of evaluations of a smooth calc, given by the frame time
    and the results of the two operands of each; the values returned are
    dropped. *)
Fixpoint smooth_run {sdk : SourceSdk} (AFX_MATH_EPS : R) (fuel : nat)
  (evaluations : list (R * option (Vector * QAngle) * option CBaseHandle))
  (this : CMirvVecAngSmoothCalc) : option CMirvVecAngSmoothCalc :=
  match evaluations with
  | [] => Some this
  | (deltaT, calcedParent, calcedHandle) :: rest =>
    match CMirvVecAngSmoothCalc_update AFX_MATH_EPS fuel deltaT
            calcedParent calcedHandle this with
    | Some (_, this') => smooth_run AFX_MATH_EPS fuel rest this'
    | None => None
    end
  end.

(** An evaluation in which an operand fails. *)
Definition failing {sdk : SourceSdk}
  (e : R * option (Vector * QAngle) * option CBaseHandle) : Prop :=
  e.1.2 = None \/ e.2 = None.

(** The registries after [mirv_calcs handle add value h1 5]. *)
Definition Calcs_h1 : Calcs :=
  (CMirvHandleCalcs_NewValueCalc (Some "h1") 5 Calcs_empty).2.

(** ** Further notions and models *)

(** ** The key calc, [CMirvHandleKeyCalc] *)

Section KeyCalc.

Context {sdk : SourceSdk} {S : Type}.

(** What the key calc calls besides the entity list:
    [C_BaseEntity_csgo::GetTeamNumber]; the function at the address
    [csgo_Unknown_GetTeamsSwappedOnScreen], a null pointer when the address
    is not known; and [GetGlobals()->maxclients_get()], where [None] stands
    for [GetGlobals()] returning the null pointer. *)
Variable GetTeamNumber : C_BaseEntity_csgo -> Z.
Variable csgo_Unknown_GetTeamsSwappedOnScreen : option (S -> bool).
Variable maxclients_get : S -> option Z.

(** The loop [for (int i = 1; i <= imax; ++i)] with [n] indices left. *)
Fixpoint CMirvHandleKeyCalc_loop
  (swapPlayerSide isOtherScreenSide : bool) (slot : Z)
  (n : nat) (i slotCT slotT : Z) : option CBaseHandle :=
  match n with
  | O => None
  | Datatypes.S k =>
    let ce := GetClientEntity i in
    let be := match ce with Some ce => GetBaseEntity ce | None => None end in
    match ce, be with
    | Some ce, Some be =>
      if IsPlayer be then
        let be_team := GetTeamNumber be in
        if (3 =? be_team)%Z then
          if eqb isOtherScreenSide swapPlayerSide && (slotCT =? slot)%Z
          then Some (GetRefEHandle ce)
          else CMirvHandleKeyCalc_loop swapPlayerSide isOtherScreenSide slot
                 k (i + 1)%Z (slotCT + 1)%Z slotT
        else if (2 =? be_team)%Z then
          if negb (eqb isOtherScreenSide swapPlayerSide) && (slotT =? slot)%Z
          then Some (GetRefEHandle ce)
          else CMirvHandleKeyCalc_loop swapPlayerSide isOtherScreenSide slot
                 k (i + 1)%Z slotCT (slotT + 1)%Z
        else CMirvHandleKeyCalc_loop swapPlayerSide isOtherScreenSide slot
               k (i + 1)%Z slotCT slotT
      else CMirvHandleKeyCalc_loop swapPlayerSide isOtherScreenSide slot
             k (i + 1)%Z slotCT slotT
    | _, _ =>
      CMirvHandleKeyCalc_loop swapPlayerSide isOtherScreenSide slot
        k (i + 1)%Z slotCT slotT
    end
  end.

(** The value of an [int] expression: 32 bits in two's complement, with
    the wrap-around the compiled code has where C++ leaves the overflow of
    a signed addition undefined. *)
Definition int_wrap (z : Z) : Z := ((z + 2147483648) mod 4294967296 - 2147483648)%Z.

(** [int nr = ((m_Key +9) % 10);]: [%] and [/] of C round toward zero. *)
Definition CMirvHandleKeyCalc_nr (m_Key : Z) : Z := Z.rem (int_wrap (m_Key + 9)) 10.

(** [bool isOtherScreenSide = 0 != ((nr / 5) % 2);] *)
Definition CMirvHandleKeyCalc_isOtherScreenSide (m_Key : Z) : bool :=
  negb (0 =? Z.rem (Z.quot (CMirvHandleKeyCalc_nr m_Key) 5) 2)%Z.

(** [int slot = (nr % 5);] *)
Definition CMirvHandleKeyCalc_slot (m_Key : Z) : Z :=
  Z.rem (CMirvHandleKeyCalc_nr m_Key) 5.

(** [CMirvHandleKeyCalc::CalcHandle]. *)
Definition CMirvHandleKeyCalc_CalcHandle (m_Key : Z) : IMirvHandleCalc (S := S) :=
  fun s =>
    let swapPlayerSide :=
      match csgo_Unknown_GetTeamsSwappedOnScreen with
      | Some fnPlayerSidesWappedOnScreen => fnPlayerSidesWappedOnScreen s
      | None => false
      end in
    let imax := match maxclients_get s with Some n => n | None => 0%Z end in
    (CMirvHandleKeyCalc_loop swapPlayerSide
       (CMirvHandleKeyCalc_isOtherScreenSide m_Key) (CMirvHandleKeyCalc_slot m_Key)
       (Z.to_nat imax) 1 0 0,
     s).

(** The client entity with index [i] if it is a player of the team. *)
Definition team_player (team i : Z) : option IClientEntity_csgo :=
  match GetClientEntity i with
  | Some ce =>
    match GetBaseEntity ce with
    | Some be =>
      if IsPlayer be && (GetTeamNumber be =? team)%Z then Some ce else None
    | None => None
    end
  | None => None
  end.

(** The players of the team among the client entities [first], ...,
    [first + len - 1], in the order of their indices. *)
Definition team_players (team first : Z) (len : nat) : list IClientEntity_csgo :=
  omap (team_player team) ((fun k : nat => (first + Z.of_nat k)%Z) <$> seq 0 len).

End KeyCalc.

Section Accounting.

Open Scope nat_scope.

(** ** The accounting of references *)

(** How often the address [q] occurs in a list of addresses. *)
Definition count_refs (q : addr) (l : list addr) : nat := count_occ Pos.eq_dec l q.

(** The number of operand slots of the calcs on the free store that point
    to [q]. *)
Definition operand_refs (h : gmap addr CMirvCalc) (q : addr) : nat :=
  map_fold (fun _ c n => count_refs q (operands (m_Kind c)) + n) 0 h.

(** The number of registry entries that point to [q]. *)
Definition registry_refs (calcs : CalcFamily -> list addr) (q : addr) : nat :=
  count_refs q (calcs HandleCalcs) + count_refs q (calcs VecAngCalcs)
  + count_refs q (calcs CamCalcs) + count_refs q (calcs FovCalcs)
  + count_refs q (calcs BoolCalcs).

(** The references are accounted for: the reference count of every calc is
    the number of registry entries and operand slots that point to it, and
    no operand slot and no registry entry points to a freed calc. *)
Definition references_accounted (st : Calcs) : Prop :=
  (forall q c, free_store st !! q = Some c ->
     m_RefCount c
     = Z.of_nat (registry_refs (m_Calcs st) q + operand_refs (free_store st) q))
  /\ (forall q c o, free_store st !! q = Some c -> o ∈ operands (m_Kind c) ->
        is_Some (free_store st !! o))
  /\ (forall f q, q ∈ m_Calcs st f -> is_Some (free_store st !! q)).

(** The same with the references held from outside the free store given
    by [base], and with a list of references that are still to be
    released. *)
Definition accounted (base : addr -> nat) (pending : list addr)
  (h : gmap addr CMirvCalc) : Prop :=
  (forall q c, h !! q = Some c ->
     m_RefCount c = Z.of_nat (base q + operand_refs h q + count_refs q pending)
     /\ forall o, o ∈ operands (m_Kind c) -> is_Some (h !! o))
  /\ (forall q, 0 < base q + count_refs q pending -> is_Some (h !! q)).

(** No two entries of a registry have names that are equal up to case. *)
Definition names_unique (st : Calcs) : Prop :=
  forall f i j p q,
    m_Calcs st f !! i = Some p -> m_Calcs st f !! j = Some q ->
    _stricmp (GetName p (free_store st)) (GetName q (free_store st)) = 0%Z -> i = j.

(** No calc has more than one registry entry. *)
Definition registered_once (st : Calcs) : Prop :=
  forall q, registry_refs (m_Calcs st) q <= 1.

(** The states the factory methods, [Console_Remove] and the edits of
    calcs lead to from the start of the program.  The operands given to a
    factory method are pointers to calcs that have not been freed; an edit
    changes members of a calc other than its name, its reference count and
    its operands. *)
Inductive reachable : Calcs -> Prop :=
| reachable_empty : reachable Calcs_empty
| reachable_NewCalc (fam : CalcFamily) (name : option string) (k : CalcKind) (st : Calcs) :
    reachable st ->
    (forall q, q ∈ operands k -> is_Some (free_store st !! q)) ->
    reachable (NewCalc fam name k st).2
| reachable_Console_Remove (fam : CalcFamily) (name : string) (st st' : Calcs)
    (out : list string) :
    reachable st ->
    Console_Remove fam name st = Some (st', out) ->
    reachable st'
| reachable_edit (p : addr) (c : CMirvCalc) (k : CalcKind) (st : Calcs) :
    reachable st ->
    free_store st !! p = Some c ->
    operands k = operands (m_Kind c) ->
    reachable {| free_store := <[p := MkCalc (m_Name c) (m_RefCount c) k]> (free_store st);
                 m_Calcs := m_Calcs st |}.

(** The calc at [p] has the calc at [o] as an operand. *)
Definition uses (h : gmap addr CMirvCalc) (p o : addr) : Prop :=
  exists c, h !! p = Some c /\ o ∈ operands (m_Kind c).

(** No calc is an operand of itself, directly or through other calcs. *)
Definition acyclic (h : gmap addr CMirvCalc) : Prop :=
  forall p, ~ tc (uses h) p p.

(** Every operand has a smaller rank than the calc that uses it. *)
Definition ranked (h : gmap addr CMirvCalc) (rank : addr -> nat) : Prop :=
  forall p c o, h !! p = Some c -> o ∈ operands (m_Kind c) -> rank o < rank p.

(** Every calc on the free store has a registry entry, and the registry of
    the bool calcs is empty. *)
Definition all_registered (st : Calcs) : Prop :=
  (forall q, is_Some (free_store st !! q) -> 0 < registry_refs (m_Calcs st) q)
  /\ m_Calcs st BoolCalcs = [].

(** What releasing references can do to the free store: every calc there
    afterwards was there before, with the same name and kind and with a
    reference count that is not larger. *)
Definition only_releases (h h' : gmap addr CMirvCalc) : Prop :=
  forall x c', h' !! x = Some c' ->
    exists c, h !! x = Some c /\ m_Name c' = m_Name c /\ m_Kind c' = m_Kind c
              /\ (m_RefCount c' <= m_RefCount c)%Z.

(** The result of releasing pending references, in terms of the part [g]
    of the free store whose calcs are not being destroyed: what is left of
    it, [g'], is accounted for, and the calcs outside it are those from
    before. *)
Definition released_to (base : addr -> nat) (pending : list addr)
  (g h h' : gmap addr CMirvCalc) : Prop :=
  exists g', g' ⊆ h' /\ accounted base pending g'
    /\ (forall x, is_Some (g' !! x) -> is_Some (g !! x))
    /\ (forall x, is_Some (h' !! x) -> g' !! x = None -> is_Some (h !! x) /\ g !! x = None).

(** A calc that [Release] leaves on the free store has a positive
    reference count if it had one before. *)
Definition keeps_positive (h h' : gmap addr CMirvCalc) : Prop :=
  forall q c', h' !! q = Some c' ->
    exists c, h !! q = Some c /\ ((1 <= m_RefCount c)%Z -> (1 <= m_RefCount c')%Z).

End Accounting.

(** ** The console commands *)

(** [IWrpCommandArgs]: the number of arguments [ArgC()] and the arguments
    [ArgV(i)].  Nothing is said on [ArgV] beyond [ArgC]. *)
Record IWrpCommandArgs : Type := MkArgs {
  ArgC : Z;
  ArgV : Z -> string
}.

Section Console.

(** [atoi] and [atof] of the C library ([atof] with the conversion to
    [float] the code applies to its result), and the class
    [CSubWrpCommandArgs] of the console wrapper, which [MirvCalcs.cpp] only
    uses: parameters. *)
Variable atoi : string -> Z.
Variable atof : string -> R.
Variable CSubWrpCommandArgs : IWrpCommandArgs -> Z -> IWrpCommandArgs.

(** [0 == _stricmp(option, arg1)] and [3 <= argc] inside [2 <= argc]: an
    edit sets the option; otherwise it prints a text. *)
Definition edit_sets (args : IWrpCommandArgs) (name : string) : bool :=
  (0 =? _stricmp name (ArgV args 1))%Z && (3 <=? ArgC args)%Z.

(** The virtual method [Console_Edit] by the class of the calc: the
    arguments of the constructor that give the members after the edit.
    The classes that do not override it, or only call the method of their
    base class, print "No editable options." *)
Definition Console_Edit (args : IWrpCommandArgs) (k : CalcKind) : CalcKind :=
  if (2 <=? ArgC args)%Z then
    let arg1 := ArgV args 1 in
    let arg2 := ArgV args 2 in
    match k with
    | HandleValueCalc handle =>
      if edit_sets args "handle" then HandleValueCalc (atoi arg2) else k
    | HandleIndexCalc index =>
      if edit_sets args "index" then HandleIndexCalc (atoi arg2) else k
    | HandleKeyCalc key =>
      if edit_sets args "key" then HandleKeyCalc (atoi arg2) else k
    | HandleActiveWeaponCalc parentCalc world =>
      if edit_sets args "getWorld"
      then HandleActiveWeaponCalc parentCalc (negb (0 =? atoi arg2)%Z)
      else k
    | VecAngValueCalc x y z rX rY rZ =>
      if (0 =? _stricmp "x" arg1)%Z then
        if (3 <=? ArgC args)%Z then VecAngValueCalc (atof arg2) y z rX rY rZ else k
      else if (0 =? _stricmp "y" arg1)%Z then
        if (3 <=? ArgC args)%Z then VecAngValueCalc x (atof arg2) z rX rY rZ else k
      else if (0 =? _stricmp "z" arg1)%Z then
        if (3 <=? ArgC args)%Z then VecAngValueCalc x y (atof arg2) rX rY rZ else k
      else if (0 =? _stricmp "rX" arg1)%Z then
        if (3 <=? ArgC args)%Z then VecAngValueCalc x y z (atof arg2) rY rZ else k
      else if (0 =? _stricmp "rY" arg1)%Z then
        if (3 <=? ArgC args)%Z then VecAngValueCalc x y z rX (atof arg2) rZ else k
      else if (0 =? _stricmp "rZ" arg1)%Z then
        if (3 <=? ArgC args)%Z then VecAngValueCalc x y z rX rY (atof arg2) else k
      else k
    | VecAngOffsetCalc parent offset legacyMethod =>
      if edit_sets args "legacyMethod"
      then VecAngOffsetCalc parent offset (negb (0 =? atoi arg2)%Z)
      else k
    | VecAngHandleCalcEx handle eyeVec eyeAng =>
      if (0 =? _stricmp "eyeVec" arg1)%Z then
        if (3 <=? ArgC args)%Z
        then VecAngHandleCalcEx handle (negb (0 =? atoi arg2)%Z) eyeAng else k
      else if (0 =? _stricmp "eyeAng" arg1)%Z then
        if (3 <=? ArgC args)%Z
        then VecAngHandleCalcEx handle eyeVec (negb (0 =? atoi arg2)%Z) else k
      else k
    | VecAngHandleAttachmentCalc handle attachmentName =>
      if edit_sets args "attachmentName"
      then VecAngHandleAttachmentCalc handle arg2 else k
    | CamCamCalc camFileName startClientTime =>
      if (0 =? _stricmp "filePath" arg1)%Z then
        if (3 <=? ArgC args)%Z then CamCamCalc arg2 startClientTime else k
      else if (0 =? _stricmp "startTime" arg1)%Z then
        if (3 <=? ArgC args)%Z then CamCamCalc camFileName arg2 else k
      else k
    | _ => k
    end
  else k.

(** [parentCalc->Console_Edit(&sub)] on the free store. *)
Definition Console_Edit_at (args : IWrpCommandArgs) (p : addr) (st : Calcs) : Calcs :=
  {| free_store :=
       alter (fun c => MkCalc (m_Name c) (m_RefCount c) (Console_Edit args (m_Kind c)))
         p (free_store st);
     m_Calcs := m_Calcs st |}.

(** The branches [remove], [print], [test] and [edit], which the four
    commands have in common, for the registry [fam]; [arg1] is not "add".
    The value is the state of the free store and of the registries after
    the command; what the command prints is left out.  [print] and [test]
    change neither: the members a test evaluation writes are not part of
    [Calcs], and the state given for [test] is that after an evaluation
    that returns. *)
Definition mirv_calcs_other (fam : CalcFamily) (args : IWrpCommandArgs) (st : Calcs)
  : option Calcs :=
  let argc := ArgC args in
  let arg1 := ArgV args 1 in
  if (0 =? _stricmp "remove" arg1)%Z && (3 <=? argc)%Z then
    match Console_Remove fam (ArgV args 2) st with
    | Some (st', _) => Some st'
    | None => None
    end
  else if (0 =? _stricmp "print" arg1)%Z then Some st
  else if (0 =? _stricmp "test" arg1)%Z && (3 <=? argc)%Z then Some st
  else if (0 =? _stricmp "edit" arg1)%Z && (3 <=? argc)%Z then
    match GetByName (ArgV args 2) (free_store st) (m_Calcs st fam) with
    | Some parentCalc => Some (Console_Edit_at (CSubWrpCommandArgs args 3) parentCalc st)
    | None => Some st
    end
  else Some st.

(** [mirv_calcs_handle]. *)
Definition mirv_calcs_handle (args : IWrpCommandArgs) (st : Calcs) : option Calcs :=
  let argc := ArgC args in
  if (2 <=? argc)%Z then
    let arg1 := ArgV args 1 in
    if (0 =? _stricmp "add" arg1)%Z then
      if (3 <=? argc)%Z then
        let arg2 := ArgV args 2 in
        if (0 =? _stricmp "value" arg2)%Z && (5 <=? argc)%Z then
          Some (CMirvHandleCalcs_NewValueCalc
                  (Some (ArgV args 3)) (atoi (ArgV args 4)) st).2
        else if (0 =? _stricmp "index" arg2)%Z && (5 <=? argc)%Z then
          Some (CMirvHandleCalcs_NewIndexCalc
                  (Some (ArgV args 3)) (atoi (ArgV args 4)) st).2
        else if (0 =? _stricmp "key" arg2)%Z && (5 <=? argc)%Z then
          Some (CMirvHandleCalcs_NewKeyCalc
                  (Some (ArgV args 3)) (atoi (ArgV args 4)) st).2
        else if (0 =? _stricmp "activeWeapon" arg2)%Z && (6 <=? argc)%Z then
          match GetByName (ArgV args 4) (free_store st) (m_Calcs st HandleCalcs) with
          | Some parentCalc =>
            Some (CMirvHandleCalcs_NewActiveWeaponCalc (Some (ArgV args 3)) parentCalc
                    (negb (0 =? atoi (ArgV args 5))%Z) st).2
          | None => Some st
          end
        else if (0 =? _stricmp "localPlayer" arg2)%Z && (4 <=? argc)%Z then
          Some (CMirvHandleCalcs_NewLocalPlayerCalc (Some (ArgV args 3)) st).2
        else if (0 =? _stricmp "observerTarget" arg2)%Z && (5 <=? argc)%Z then
          match GetByName (ArgV args 4) (free_store st) (m_Calcs st HandleCalcs) with
          | Some parentCalc =>
            Some (CMirvHandleCalcs_NewObserverTargetCalc
                    (Some (ArgV args 3)) parentCalc st).2
          | None => Some st
          end
        else Some st
      else Some st
    else mirv_calcs_other HandleCalcs args st
  else Some st.

(** [mirv_calcs_vecang]. *)
Definition mirv_calcs_vecang (args : IWrpCommandArgs) (st : Calcs) : option Calcs :=
  let argc := ArgC args in
  if (2 <=? argc)%Z then
    let arg1 := ArgV args 1 in
    if (0 =? _stricmp "add" arg1)%Z then
      if (3 <=? argc)%Z then
        let arg2 := ArgV args 2 in
        if (0 =? _stricmp "value" arg2)%Z && (10 <=? argc)%Z then
          Some (CMirvVecAngCalcs_NewValueCalc (Some (ArgV args 3))
                  (atof (ArgV args 4)) (atof (ArgV args 5)) (atof (ArgV args 6))
                  (atof (ArgV args 7)) (atof (ArgV args 8)) (atof (ArgV args 9)) st).2
        else if (0 =? _stricmp "offset" arg2)%Z && (7 <=? argc)%Z then
          match GetByName (ArgV args 4) (free_store st) (m_Calcs st VecAngCalcs) with
          | Some calcA =>
            match GetByName (ArgV args 5) (free_store st) (m_Calcs st VecAngCalcs) with
            | Some calcB =>
              Some (CMirvVecAngCalcs_NewOffsetCalc (Some (ArgV args 3)) calcA calcB
                      (negb (0 =? atoi (ArgV args 6))%Z) st).2
            | None => Some st
            end
          | None => Some st
          end
        else if (0 =? _stricmp "handle" arg2)%Z && (5 <=? argc)%Z then
          match GetByName (ArgV args 4) (free_store st) (m_Calcs st HandleCalcs) with
          | Some parentCalc =>
            Some (CMirvVecAngCalcs_NewHandleCalc (Some (ArgV args 3)) parentCalc st).2
          | None => Some st
          end
        else if (0 =? _stricmp "handleEye" arg2)%Z && (5 <=? argc)%Z then
          match GetByName (ArgV args 4) (free_store st) (m_Calcs st HandleCalcs) with
          | Some parentCalc =>
            Some (CMirvVecAngCalcs_NewHandleEyeCalc (Some (ArgV args 3)) parentCalc st).2
          | None => Some st
          end
        else if (0 =? _stricmp "handleAttachment" arg2)%Z && (6 <=? argc)%Z then
          match GetByName (ArgV args 4) (free_store st) (m_Calcs st HandleCalcs) with
          | Some parentCalc =>
            Some (CMirvVecAngCalcs_NewHandleAttachmentCalc
                    (Some (ArgV args 3)) parentCalc (ArgV args 5) st).2
          | None => Some st
          end
        else if (0 =? _stricmp "or" arg2)%Z && (6 <=? argc)%Z then
          match GetByName (ArgV args 4) (free_store st) (m_Calcs st VecAngCalcs) with
          | Some calcA =>
            match GetByName (ArgV args 5) (free_store st) (m_Calcs st VecAngCalcs) with
            | Some calcB =>
              Some (CMirvVecAngCalcs_NewOrCalc (Some (ArgV args 3)) calcA calcB st).2
            | None => Some st
            end
          | None => Some st
          end
        else if (0 =? _stricmp "cam" arg2)%Z && (5 <=? argc)%Z then
          match GetByName (ArgV args 4) (free_store st) (m_Calcs st CamCalcs) with
          | Some parentCalc =>
            Some (CMirvVecAngCalcs_NewCamCalc (Some (ArgV args 3)) parentCalc st).2
          | None => Some st
          end
        else if (0 =? _stricmp "smooth" arg2)%Z && (6 <=? argc)%Z then
          match GetByName (ArgV args 4) (free_store st) (m_Calcs st VecAngCalcs) with
          | Some calcA =>
            match GetByName (ArgV args 5) (free_store st) (m_Calcs st HandleCalcs) with
            | Some calcB =>
              Some (CMirvVecAngCalcs_NewSmoothCalc (Some (ArgV args 3)) calcA calcB st).2
            | None => Some st
            end
          | None => Some st
          end
        else Some st
      else Some st
    else mirv_calcs_other VecAngCalcs args st
  else Some st.

(** [mirv_calcs_cam]; [add game] reads [ArgV(3)] whatever [ArgC] is. *)
Definition mirv_calcs_cam (args : IWrpCommandArgs) (st : Calcs) : option Calcs :=
  let argc := ArgC args in
  if (2 <=? argc)%Z then
    let arg1 := ArgV args 1 in
    if (0 =? _stricmp "add" arg1)%Z then
      if (3 <=? argc)%Z then
        let arg2 := ArgV args 2 in
        if (0 =? _stricmp "cam" arg2)%Z && (6 <=? argc)%Z then
          Some (CMirvCamCalcs_NewCamCalc
                  (Some (ArgV args 3)) (ArgV args 4) (ArgV args 5) st).2
        else if (0 =? _stricmp "game" arg2)%Z then
          Some (CMirvCamCalcs_NewGameCalc (Some (ArgV args 3)) st).2
        else Some st
      else Some st
    else mirv_calcs_other CamCalcs args st
  else Some st.

(** [mirv_calcs_fov]. *)
Definition mirv_calcs_fov (args : IWrpCommandArgs) (st : Calcs) : option Calcs :=
  let argc := ArgC args in
  if (2 <=? argc)%Z then
    let arg1 := ArgV args 1 in
    if (0 =? _stricmp "add" arg1)%Z then
      if (3 <=? argc)%Z then
        let arg2 := ArgV args 2 in
        if (0 =? _stricmp "cam" arg2)%Z && (5 <=? argc)%Z then
          match GetByName (ArgV args 4) (free_store st) (m_Calcs st CamCalcs) with
          | Some parentCalc =>
            Some (CMirvFovCalcs_NewCamCalc (Some (ArgV args 3)) parentCalc st).2
          | None => Some st
          end
        else Some st
      else Some st
    else mirv_calcs_other FovCalcs args st
  else Some st.

(** The console command [mirv_calcs]. *)
Definition mirv_calcs (args : IWrpCommandArgs) (st : Calcs) : option Calcs :=
  let argc := ArgC args in
  if (2 <=? argc)%Z then
    let arg1 := ArgV args 1 in
    if (0 =? _stricmp "handle" arg1)%Z then
      mirv_calcs_handle (CSubWrpCommandArgs args 2) st
    else if (0 =? _stricmp "vecAng" arg1)%Z then
      mirv_calcs_vecang (CSubWrpCommandArgs args 2) st
    else if (0 =? _stricmp "fov" arg1)%Z then
      mirv_calcs_fov (CSubWrpCommandArgs args 2) st
    else if (0 =? _stricmp "cam" arg1)%Z then
      mirv_calcs_cam (CSubWrpCommandArgs args 2) st
    else Some st
  else Some st.

(** The states the console command leads to from the start of the
    program. *)
Inductive console_reachable : Calcs -> Prop :=
| console_start : console_reachable Calcs_empty
| console_command (args : IWrpCommandArgs) (st st' : Calcs) :
    console_reachable st -> mirv_calcs args st = Some st' -> console_reachable st'.

End Console.

(** ** The end of the program *)

(** The destructor of a registry, [~CMirvHandleCalcs] and the like:
    [Release] on every calc of [m_Calcs], in the order of the list; the
    list goes with the registry. *)
Definition CMirvCalcs_destroy (fuel : nat) (fam : CalcFamily) (st : Calcs)
  : option Calcs :=
  match release_all fuel (m_Calcs st fam) (Some (free_store st)) with
  | Some h =>
    Some {| free_store := h;
            m_Calcs := fun f => if decide (f = fam) then [] else m_Calcs st f |}
  | None => None
  end.

(** The four registries [g_MirvHandleCalcs], [g_MirvVecAngCalcs],
    [g_MirvCamCalcs] and [g_MirvFovCalcs] are destroyed in the reverse
    order of their definitions. *)
Definition program_exit (fuel : nat) (st : Calcs) : option Calcs :=
  st1 ← CMirvCalcs_destroy fuel FovCalcs st;
  st2 ← CMirvCalcs_destroy fuel CamCalcs st1;
  st3 ← CMirvCalcs_destroy fuel VecAngCalcs st2;
  CMirvCalcs_destroy fuel HandleCalcs st3.

(** ** What the console keeps *)

(** What the console commands keep: the state is reachable, and every
    calc is registered. *)
Definition console_invariant (st : Calcs) : Prop :=
  reachable st /\ all_registered st.


(** ** A console session for the examples *)

(** Stand-ins for the parameters: every number reads as 5 and as 0, and
    the sub-arguments are the arguments from [offset] on behind the
    argument 0. *)
Definition example_atoi (s : string) : Z := 5.
Definition example_atof (s : string) : R := 0.
Definition example_sub_args (args : IWrpCommandArgs) (offset : Z) : IWrpCommandArgs :=
  MkArgs (ArgC args - offset + 1)
    (fun i => if (i =? 0)%Z then ArgV args 0 else ArgV args (i + offset - 1)).

Definition example_args (l : list string) : IWrpCommandArgs :=
  MkArgs (Z.of_nat (length l)) (fun i => nth (Z.to_nat i) l EmptyString).

(** The registries after [mirv_calcs handle add value h1 5] and
    [mirv_calcs vecAng add handle v1 h1]. *)
Definition Calcs_v1 : Calcs :=
  (CMirvVecAngCalcs_NewHandleCalc (Some "v1") 1%positive Calcs_h1).2.

(* ===================================================================== *)
(** * Part II: lemmas and theorems                                        *)
(* ===================================================================== *)

(** ** The trajectory smoother *)





(** ** The trajectory smoother in binary64 arithmetic *)


(** From a state the body of the loop maps to itself, with time left,
    the loop does not end. *)
Lemma Binary64_CalcSmooth_stalls
  (AFX_MATH_EPS : float) (fuel : nat)
  (deltaT targetPos lastPos lastVel LimitVelocity LimitAcceleration : float) :
  PrimFloat.leb deltaT 0 = false -> PrimFloat.ltb 0 deltaT = true ->
  Binary64.CalcSmooth_body AFX_MATH_EPS targetPos LimitVelocity LimitAcceleration
    (Binary64.MkSmoothVars deltaT lastPos lastVel)
  = Binary64.MkSmoothVars deltaT lastPos lastVel ->
  Binary64.CalcSmooth AFX_MATH_EPS fuel deltaT targetPos lastPos lastVel
    LimitVelocity LimitAcceleration
  = None.
Proof.
  intros H0 H1 Hfix. unfold Binary64.CalcSmooth. rewrite H0.
  assert (E : Binary64.CalcSmooth_while AFX_MATH_EPS fuel targetPos LimitVelocity
                LimitAcceleration (Binary64.MkSmoothVars deltaT lastPos lastVel) = None).
  { induction fuel as [|k IH]; cbn [Binary64.CalcSmooth_while Binary64.v_deltaT];
      rewrite H1; [reflexivity|]. rewrite Hfix. exact IH. }
  rewrite E. reflexivity.
Qed.



(** C4.  [CalcSmooth] does not return on every input.  With the velocity
    one unit in the last place above [LimitVelocity] 1 and
    [LimitAcceleration] 1.7e308, the phase time
    [(LimitVelocity - lastVel) / -LimitAcceleration] of the corrective
    branch underflows to 0: position, velocity and [deltaT] stay as they
    are and the loop goes on for ever, whatever [AFX_MATH_EPS] is.  With
    the limits of the smooth calc, 6000 and 6000, the same happens in the
    normal branch for the smallest positive velocity pointing away from a
    target at distance 1: [dir] follows the velocity, [phase3T]
    underflows to 0 and the other phases stay 0; the snap does not apply
    unless [1 <= AFX_MATH_EPS]. *)
Theorem CalcSmooth_does_not_return :
  (forall (AFX_MATH_EPS : float) (fuel : nat),
     Binary64.CalcSmooth AFX_MATH_EPS fuel 1 1 0 0x1.0000000000001p+0
       1 0x1.e42d130773b76p+1023 = None)
  /\ (forall (AFX_MATH_EPS : float) (fuel : nat),
        PrimFloat.leb 1 AFX_MATH_EPS = false ->
        Binary64.CalcSmooth AFX_MATH_EPS fuel 1 (-1) 0 0x0.0000000000001p-1022
          6000 6000 = None).
Proof.
  split.
  - intros eps fuel. apply Binary64_CalcSmooth_stalls; reflexivity.
  - intros eps fuel Heps. apply Binary64_CalcSmooth_stalls; try reflexivity.
    vm_compute. vm_compute in Heps. rewrite Heps. reflexivity.
Qed.

(** ** [fmod] and the re-aiming of angles *)

Lemma Rtrunc_nonneg (r : R) : 0 <= r -> IZR (Rtrunc r) <= r < IZR (Rtrunc r) + 1.
Proof.
  intros Hr. unfold Rtrunc. destruct (Rle_dec 0 r) as [_|]; [|lra].
  destruct (base_Int_part r). lra.
Qed.

Lemma Rtrunc_neg (r : R) : r < 0 -> IZR (Rtrunc r) - 1 < r <= IZR (Rtrunc r).
Proof.
  intros Hr. unfold Rtrunc. destruct (Rle_dec 0 r) as [|_]; [lra|].
  destruct (base_Int_part (- r)). rewrite opp_IZR. lra.
Qed.

Lemma Rtrunc_small (r : R) : -1 < r < 1 -> Rtrunc r = 0%Z.
Proof.
  intros Hr. destruct (Rle_dec 0 r) as [H0|H0].
  - pose proof (Rtrunc_nonneg r H0) as [H1 H2].
    assert (-1 < IZR (Rtrunc r) < 1) as [Ha Hb] by lra.
    apply lt_IZR in Ha, Hb. lia.
  - pose proof (Rtrunc_neg r ltac:(lra)) as [H1 H2].
    assert (-1 < IZR (Rtrunc r) < 1) as [Ha Hb] by lra.
    apply lt_IZR in Ha, Hb. lia.
Qed.

Lemma Rtrunc_unique_nonneg (r : R) (z : Z) : 0 <= r -> IZR z <= r < IZR z + 1 -> Rtrunc r = z.
Proof.
  intros Hr [H1 H2]. pose proof (Rtrunc_nonneg r Hr) as [H3 H4].
  assert (IZR (Rtrunc r) < IZR z + 1) as Ha by lra.
  assert (IZR z < IZR (Rtrunc r) + 1) as Hb by lra.
  rewrite <- plus_IZR in Ha, Hb. apply lt_IZR in Ha, Hb. lia.
Qed.

(** For a non-negative dividend the result lies in [[0, y)]. *)
Lemma fmod_nonneg (x y : R) : 0 <= x -> 0 < y -> 0 <= fmod x y < y.
Proof.
  intros Hx Hy. unfold fmod.
  assert (Hq : 0 <= x / y) by (apply Rmult_le_pos; [lra | left; apply Rinv_0_lt_compat; lra]).
  pose proof (Rtrunc_nonneg (x / y) Hq) as [H1 H2].
  assert (Hxy : x = x / y * y) by (field; lra).
  split; nra.
Qed.

(** For a negative dividend the result lies in [(-y, 0]]: [fmod] keeps the
    sign of its first argument. *)
Lemma fmod_neg (x y : R) : x < 0 -> 0 < y -> - y < fmod x y <= 0.
Proof.
  intros Hx Hy. unfold fmod.
  assert (Hq : x / y < 0).
  { unfold Rdiv. assert (0 < / y) by (apply Rinv_0_lt_compat; lra). nra. }
  pose proof (Rtrunc_neg (x / y) Hq) as [H1 H2].
  assert (Hxy : x = x / y * y) by (field; lra).
  split; nra.
Qed.

Lemma fmod_small (x y : R) : 0 < y -> - y < x < y -> fmod x y = x.
Proof.
  intros Hy Hx. unfold fmod. rewrite Rtrunc_small; [simpl; ring|].
  assert (0 < / y) by (apply Rinv_0_lt_compat; lra).
  assert (Hxy : x = x / y * y) by (field; lra).
  split; nra.
Qed.

(** The re-aimed angle differs from the angle by a multiple of 360. *)
Lemma reaim_congruent (d : R) : exists k : Z, reaim d = d - 360 * IZR k.
Proof. unfold reaim, fmod. exists (Rtrunc ((d + 180) / 360)). ring. Qed.

(** From -180 upwards the re-aimed angle lies in [[-180, 180)]. *)
Lemma reaim_in_range (d : R) : -180 <= d -> -180 <= reaim d < 180.
Proof.
  intros Hd. unfold reaim.
  pose proof (fmod_nonneg (d + 180) 360 ltac:(lra) ltac:(lra)). lra.
Qed.

(** Below -180 the re-aimed angle stays below -180. *)
Lemma reaim_below_range (d : R) : d < -180 -> -540 < reaim d <= -180.
Proof.
  intros Hd. unfold reaim.
  pose proof (fmod_neg (d + 180) 360 ltac:(lra) ltac:(lra)). lra.
Qed.

Lemma reaim_unchanged (d : R) : -540 < d < 180 -> reaim d = d.
Proof. intros Hd. unfold reaim. rewrite fmod_small by lra. ring. Qed.

(** A change of +350 degrees is re-aimed to -10 degrees. *)
Lemma reaim_350 : reaim 350 = -10.
Proof.
  unfold reaim, fmod.
  rewrite (Rtrunc_unique_nonneg ((350 + 180) / 360) 1); [simpl; lra | lra | simpl; lra].
Qed.

(** C1.  The re-aiming of a rotation channel in the smooth calc is meant
    to bring the angular delta into [[-180, 180)], but [fmod] keeps the
    sign of its argument: with the last pitch at 170 and the parent's
    pitch at -170 the delta -340 is left as it is, outside of
    [[-180, 180)], and the smoother is aimed at -170 through 340 degrees
    instead of 20. *)
Theorem reaim_long_way_round :
  reaim (-170 - 170) = -340
  /\ ~ (-180 <= reaim (-170 - 170) < 180)
  /\ 170 + reaim (-170 - 170) = -170.
Proof.
  assert (E : reaim (-170 - 170) = -340) by (rewrite reaim_unchanged; lra).
  rewrite E. repeat split; lra.
Qed.

Open Scope nat_scope.

(** ** Names *)

Lemma _stricmp_zero_iff (a b : string) :
  _stricmp a b = 0%Z <-> string_lower a = string_lower b.
Proof.
  revert b. induction a as [|x a IH]; intros [|y b];
    try (cbn; split; congruence).
  change (_stricmp (String x a) (String y b))
    with (if (nat_of_ascii (tolower x) <? nat_of_ascii (tolower y))%nat then (-1)%Z
          else if (nat_of_ascii (tolower y) <? nat_of_ascii (tolower x))%nat then 1%Z
          else _stricmp a b).
  change (string_lower (String x a)) with (String (tolower x) (string_lower a)).
  change (string_lower (String y b)) with (String (tolower y) (string_lower b)).
  destruct (Nat.ltb_spec (nat_of_ascii (tolower x)) (nat_of_ascii (tolower y))) as [Hlt|Hge].
  { split; [discriminate|]. intros [= E _]. rewrite E in Hlt. lia. }
  destruct (Nat.ltb_spec (nat_of_ascii (tolower y)) (nat_of_ascii (tolower x))) as [Hlt|Hle].
  { split; [discriminate|]. intros [= E _]. rewrite E in Hlt. lia. }
  assert (E : tolower x = tolower y).
  { rewrite <- (ascii_nat_embedding (tolower x)), <- (ascii_nat_embedding (tolower y)).
    f_equal. lia. }
  rewrite IH, E. split; [intros ->; reflexivity | intros [= ->]; reflexivity].
Qed.

Lemma _stricmp_refl (a : string) : _stricmp a a = 0%Z.
Proof. apply _stricmp_zero_iff. reflexivity. Qed.

(** ** Registries *)

Lemma GetIteratorByName_Some name h calcs it p :
  GetIteratorByName name h calcs = Some (it, p) <->
  calcs !! it = Some p
  /\ string_lower name = string_lower (GetName p h)
  /\ (forall j q, calcs !! j = Some q -> (j < it)%nat ->
        string_lower name <> string_lower (GetName q h)).
Proof.
  unfold GetIteratorByName. rewrite list_find_Some.
  setoid_rewrite <- _stricmp_zero_iff.
  split; intros (H1 & H2 & H3); repeat split; try congruence; auto.
  - intros j q Hj Hlt E. apply (H3 j q Hj Hlt). congruence.
  - intros j q Hj Hlt E. apply (H3 j q Hj Hlt). congruence.
Qed.

Lemma GetIteratorByName_None name h calcs :
  GetIteratorByName name h calcs = None <->
  forall p, p ∈ calcs -> string_lower name <> string_lower (GetName p h).
Proof.
  unfold GetIteratorByName. rewrite list_find_None, Forall_forall.
  setoid_rewrite <- _stricmp_zero_iff.
  split; intros H p Hp; specialize (H p Hp); congruence.
Qed.

Lemma GetByName_None name h calcs :
  GetByName name h calcs = None <->
  forall p, p ∈ calcs -> string_lower name <> string_lower (GetName p h).
Proof.
  rewrite <- GetIteratorByName_None. unfold GetByName.
  destruct (GetIteratorByName name h calcs) as [[it p]|]; split; congruence.
Qed.

(** The name rule checked by [Console_CheckName]. *)
Lemma Console_CheckName_true name h calcs :
  (Console_CheckName name h calcs).1 = true <->
  exists n, name = Some n
    /\ isalpha (first_char n) = true
    /\ StringIsAlNum n = true
    /\ forall p, p ∈ calcs -> string_lower n <> string_lower (GetName p h).
Proof.
  unfold Console_CheckName. destruct name as [n|]; cbn.
  2:{ split; [discriminate | intros (n & [=] & _)]. }
  destruct (isalpha (first_char n)) eqn:E1; cbn.
  2:{ split; [discriminate | intros (n' & [= <-] & ? & _); congruence]. }
  destruct (StringIsAlNum n) eqn:E2; cbn.
  2:{ split; [discriminate | intros (n' & [= <-] & ? & ? & _); congruence]. }
  destruct (GetByName n h calcs) eqn:E3; cbn.
  - split; [discriminate|]. intros (n' & [= <-] & _ & _ & H).
    apply (proj2 (GetByName_None _ _ _)) in H. congruence.
  - pose proof (proj1 (GetByName_None _ _ _) E3) as H3. split; [|reflexivity].
    intros _. exists n. auto.
Qed.

Lemma StringIsAlNum_spec (n : string) :
  StringIsAlNum n = true <->
  forall c, In c (list_ascii_of_string n) -> isalpha c = true \/ isdigit c = true.
Proof.
  induction n as [|c n IH]; cbn.
  - split; [intros _ c [] | reflexivity].
  - rewrite andb_true_iff, IH. unfold isalnum. rewrite orb_true_iff.
    split.
    + intros [Hc Hn] c' [<-|Hin]; auto.
    + intros Hall. split; [apply Hall; left; reflexivity|].
      intros c' Hin. apply Hall. right. exact Hin.
Qed.

(** ** Reference counts *)

Lemma alive_le_size (h : gmap addr CMirvCalc) : alive h <= size h.
Proof. apply map_subseteq_size, map_filter_subseteq. Qed.

Lemma alive_delete (p : addr) (h : gmap addr CMirvCalc) : alive (delete p h) <= alive h.
Proof.
  unfold alive. rewrite map_filter_delete. rewrite map_size_delete.
  destruct (filter _ h !! p); simpl; lia.
Qed.

Lemma alive_insert (p : addr) (c c' : CMirvCalc) (h : gmap addr CMirvCalc) :
  h !! p = Some c ->
  alive (<[p := c']> h) =
    (alive h
     + (if decide (1 <= m_RefCount c')%Z then 1 else 0)
     - (if decide (1 <= m_RefCount c)%Z then 1 else 0))%nat
  /\ ((1 <= m_RefCount c)%Z -> 1 <= alive h).
Proof.
  intros Hp. unfold alive.
  set (P := fun pc : addr * CMirvCalc => (1 <= m_RefCount pc.2)%Z).
  assert (Hold : filter P h !! p = if decide (1 <= m_RefCount c)%Z then Some c else None).
  { destruct (decide (1 <= m_RefCount c)%Z) as [Hc|Hc].
    - apply map_lookup_filter_Some. auto.
    - apply map_lookup_filter_None. right. intros c0 Hc0. rewrite Hp in Hc0.
      injection Hc0 as <-. exact Hc. }
  split.
  - rewrite map_filter_insert. destruct (decide (P (p, c'))) as [Hc'|Hc'];
      unfold P in Hc'; cbn in Hc'.
    + rewrite decide_True by exact Hc'. rewrite map_size_insert, Hold.
      destruct (decide (1 <= m_RefCount c)%Z); simpl; [|lia].
      assert (size (filter P h) <> 0).
      { apply map_size_ne_0_lookup. exists p. rewrite Hold. eauto. }
      lia.
    + rewrite decide_False by exact Hc'. rewrite map_filter_delete, map_size_delete, Hold.
      destruct (decide (1 <= m_RefCount c)%Z); simpl; lia.
  - intros Hc. rewrite decide_True in Hold by exact Hc.
    assert (size (filter P h) <> 0); [|lia].
    apply map_size_ne_0_lookup. exists p. rewrite Hold. eauto.
Qed.

Lemma release_all_enough (fuel : nat) :
  (forall p h, alive h < fuel -> exists h', Release fuel p h = Some h' /\ alive h' <= alive h) ->
  forall ops h, alive h < fuel ->
    exists h', release_all fuel ops (Some h) = Some h' /\ alive h' <= alive h.
Proof.
  intros IH ops. induction ops as [|q ops IHops]; intros h Hh; cbn.
  - exists h. auto.
  - destruct (IH q h Hh) as (h1 & -> & H1).
    destruct (IHops h1) as (h2 & E & H2); [lia|].
    exists h2. split; [exact E | lia].
Qed.

(** [Release] returns whenever its fuel exceeds the number of objects
    with a positive reference count. *)
Lemma Release_enough (fuel : nat) (p : addr) (h : gmap addr CMirvCalc) :
  alive h < fuel -> exists h', Release fuel p h = Some h' /\ alive h' <= alive h.
Proof.
  revert p h. induction fuel as [|k IH]; intros p h Hfuel; [lia|].
  cbn [Release]. destruct (h !! p) as [c|] eqn:Hp; [|exists h; auto].
  destruct (alive_insert p c (MkCalc (m_Name c) (m_RefCount c - 1) (m_Kind c)) h Hp)
    as [Halive Hpos].
  cbn [m_RefCount] in Halive.
  set (h1 := <[p := _]> h) in *.
  destruct (decide (0 = m_RefCount c - 1)%Z) as [Hz|Hz].
  - assert (Hc : (1 <= m_RefCount c)%Z) by lia. specialize (Hpos Hc).
    rewrite decide_False in Halive by lia. rewrite decide_True in Halive by lia.
    destruct (release_all_enough k IH (rev (operands (m_Kind c))) h1)
      as (h2 & E & H2); [lia|].
    unfold release_all in E. rewrite E.
    exists (delete p h2). split; [reflexivity|].
    pose proof (alive_delete p h2). lia.
  - exists h1. split; [reflexivity|].
    rewrite Halive.
    destruct (decide (1 <= m_RefCount c - 1)%Z), (decide (1 <= m_RefCount c)%Z); lia.
Qed.

Lemma Release_total (p : addr) (h : gmap addr CMirvCalc) :
  is_Some (Release (S (size h)) p h).
Proof.
  destruct (Release_enough (S (size h)) p h) as (h' & -> & _); [|eauto].
  pose proof (alive_le_size h). lia.
Qed.

Lemma AddRef_lookup_ne (p q : addr) (h : gmap addr CMirvCalc) :
  p <> q -> AddRef q h !! p = h !! p.
Proof. intros Hne. unfold AddRef. apply lookup_alter_ne. congruence. Qed.

Lemma AddRef_lookup_eq (p : addr) (c : CMirvCalc) (h : gmap addr CMirvCalc) :
  h !! p = Some c ->
  AddRef p h !! p = Some (MkCalc (m_Name c) (m_RefCount c + 1) (m_Kind c)).
Proof. intros Hp. unfold AddRef. rewrite lookup_alter_eq, Hp. reflexivity. Qed.

Lemma AddRef_all_lookup_ne (p : addr) (ops : list addr) (h : gmap addr CMirvCalc) :
  p ∉ ops -> foldl (fun h' q => AddRef q h') h ops !! p = h !! p.
Proof.
  revert h. induction ops as [|q ops IH]; intros h Hp; cbn; [reflexivity|].
  rewrite IH by set_solver. apply AddRef_lookup_ne. set_solver.
Qed.

(** The last reference: [Release] frees the object. *)
Lemma Release_deletes (p : addr) (c : CMirvCalc) (h : gmap addr CMirvCalc) :
  h !! p = Some c -> m_RefCount c = 1%Z ->
  exists h', Release (S (size h)) p h = Some h' /\ h' !! p = None.
Proof.
  intros Hp Hrc. destruct (Release_total p h) as [h' E]. exists h'. split; [exact E|].
  cbn [Release] in E. rewrite Hp in E. rewrite decide_True in E by lia.
  destruct (foldl _ _ _) as [h2|]; [|discriminate].
  injection E as <-. apply lookup_delete_eq.
Qed.

(** What [new C(name, ...)] leaves on the free store at the new address. *)
Lemma construct_spec (name : option string) (k : CalcKind) (h : gmap addr CMirvCalc) :
  (forall q, q ∈ operands k -> is_Some (h !! q)) ->
  exists p h', construct name k h = (p, h')
    /\ h !! p = None
    /\ h' !! p = Some (CMirvCalc_new name k).
Proof.
  intros Hops. unfold construct. do 2 eexists. split; [reflexivity|].
  assert (Hfresh : h !! fresh (dom h) = None).
  { apply not_elem_of_dom, is_fresh. }
  split; [exact Hfresh|].
  rewrite AddRef_all_lookup_ne.
  - apply lookup_insert_eq.
  - intros Hin. apply Hops in Hin. rewrite Hfresh in Hin. destruct Hin; discriminate.
Qed.

Lemma NewCalc_rejected (fam : CalcFamily) (n : string) (k : CalcKind) (st : Calcs) :
  (Console_CheckName (Some n) (free_store st) (m_Calcs st fam)).1 = false ->
  NewCalc fam (Some n) k st = (None, st).
Proof.
  intros H. unfold NewCalc. rewrite H.
  rewrite bool_decide_eq_true_2 by eauto. reflexivity.
Qed.

Lemma NewCalc_accepted (fam : CalcFamily) (name : option string) (k : CalcKind) (st : Calcs) :
  name = None \/ (Console_CheckName name (free_store st) (m_Calcs st fam)).1 = true ->
  NewCalc fam name k st =
    let '(result, h) := construct name k (free_store st) in
    match name with
    | Some _ =>
      (Some result,
       {| free_store := AddRef result h;
          m_Calcs := fun f =>
            if decide (f = fam) then m_Calcs st f ++ [result] else m_Calcs st f |})
    | None => (Some result, {| free_store := h; m_Calcs := m_Calcs st |})
    end.
Proof.
  intros [->|H]; unfold NewCalc.
  - rewrite bool_decide_eq_false_2 by (intros [? ?]; discriminate). reflexivity.
  - rewrite H. rewrite andb_false_r. reflexivity.
Qed.

(** C7.  In the registry of every family, creating a calc under a
    (non-null) name succeeds iff the name is non-empty, its first
    character is an ASCII letter, all its characters are ASCII letters or
    digits, and no calc of that registry has a name equal to it up to
    case.  Otherwise the factory returns the null pointer and the state
    is unchanged: no calc is created, no registry changed.  The registries
    of the other families have no part in the decision. *)
Theorem NewCalc_name_rule (fam : CalcFamily) (n : string) (k : CalcKind) (st : Calcs) :
  (is_Some (NewCalc fam (Some n) k st).1 <->
     n <> EmptyString
     /\ isalpha (first_char n) = true
     /\ (forall c, In c (list_ascii_of_string n) -> isalpha c = true \/ isdigit c = true)
     /\ (forall p, p ∈ m_Calcs st fam ->
           string_lower (GetName p (free_store st)) <> string_lower n))
  /\ ((NewCalc fam (Some n) k st).1 = None -> (NewCalc fam (Some n) k st).2 = st)
  /\ (forall st2 : Calcs,
        free_store st2 = free_store st -> m_Calcs st2 fam = m_Calcs st fam ->
        (NewCalc fam (Some n) k st2).1 = (NewCalc fam (Some n) k st).1).
Proof.
  destruct (Console_CheckName (Some n) (free_store st) (m_Calcs st fam)).1 eqn:Hck.
  - pose proof (NewCalc_accepted fam (Some n) k st (or_intror Hck)) as E.
    destruct (construct (Some n) k (free_store st)) as [p h] eqn:Ec.
    rewrite E. cbn [fst snd].
    apply Console_CheckName_true in Hck.
    destruct Hck as (n' & [= <-] & H1 & H2 & H3).
    split; [|split].
    + split; [intros _ | eauto].
      repeat split.
      * intros ->. discriminate.
      * exact H1.
      * apply StringIsAlNum_spec, H2.
      * intros q Hq Heq. apply (H3 q Hq). congruence.
    + discriminate.
    + intros st2 Hh Hl.
      assert (Hck2 : (Console_CheckName (Some n) (free_store st2) (m_Calcs st2 fam)).1 = true).
      { apply Console_CheckName_true. exists n. rewrite Hh, Hl. auto. }
      rewrite (NewCalc_accepted fam (Some n) k st2 (or_intror Hck2)).
      rewrite Hh, Ec. reflexivity.
  - rewrite (NewCalc_rejected fam n k st Hck). cbn [fst snd].
    split; [|split].
    + split; [intros [? [=]]|].
      intros (_ & H1 & H2 & H3). exfalso.
      assert ((Console_CheckName (Some n) (free_store st) (m_Calcs st fam)).1 = true);
        [|congruence].
      apply Console_CheckName_true. exists n. repeat split; auto.
      * apply StringIsAlNum_spec, H2.
      * intros q Hq Heq. apply (H3 q Hq). congruence.
    + reflexivity.
    + intros st2 Hh Hl. apply (f_equal fst (y := (None, st2))).
      apply NewCalc_rejected. rewrite Hh, Hl. exact Hck.
Qed.

(** C10.  Every factory method, given operands that exist: with a valid
    (non-null) name it returns a new calc whose reference count is 1 and
    which is appended to the registry of its family, the other registries
    being unchanged; with the null name it returns a new calc called
    "(no name)" whose reference count is 0 and which no registry holds. *)
Theorem NewCalc_reference_count
  (fam : CalcFamily) (name : option string) (k : CalcKind) (st : Calcs) :
  (forall q, q ∈ operands k -> is_Some (free_store st !! q)) ->
  name = None \/ (Console_CheckName name (free_store st) (m_Calcs st fam)).1 = true ->
  exists p st',
    NewCalc fam name k st = (Some p, st')
    /\ free_store st !! p = None
    /\ match name with
       | Some n =>
         free_store st' !! p = Some (MkCalc n 1 k)
         /\ GetRefCount p (free_store st') = 1%Z
         /\ m_Calcs st' fam = m_Calcs st fam ++ [p]
         /\ (forall f, f <> fam -> m_Calcs st' f = m_Calcs st f)
       | None =>
         free_store st' !! p = Some (MkCalc "(no name)" 0 k)
         /\ GetRefCount p (free_store st') = 0%Z
         /\ (forall f, m_Calcs st' f = m_Calcs st f)
         /\ (forall f, (forall q, q ∈ m_Calcs st f -> is_Some (free_store st !! q)) ->
               p ∉ m_Calcs st' f)
         /\ (forall fuel,
               Release (S fuel) p (free_store st')
               = Some (<[p := MkCalc "(no name)" (-1) k]> (free_store st')))
         /\ (exists h,
               Release (S (size (AddRef p (free_store st')))) p (AddRef p (free_store st'))
               = Some h
               /\ h !! p = None)
       end.
Proof.
  intros Hops Hname.
  rewrite (NewCalc_accepted fam name k st Hname).
  destruct (construct_spec name k (free_store st) Hops) as (p & h & -> & Hnew & Hp).
  destruct name as [n|]; do 2 eexists; (split; [reflexivity|]); (split; [exact Hnew|]);
    cbn [free_store m_Calcs].
  - assert (E : AddRef p h !! p = Some (MkCalc n 1 k)).
    { rewrite (AddRef_lookup_eq p _ h Hp). reflexivity. }
    repeat split.
    + exact E.
    + unfold GetRefCount. rewrite E. reflexivity.
    + rewrite decide_True by reflexivity. reflexivity.
    + intros f Hf. rewrite decide_False by exact Hf. reflexivity.
  - split; [exact Hp|]. split; [unfold GetRefCount; rewrite Hp; reflexivity|].
    split; [reflexivity|]. split; [|split].
    + intros f Hlive Hin. apply Hlive in Hin. rewrite Hnew in Hin.
      destruct Hin; discriminate.
    + intros fuel. cbn [Release]. rewrite Hp. cbn [m_RefCount m_Name m_Kind CMirvCalc_new].
      rewrite decide_False by lia. reflexivity.
    + apply (Release_deletes p (MkCalc "(no name)" 1 k)); [|reflexivity].
      rewrite (AddRef_lookup_eq p _ h Hp). reflexivity.
Qed.

(** C8.  [Console_Remove] removes a calc iff the registry holds a calc
    named [name] up to case and the reference count of the first such
    calc is exactly 1; it then releases that calc and erases it from the
    list.  In every other case it prints one warning and leaves the
    state, registry and calcs alike, unchanged. *)
Theorem Console_Remove_rule (fam : CalcFamily) (name : string) (st : Calcs) :
  let found (it : nat) (p : addr) :=
    m_Calcs st fam !! it = Some p
    /\ string_lower name = string_lower (GetName p (free_store st))
    /\ (forall j q, m_Calcs st fam !! j = Some q -> j < it ->
          string_lower name <> string_lower (GetName q (free_store st))) in
  ((exists st', Console_Remove fam name st = Some (st', [])) <->
     exists it p, found it p /\ GetRefCount p (free_store st) = 1%Z)
  /\ (forall it p, found it p -> GetRefCount p (free_store st) = 1%Z ->
        exists h, Release (S (size (free_store st))) p (free_store st) = Some h
          /\ Console_Remove fam name st =
               Some ({| free_store := h;
                        m_Calcs := fun f =>
                          if decide (f = fam) then delete it (m_Calcs st f)
                          else m_Calcs st f |}, []))
  /\ (~ (exists it p, found it p /\ GetRefCount p (free_store st) = 1%Z) ->
        exists warning, Console_Remove fam name st = Some (st, [warning])).
Proof.
  intros found.
  assert (Hfound : forall it p, found it p <->
            GetIteratorByName name (free_store st) (m_Calcs st fam) = Some (it, p)).
  { intros it p. symmetry. apply GetIteratorByName_Some. }
  unfold Console_Remove.
  destruct (GetIteratorByName name (free_store st) (m_Calcs st fam)) as [[it p]|] eqn:Eit.
  - destruct (decide (1 = GetRefCount p (free_store st))%Z) as [Hrc|Hrc].
    + destruct (Release_total p (free_store st)) as [h Eh]. rewrite Eh.
      split; [|split].
      * split; [|eauto]. intros _. exists it, p. split; [apply Hfound; reflexivity | lia].
      * intros it' p' Hf' _. apply Hfound in Hf'. injection Hf' as <- <-.
        exists h. rewrite Eh. auto.
      * intros Hno. exfalso. apply Hno. exists it, p.
        split; [apply Hfound; reflexivity | lia].
    + split; [|split].
      * split; [intros (? & [=]) |].
        intros (it' & p' & Hf' & Hrc'). apply Hfound in Hf'. injection Hf' as <- <-. lia.
      * intros it' p' Hf' Hrc'. apply Hfound in Hf'. injection Hf' as <- <-. lia.
      * intros _. eauto.
  - split; [|split].
    + split; [intros (? & [=]) |].
      intros (it' & p' & Hf' & _). apply Hfound in Hf'. discriminate.
    + intros it' p' Hf' _. apply Hfound in Hf'. discriminate.
    + intros _. eauto.
Qed.

Open Scope R_scope.

(** ** Evaluation of calcs *)

Section Calcs.

Context {sdk : SourceSdk} {math : AfxMath} {S : Type}.
Variable AFX_MATH_EPS : R.
Variable absoluteframetime_get : S -> R.

Local Abbreviation Smooth_CalcVecAng :=
  (CMirvVecAngSmoothCalc_CalcVecAng (S := S) AFX_MATH_EPS absoluteframetime_get).
Local Abbreviation update := (CMirvVecAngSmoothCalc_update AFX_MATH_EPS).

Lemma Vector_eta (v : Vector) : MkVector (vec_x v) (vec_y v) (vec_z v) = v.
Proof. destruct v; reflexivity. Qed.

Lemma QAngle_eta (a : QAngle) : MkQAngle (ang_x a) (ang_y a) (ang_z a) = a.
Proof. destruct a; reflexivity. Qed.

Lemma offset_along_zero (v : Vector) (axes : (R * R * R) * (R * R * R) * (R * R * R)) :
  offset_along v (MkVector 0 0 0) axes = v.
Proof.
  destruct v as [x y z], axes as [[[[f0 f1] f2] [[r0 r1] r2]] [[u0 u1] u2]].
  unfold offset_along; cbn. f_equal; ring.
Qed.

(** The offset calc with the zero pose as offset, as far as
    [MirvCalcs.cpp] decides it: the legacy mode returns the pose of the
    parent; the current mode returns the position of the parent and, for
    the angles, what the conversions of [shared/AfxMath.h] give for the
    angles of the parent composed with the zero rotation. *)
Lemma Offset_zero_offset
  (m_Parent m_Offset : IMirvVecAngCalc) (m_LegacyMethod : bool)
  (s s1 s2 : S) (parentVector : Vector) (parentAngles : QAngle) :
  m_Parent s = (Some (parentVector, parentAngles), s1) ->
  m_Offset s1 = (Some (MkVector 0 0 0, MkQAngle 0 0 0), s2) ->
  CMirvVecAngOffsetCalc_CalcVecAng m_Parent m_Offset m_LegacyMethod s
  = (Some (parentVector,
           if m_LegacyMethod then parentAngles
           else compose_angles parentAngles (MkQAngle 0 0 0)),
     s2).
Proof.
  intros Hp Ho.
  unfold CMirvVecAngOffsetCalc_CalcVecAng, Eval_bind, Eval_ret.
  rewrite Hp, Ho. destruct m_LegacyMethod; cbn [vec_x vec_y vec_z ang_x ang_y ang_z].
  - rewrite !bool_decide_eq_false_2 by (intros Hne; apply Hne; reflexivity).
    reflexivity.
  - rewrite offset_along_zero. reflexivity.
Qed.

(** The result of evaluating the two operands of the smooth calc. *)
Lemma Smooth_CalcVecAng_unfold
  (fuel : nat) (m_Parent : IMirvVecAngCalc) (m_TrackHandle : IMirvHandleCalc)
  (this : CMirvVecAngSmoothCalc) (s : S) :
  Smooth_CalcVecAng fuel m_Parent m_TrackHandle this s =
    (update fuel (absoluteframetime_get (m_TrackHandle (m_Parent s).2).2)
       (m_Parent s).1 (m_TrackHandle (m_Parent s).2).1 this,
     (m_TrackHandle (m_Parent s).2).2).
Proof.
  unfold CMirvVecAngSmoothCalc_CalcVecAng, Eval_bind.
  destruct (m_Parent s) as [cp s1]. cbn [fst snd].
  destruct (m_TrackHandle s1) as [ch s2]. reflexivity.
Qed.

(** C5, as amended.  The composite calcs other than Or, If and Smooth
    evaluate their operands in the order of the constructor and fail as
    soon as one fails: the offset calc does not evaluate its offset after
    a failed parent, and the calcs with a single operand fail (the Bool
    calcs return false) when it fails.  The smooth calc evaluates its
    parent and then its track handle, whatever the parent returned, and
    fails when one of the two failed. *)
Theorem composite_calcs_short_circuit :
  (* the offset calc: the offset is not evaluated after a failed parent,
     and a failed offset makes the calc fail *)
  (forall (m_Parent m_Offset : IMirvVecAngCalc) (m_LegacyMethod : bool) (s : S),
     (m_Parent s).1 = None ->
     CMirvVecAngOffsetCalc_CalcVecAng m_Parent m_Offset m_LegacyMethod s
     = (None, (m_Parent s).2))
  /\ (forall (m_Parent m_Offset : IMirvVecAngCalc) (m_LegacyMethod : bool) (s : S),
        (m_Offset (m_Parent s).2).1 = None ->
        (CMirvVecAngOffsetCalc_CalcVecAng m_Parent m_Offset m_LegacyMethod s).1 = None)
  (* the calcs with one operand fail when it fails *)
  /\ (forall (m_ParentCalc : IMirvHandleCalc) (m_World : bool) (s : S),
        (m_ParentCalc s).1 = None ->
        CMirvHandleActiveWeaponCalc_CalcHandle m_ParentCalc m_World s
        = (None, (m_ParentCalc s).2))
  /\ (forall (m_ParentCalc : IMirvHandleCalc) (s : S),
        (m_ParentCalc s).1 = None ->
        CMirvHandleObserverTargetCalc_CalcHandle m_ParentCalc s
        = (None, (m_ParentCalc s).2))
  /\ (forall (m_Handle : IMirvHandleCalc) (m_EyeVec m_EyeAng : bool) (s : S),
        (m_Handle s).1 = None ->
        CMirvVecAngHandleCalcEx_CalcVecAng m_Handle m_EyeVec m_EyeAng s
        = (Done None, (m_Handle s).2))
  /\ (forall (m_Handle : IMirvHandleCalc) (m_AttachmentName : string) (s : S),
        (m_Handle s).1 = None ->
        CMirvVecAngHandleAttachmentCalc_CalcVecAng m_Handle m_AttachmentName s
        = (None, (m_Handle s).2))
  /\ (forall (m_Cam : IMirvCamCalc) (s : S),
        (m_Cam s).1 = None ->
        CMirvVecAngCamCalc_CalcVecAng m_Cam s = (None, (m_Cam s).2)
        /\ CMirvFovCamCalc_CalcFov m_Cam s = (None, (m_Cam s).2))
  /\ (forall (m_Handle : IMirvHandleCalc) (s : S),
        (m_Handle s).1 = None ->
        CMirvBoolHandleCalc_CalcBool m_Handle s = (false, (m_Handle s).2))
  /\ (forall (m_VecAng : IMirvVecAngCalc) (s : S),
        (m_VecAng s).1 = None ->
        CMirvBoolVecAngCalc_CalcBool m_VecAng s = (false, (m_VecAng s).2))
  (* the smooth calc evaluates the parent and then the track handle,
     whatever the parent returns, and fails when one of them fails *)
  /\ (forall (fuel : nat) (m_Parent : IMirvVecAngCalc) (m_TrackHandle : IMirvHandleCalc)
             (this : CMirvVecAngSmoothCalc) (s : S),
        (Smooth_CalcVecAng fuel m_Parent m_TrackHandle this s).2
        = (m_TrackHandle (m_Parent s).2).2
        /\ ((m_Parent s).1 = None \/ (m_TrackHandle (m_Parent s).2).1 = None ->
            exists this',
              (Smooth_CalcVecAng fuel m_Parent m_TrackHandle this s).1
              = Some (None, this'))).
Proof.
  repeat split.
  - intros m_Parent m_Offset legacy s Hp.
    unfold CMirvVecAngOffsetCalc_CalcVecAng, Eval_bind, Eval_ret.
    destruct (m_Parent s) as [cp s1]; cbn in *. subst cp. reflexivity.
  - intros m_Parent m_Offset legacy s Ho.
    unfold CMirvVecAngOffsetCalc_CalcVecAng, Eval_bind, Eval_ret.
    destruct (m_Parent s) as [[[pv pa]|] s1]; cbn in *; [|reflexivity].
    destruct (m_Offset s1) as [co s2]; cbn in *. subst co. reflexivity.
  - intros m_ParentCalc m_World s Hp.
    unfold CMirvHandleActiveWeaponCalc_CalcHandle, Eval_bind, Eval_ret.
    destruct (m_ParentCalc s) as [cp s1]; cbn in *. subst cp. reflexivity.
  - intros m_ParentCalc s Hp.
    unfold CMirvHandleObserverTargetCalc_CalcHandle, Eval_bind, Eval_ret.
    destruct (m_ParentCalc s) as [cp s1]; cbn in *. subst cp. reflexivity.
  - intros m_Handle m_EyeVec m_EyeAng s Hh.
    unfold CMirvVecAngHandleCalcEx_CalcVecAng, Eval_bind, Eval_ret.
    destruct (m_Handle s) as [ch s1]; cbn in *. subst ch.
    rewrite !bool_decide_eq_false_2 by (intros [? ?]; discriminate). reflexivity.
  - intros m_Handle m_AttachmentName s Hh.
    unfold CMirvVecAngHandleAttachmentCalc_CalcVecAng, Eval_bind, Eval_ret.
    destruct (m_Handle s) as [ch s1]; cbn in *. subst ch. reflexivity.
  - unfold CMirvVecAngCamCalc_CalcVecAng, Eval_bind, Eval_ret.
    destruct (m_Cam s) as [cc s1]; cbn in *. subst cc. reflexivity.
  - unfold CMirvFovCamCalc_CalcFov, Eval_bind, Eval_ret.
    destruct (m_Cam s) as [cc s1]; cbn in *. subst cc. reflexivity.
  - intros m_Handle s Hh.
    unfold CMirvBoolHandleCalc_CalcBool, Eval_bind, Eval_ret.
    destruct (m_Handle s) as [ch s1]; cbn in *. subst ch. reflexivity.
  - intros m_VecAng s Hv.
    unfold CMirvBoolVecAngCalc_CalcBool, Eval_bind, Eval_ret.
    destruct (m_VecAng s) as [cv s1]; cbn in *. subst cv. reflexivity.
  - rewrite Smooth_CalcVecAng_unfold. reflexivity.
  - intros Hfail. rewrite Smooth_CalcVecAng_unfold. cbn [fst].
    unfold CMirvVecAngSmoothCalc_update.
    destruct Hfail as [-> | ->].
    + eexists. reflexivity.
    + destruct (m_Parent s).1 as [[pv pa]|]; eexists; reflexivity.
Qed.

(** A reset: the evaluation succeeds with the flag set or a new handle. *)
Lemma Smooth_update_reset
  (fuel : nat) (deltaT : R) (parentVector : Vector) (parentAngles : QAngle)
  (handle : CBaseHandle) (this : CMirvVecAngSmoothCalc) :
  m_Reset this = true \/ m_LastHandle this <> handle ->
  update fuel deltaT (Some (parentVector, parentAngles)) (Some handle) this
  = Some (Some (parentVector, parentAngles), snapped handle parentVector parentAngles).
Proof.
  intros Hreset. unfold CMirvVecAngSmoothCalc_update.
  assert (E : m_Reset this || negb (bool_decide (m_LastHandle this = handle)) = true).
  { destruct Hreset as [-> | Hne]; [reflexivity|].
    rewrite bool_decide_eq_false_2 by exact Hne. apply orb_true_r. }
  rewrite E. rewrite Vector_eta, QAngle_eta. reflexivity.
Qed.

(** A failed evaluation sets the flag. *)
Lemma Smooth_update_failing
  (fuel : nat) (e : R * option (Vector * QAngle) * option CBaseHandle)
  (this : CMirvVecAngSmoothCalc) :
  failing e ->
  exists this', update fuel e.1.1 e.1.2 e.2 this = Some (None, this')
    /\ m_Reset this' = true.
Proof.
  destruct e as [[deltaT cp] ch]. unfold failing; cbn [fst snd]. intros Hfail.
  unfold CMirvVecAngSmoothCalc_update.
  destruct Hfail as [-> | ->].
  - eexists. split; [reflexivity|]. cbn. apply orb_true_r.
  - destruct cp as [[pv pa]|]; eexists; (split; [reflexivity|]); cbn; apply orb_true_r.
Qed.

Lemma smooth_run_failing
  (fuel : nat) (evaluations : list (R * option (Vector * QAngle) * option CBaseHandle))
  (this : CMirvVecAngSmoothCalc) :
  Forall failing evaluations ->
  exists this', smooth_run AFX_MATH_EPS fuel evaluations this = Some this'
    /\ (m_Reset this = true \/ evaluations <> [] -> m_Reset this' = true).
Proof.
  intros Hall. revert this. induction Hall as [|e rest He _ IH]; intros this.
  - exists this. split; [reflexivity|]. intros [Hr|Hne]; [exact Hr | congruence].
  - destruct (Smooth_update_failing fuel e this He) as (this1 & E1 & Hr1).
    destruct (IH this1) as (this2 & E2 & Hr2).
    exists this2. destruct e as [[deltaT cp] ch]. cbn [fst snd] in E1.
    cbn [smooth_run]. rewrite E1. split; [exact E2|]. intros _. auto.
Qed.

(** C6.  The reset of the smooth calc.  On the first successful
    evaluation of a new calc, on a successful evaluation whose handle
    differs from the last handle, and on the first successful evaluation
    that follows failed ones (in which the handle may have changed), the
    calc returns the parent's position and angles as they are, stores
    them, and sets all six velocities to zero; no call of [CalcSmooth]
    takes part, whatever the velocities, frame time and fuel are. *)
Theorem Smooth_reset_semantics
  (fuel : nat) (deltaT : R) (parentVector : Vector) (parentAngles : QAngle)
  (handle : CBaseHandle) :
  (* the first successful evaluation of a new calc *)
  (forall failed, Forall failing failed ->
     exists this,
       smooth_run AFX_MATH_EPS fuel failed CMirvVecAngSmoothCalc_new = Some this
       /\ update fuel deltaT (Some (parentVector, parentAngles)) (Some handle) this
          = Some (Some (parentVector, parentAngles),
                  snapped handle parentVector parentAngles))
  (* a successful evaluation with a handle other than the last one *)
  /\ (forall this, m_LastHandle this <> handle ->
        update fuel deltaT (Some (parentVector, parentAngles)) (Some handle) this
        = Some (Some (parentVector, parentAngles),
                snapped handle parentVector parentAngles))
  (* the first successful evaluation after failed ones, in which the
     handle may have changed *)
  /\ (forall this failed, failed <> [] -> Forall failing failed ->
        exists this',
          smooth_run AFX_MATH_EPS fuel failed this = Some this'
          /\ update fuel deltaT (Some (parentVector, parentAngles)) (Some handle) this'
             = Some (Some (parentVector, parentAngles),
                     snapped handle parentVector parentAngles))
  (* the same for [CalcVecAng] with its operands *)
  /\ (forall (m_Parent : IMirvVecAngCalc) (m_TrackHandle : IMirvHandleCalc) this (s : S),
        (m_Parent s).1 = Some (parentVector, parentAngles) ->
        (m_TrackHandle (m_Parent s).2).1 = Some handle ->
        m_Reset this = true \/ m_LastHandle this <> handle ->
        (Smooth_CalcVecAng fuel m_Parent m_TrackHandle this s).1
        = Some (Some (parentVector, parentAngles),
                snapped handle parentVector parentAngles)).
Proof.
  split; [|split; [|split]]; cycle 3.
  { intros m_Parent m_TrackHandle this s Hp Hh Hreset.
    rewrite Smooth_CalcVecAng_unfold. cbn [fst]. rewrite Hp, Hh.
    apply Smooth_update_reset, Hreset. }
  - intros failed Hall.
    destruct (smooth_run_failing fuel failed CMirvVecAngSmoothCalc_new Hall)
      as (this & E & Hr).
    exists this. split; [exact E|].
    apply Smooth_update_reset. left. apply Hr. left. reflexivity.
  - intros this Hne. apply Smooth_update_reset. right. exact Hne.
  - intros this failed Hne Hall.
    destruct (smooth_run_failing fuel failed this Hall) as (this' & E & Hr).
    exists this'. split; [exact E|].
    apply Smooth_update_reset. left. apply Hr. right. exact Hne.
Qed.

(** The or calc returns the value of its first operand if that succeeds
    and evaluates the second one only otherwise; the if calc evaluates the
    condition and the branch it selects. *)
Lemma Or_CalcVecAng_spec (m_A m_B : IMirvVecAngCalc) (s : S) :
  CMirvVecAngOrCalc_CalcVecAng m_A m_B s =
    match (m_A s).1 with
    | Some v => (Some v, (m_A s).2)
    | None => m_B (m_A s).2
    end.
Proof.
  unfold CMirvVecAngOrCalc_CalcVecAng, Eval_bind, Eval_ret.
  destruct (m_A s) as [[v|] s1]; reflexivity.
Qed.

Lemma If_CalcVecAng_spec
  (m_Condition : IMirvBoolCalc) (m_CondTrue m_CondFalse : IMirvVecAngCalc) (s : S) :
  CMirvVecAngIfCalc_CalcVecAng m_Condition m_CondTrue m_CondFalse s =
    if (m_Condition s).1 then m_CondTrue (m_Condition s).2
    else m_CondFalse (m_Condition s).2.
Proof.
  unfold CMirvVecAngIfCalc_CalcVecAng, Eval_bind.
  destruct (m_Condition s) as [[|] s1]; reflexivity.
Qed.

(** When [CMirvVecAngHandleCalcEx::CalcVecAng] calls a method through a
    null pointer: exactly when the entity has no base entity, [m_EyeVec]
    is false and [m_EyeAng] is true. *)
Lemma HandleCalcEx_null_dereference
  (m_Handle : IMirvHandleCalc) (m_EyeVec m_EyeAng : bool) (s : S) :
  (CMirvVecAngHandleCalcEx_CalcVecAng m_Handle m_EyeVec m_EyeAng s).1 = NullDereference
  <-> exists handle ce,
        (m_Handle s).1 = Some handle
        /\ GetClientEntityFromHandle handle = Some ce
        /\ GetBaseEntity ce = None
        /\ m_EyeVec = false /\ m_EyeAng = true.
Proof.
  unfold CMirvVecAngHandleCalcEx_CalcVecAng, Eval_bind, Eval_ret.
  destruct (m_Handle s) as [[handle|] s1]; cbn [fst snd].
  2:{ rewrite !bool_decide_eq_false_2 by (intros [? ?]; discriminate). cbn.
      split; [discriminate | intros (? & ? & [=] & _)]. }
  destruct (GetClientEntityFromHandle handle) as [ce|] eqn:Ece.
  2:{ rewrite !bool_decide_eq_false_2 by (intros [? ?]; discriminate). cbn.
      split; [discriminate | intros (? & ? & [= <-] & E & _); congruence]. }
  destruct (GetBaseEntity ce) as [be|] eqn:Ebe.
  - rewrite bool_decide_eq_true_2 by eauto. cbn.
    split; [destruct m_EyeVec, m_EyeAng; discriminate|].
    intros (h' & ce' & [= <-] & E & Hbe & _). congruence.
  - rewrite bool_decide_eq_false_2 by (intros [? ?]; discriminate).
    rewrite bool_decide_eq_true_2 by eauto.
    destruct m_EyeVec, m_EyeAng; cbn.
    + split; [discriminate | intros (? & ? & _ & _ & _ & [=] & _)].
    + split; [discriminate | intros (? & ? & _ & _ & _ & [=] & _)].
    + split; [|reflexivity]. intros _. exists handle, ce. auto.
    + split; [discriminate | intros (? & ? & _ & _ & _ & _ & [=])].
Qed.

End Calcs.

(** C9.  [CMirvVecAngHandleCalcEx::CalcVecAng] calls [EyeAngles] through
    a null pointer: for an entity without base entity, with [m_EyeVec]
    false and [m_EyeAng] true, the guard lets the evaluation into the
    branch that reads the eye angles of the base entity. *)
Theorem HandleCalcEx_calls_through_null_base_entity :
  GetClientEntityFromHandle (SourceSdk := TestSdk) 2%Z = Some 2%Z
  /\ GetBaseEntity (SourceSdk := TestSdk) 2%Z = None
  /\ CMirvVecAngHandleCalcEx_CalcVecAng (sdk := TestSdk)
       (CMirvHandleValueCalc_CalcHandle (sdk := TestSdk) (S := unit) 2%Z) false true tt
     = (NullDereference, tt).
Proof. repeat split. Qed.

(** C5 as stated fails for the smooth calc: after its parent has failed it
    still evaluates its track handle. *)
Lemma Smooth_evaluates_track_handle_after_failed_parent :
  let m_Parent : IMirvVecAngCalc (S := list string) := probe "parent" None in
  let m_TrackHandle : IMirvHandleCalc (sdk := TestSdk) (S := list string) :=
    probe "trackHandle" (Some 1%Z) in
  (m_Parent []).1 = None
  /\ (m_Parent []).2 = ["parent"]
  /\ (CMirvVecAngSmoothCalc_CalcVecAng (sdk := TestSdk) 0 (fun _ => 0) 3
        m_Parent m_TrackHandle (CMirvVecAngSmoothCalc_new (sdk := TestSdk)) []).2
     = ["parent"; "trackHandle"].
Proof. repeat split. Qed.

(** ** The theorems at concrete inputs *)

(** C10 for [mirv_calcs vecAng add handle p1 h1] and for the same calc
    without a name. *)
Lemma NewCalc_reference_count_witness :
  (exists p st',
     CMirvVecAngCalcs_NewHandleCalc (Some "p1") 1%positive Calcs_h1 = (Some p, st')
     /\ free_store Calcs_h1 !! p = None
     /\ free_store st' !! p = Some (MkCalc "p1" 1 (VecAngHandleCalcEx 1 false false))
     /\ GetRefCount p (free_store st') = 1%Z
     /\ m_Calcs st' VecAngCalcs = m_Calcs Calcs_h1 VecAngCalcs ++ [p]
     /\ (forall f, f <> VecAngCalcs -> m_Calcs st' f = m_Calcs Calcs_h1 f))
  /\ (exists p st',
        CMirvVecAngCalcs_NewHandleCalc None 1%positive Calcs_h1 = (Some p, st')
        /\ free_store Calcs_h1 !! p = None
        /\ free_store st' !! p
           = Some (MkCalc "(no name)" 0 (VecAngHandleCalcEx 1 false false))
        /\ GetRefCount p (free_store st') = 0%Z
        /\ (forall f, m_Calcs st' f = m_Calcs Calcs_h1 f)
        /\ (forall f,
              (forall q, q ∈ m_Calcs Calcs_h1 f -> is_Some (free_store Calcs_h1 !! q)) ->
              p ∉ m_Calcs st' f)
        /\ (forall fuel,
              Release (S fuel) p (free_store st')
              = Some (<[p := MkCalc "(no name)" (-1) (VecAngHandleCalcEx 1 false false)]>
                        (free_store st')))
        /\ (exists h,
              Release (S (size (AddRef p (free_store st')))) p (AddRef p (free_store st'))
              = Some h
              /\ h !! p = None)).
Proof.
  assert (Hops : forall q, q ∈ operands (VecAngHandleCalcEx 1 false false) ->
                   is_Some (free_store Calcs_h1 !! q)).
  { intros q Hq. apply list_elem_of_singleton in Hq. subst q. vm_compute. eauto. }
  split.
  - apply (NewCalc_reference_count VecAngCalcs (Some "p1")
             (VecAngHandleCalcEx 1 false false) Calcs_h1 Hops).
    right. vm_compute. reflexivity.
  - apply (NewCalc_reference_count VecAngCalcs None
             (VecAngHandleCalcEx 1 false false) Calcs_h1 Hops).
    left. reflexivity.
Defined.

(** Two resets in a row: a new smooth calc snaps to the first pose, and to
    the second one when the handle changes from 1 to 2. *)
Example Smooth_reset_examples :
  let pose1 := (MkVector 1 2 3, MkQAngle 0 90 0) in
  let pose2 := (MkVector 500 0 64, MkQAngle 10 (-170) 0) in
  CMirvVecAngSmoothCalc_update (sdk := TestSdk) (1 / 1000000) 3 (1 / 64)
    (Some pose1) (Some 1%Z) CMirvVecAngSmoothCalc_new
  = Some (Some pose1, snapped (sdk := TestSdk) 1%Z pose1.1 pose1.2)
  /\ CMirvVecAngSmoothCalc_update (sdk := TestSdk) (1 / 1000000) 3 (1 / 64)
       (Some pose2) (Some 2%Z) (snapped (sdk := TestSdk) 1%Z pose1.1 pose1.2)
     = Some (Some pose2, snapped (sdk := TestSdk) 2%Z pose2.1 pose2.2).
Proof. split; reflexivity. Qed.

(** The offset calc with recording operands: after a failed parent the log
    holds the parent alone. *)
Example Offset_short_circuit_example :
  CMirvVecAngOffsetCalc_CalcVecAng (math := TestMath)
    (probe "parent" None)
    (probe "offset" (Some (MkVector 0 0 0, MkQAngle 0 0 0))) false []
  = (None, ["parent"]).
Proof. reflexivity. Qed.

(** The cases of the name rule listed in the spec. *)
Example Console_CheckName_examples :
  (Console_CheckName (Some "1abc") ∅ []).1 = false
  /\ (Console_CheckName (Some "ab c") ∅ []).1 = false
  /\ (Console_CheckName (Some EmptyString) ∅ []).1 = false
  /\ (Console_CheckName (Some "abc123") ∅ []).1 = true
  /\ (CMirvHandleCalcs_NewValueCalc (Some "H1") 6 Calcs_h1).1 = None
  /\ is_Some (CMirvVecAngCalcs_NewValueCalc (Some "h1") 0 0 0 0 0 0 Calcs_h1).1.
Proof. repeat split; try reflexivity. vm_compute. eauto. Qed.

(* ===================================================================== *)
(** * Part III: further properties                                        *)
(* ===================================================================== *)

(** ** More on the smooth calc *)



Section SmoothCalc.

Context {sdk : SourceSdk}.
Variable AFX_MATH_EPS : R.
Hypothesis AFX_MATH_EPS_nonneg : 0 <= AFX_MATH_EPS.

Local Abbreviation update := (CMirvVecAngSmoothCalc_update AFX_MATH_EPS).


End SmoothCalc.

(** ** More on the evaluation of calcs *)

Section MoreCalcs.

Context {sdk : SourceSdk} {math : AfxMath} {S : Type}.

(** X8.  The two handle calcs the console can add, [handle] (neither eye
    flag) and [handleEye] (both eye flags), never call a method through a
    null pointer, and they succeed exactly when the handle calc succeeds
    with a handle of a client entity that has a base entity: the first
    then returns the origin and angles of the client entity, the second the
    eye position and eye angles of the base entity.  In particular the
    first fails for an entity without base entity although it reads
    nothing from the base entity. *)
Theorem HandleCalcEx_console_variants
  (m_Handle : IMirvHandleCalc) (eye : bool) (s : S) :
  (CMirvVecAngHandleCalcEx_CalcVecAng m_Handle eye eye s).2 = (m_Handle s).2
  /\ (CMirvVecAngHandleCalcEx_CalcVecAng m_Handle eye eye s).1
     = Done
         match (m_Handle s).1 ≫= GetClientEntityFromHandle with
         | Some ce =>
           match GetBaseEntity ce with
           | Some be =>
             Some (if eye then (EyePosition be, EyeAngles be)
                   else (GetAbsOrigin ce, GetAbsAngles ce))
           | None => None
           end
         | None => None
         end.
Proof.
  unfold CMirvVecAngHandleCalcEx_CalcVecAng, Eval_bind, Eval_ret.
  destruct (m_Handle s) as [[handle|] s1]; cbn [fst snd mbind option_bind].
  2:{ rewrite !bool_decide_eq_false_2 by (intros [? ?]; discriminate). cbn.
      split; reflexivity. }
  destruct (GetClientEntityFromHandle handle) as [ce|] eqn:Ece.
  2:{ rewrite !bool_decide_eq_false_2 by (intros [? ?]; discriminate). cbn.
      split; reflexivity. }
  destruct (GetBaseEntity ce) as [be|] eqn:Ebe.
  - rewrite bool_decide_eq_true_2 by eauto. destruct eye; cbn; split; reflexivity.
  - rewrite bool_decide_eq_false_2 by (intros [? ?]; discriminate).
    destruct eye; cbn; split; reflexivity.
Qed.

(** X9.  The or calc is associative, as a computation on the state: both
    nestings evaluate the three operands in the same order, stop at the
    first that succeeds and return its value; and an or calc fails only if
    both operands fail. *)
Theorem Or_CalcVecAng_assoc (a b c : IMirvVecAngCalc) (s : S) :
  CMirvVecAngOrCalc_CalcVecAng (CMirvVecAngOrCalc_CalcVecAng a b) c s
  = CMirvVecAngOrCalc_CalcVecAng a (CMirvVecAngOrCalc_CalcVecAng b c) s
  /\ ((CMirvVecAngOrCalc_CalcVecAng a b s).1 = None <->
      (a s).1 = None /\ (b (a s).2).1 = None).
Proof.
  rewrite !Or_CalcVecAng_spec.
  destruct (a s) as [[va|] s1]; cbn [fst snd].
  - split; [reflexivity|]. split; [discriminate | intros [[=] _]].
  - destruct (b s1) as [[vb|] s2]; cbn; (split; [reflexivity|]); split; auto;
      intros [_ H]; exact H.
Qed.

End MoreCalcs.

Open Scope Z_scope.

(** ** The key calc *)

Section KeyCalcFacts.

Context {sdk : SourceSdk} {S : Type}.
Variable GetTeamNumber : C_BaseEntity_csgo -> Z.
Variable csgo_Unknown_GetTeamsSwappedOnScreen : option (S -> bool).
Variable maxclients_get : S -> option Z.

Lemma team_players_S (team first : Z) (len : nat) :
  team_players GetTeamNumber team first (Datatypes.S len)
  = match team_player GetTeamNumber team first with
    | Some ce => ce :: team_players GetTeamNumber team (first + 1) len
    | None => team_players GetTeamNumber team (first + 1) len
    end.
Proof.
  unfold team_players. cbn [seq fmap list_fmap omap list_omap].
  rewrite Z.add_0_r. rewrite <- fmap_S_seq, <- list_fmap_compose.
  assert (E : (fun k : nat => first + Z.of_nat k) ∘ Datatypes.S <$> seq 0 len
              = (fun k : nat => first + 1 + Z.of_nat k) <$> seq 0 len).
  { apply list_fmap_ext. intros _ k _. cbn. lia. }
  rewrite E. reflexivity.
Qed.

(** The loop, from any index and any counts of players seen. *)
Lemma CMirvHandleKeyCalc_loop_spec
  (swapPlayerSide isOtherScreenSide : bool) (slot : Z) (n : nat) :
  forall i slotCT slotT : Z,
  CMirvHandleKeyCalc_loop GetTeamNumber swapPlayerSide isOtherScreenSide slot
    n i slotCT slotT
  = let team := if eqb isOtherScreenSide swapPlayerSide then 3 else 2 in
    let seen := if eqb isOtherScreenSide swapPlayerSide then slotCT else slotT in
    if (seen <=? slot)
    then GetRefEHandle <$> (team_players GetTeamNumber team i n !! Z.to_nat (slot - seen))
    else None.
Proof.
  induction n as [|n IH]; intros i slotCT slotT; cbn zeta.
  - cbn. destruct (_ <=? _); reflexivity.
  - rewrite team_players_S.
    change (CMirvHandleKeyCalc_loop GetTeamNumber swapPlayerSide isOtherScreenSide slot
              (Datatypes.S n) i slotCT slotT)
      with (let ce := GetClientEntity i in
            let be := match ce with Some ce => GetBaseEntity ce | None => None end in
            match ce, be with
            | Some ce, Some be =>
              if IsPlayer be then
                let be_team := GetTeamNumber be in
                if (3 =? be_team)%Z then
                  if eqb isOtherScreenSide swapPlayerSide && (slotCT =? slot)%Z
                  then Some (GetRefEHandle ce)
                  else CMirvHandleKeyCalc_loop GetTeamNumber swapPlayerSide
                         isOtherScreenSide slot n (i + 1)%Z (slotCT + 1)%Z slotT
                else if (2 =? be_team)%Z then
                  if negb (eqb isOtherScreenSide swapPlayerSide) && (slotT =? slot)%Z
                  then Some (GetRefEHandle ce)
                  else CMirvHandleKeyCalc_loop GetTeamNumber swapPlayerSide
                         isOtherScreenSide slot n (i + 1)%Z slotCT (slotT + 1)%Z
                else CMirvHandleKeyCalc_loop GetTeamNumber swapPlayerSide
                       isOtherScreenSide slot n (i + 1)%Z slotCT slotT
              else CMirvHandleKeyCalc_loop GetTeamNumber swapPlayerSide
                     isOtherScreenSide slot n (i + 1)%Z slotCT slotT
            | _, _ =>
              CMirvHandleKeyCalc_loop GetTeamNumber swapPlayerSide
                isOtherScreenSide slot n (i + 1)%Z slotCT slotT
            end).
    cbn zeta. unfold team_player.
    destruct (GetClientEntity i) as [ce|]; [|apply IH].
    destruct (GetBaseEntity ce) as [be|]; [|apply IH].
    destruct (IsPlayer be); [|apply IH]. cbn [andb].
    rewrite !IH. cbn zeta.
    destruct (eqb isOtherScreenSide swapPlayerSide); cbn [andb negb].
    + destruct (Z.eqb_spec 3 (GetTeamNumber be)) as [E3|E3].
      * rewrite <- E3. cbn [Z.eqb Pos.eqb].
        destruct (Z.eqb_spec slotCT slot) as [->|Hne].
        -- rewrite Z.leb_refl, Z.sub_diag. reflexivity.
        -- cbn zeta.
           destruct (Z.leb_spec slotCT slot) as [Hle|Hgt].
           ++ rewrite (proj2 (Z.leb_le (slotCT + 1) slot)) by lia.
              replace (Z.to_nat (slot - slotCT))
                with (Datatypes.S (Z.to_nat (slot - (slotCT + 1)))) by lia.
              reflexivity.
           ++ rewrite (proj2 (Z.leb_gt (slotCT + 1) slot)) by lia. reflexivity.
      * rewrite (proj2 (Z.eqb_neq (GetTeamNumber be) 3)) by congruence.
        destruct (2 =? GetTeamNumber be); reflexivity.
    + destruct (Z.eqb_spec 3 (GetTeamNumber be)) as [E3|E3].
      * rewrite <- E3. cbn [Z.eqb Pos.eqb]. reflexivity.
      * destruct (Z.eqb_spec 2 (GetTeamNumber be)) as [E2|E2].
        -- rewrite <- E2. cbn [Z.eqb Pos.eqb].
           destruct (Z.eqb_spec slotT slot) as [->|Hne].
           ++ rewrite Z.leb_refl, Z.sub_diag. reflexivity.
           ++ cbn zeta.
              destruct (Z.leb_spec slotT slot) as [Hle|Hgt].
              ** rewrite (proj2 (Z.leb_le (slotT + 1) slot)) by lia.
                 replace (Z.to_nat (slot - slotT))
                   with (Datatypes.S (Z.to_nat (slot - (slotT + 1)))) by lia.
                 reflexivity.
              ** rewrite (proj2 (Z.leb_gt (slotT + 1) slot)) by lia. reflexivity.
        -- rewrite (proj2 (Z.eqb_neq (GetTeamNumber be) 2)) by congruence.
           reflexivity.
Qed.

(** Without overflow the sum is the value of the expression. *)
Lemma int_wrap_small (z : Z) : -2147483648 <= z <= 2147483647 -> int_wrap z = z.
Proof.
  intros Hz. unfold int_wrap.
  rewrite Z.mod_small by lia. lia.
Qed.

(** X10.  The key calc returns the handle of the player with number
    [slot] (counted from 0 in the order of the entity indices 1 to
    [maxclients]) of one team, and fails when that team has no such player:
    the team is CT (team number 3) when the key's screen side equals the
    swap flag of the game, T (team number 2) otherwise; entities that are
    no players or belong to other teams are skipped.  Here [slot] is
    [(m_Key + 9) % 10 % 5] and the screen side is [(m_Key + 9) % 10 / 5],
    with the division of C: the keys 1 to 5 stand for the slots 0 to 4 of
    the one screen side, the keys 6, 7, 8, 9, 0 for the slots 0 to 4 of the
    other.  The state is left as it is.  The key is an [int] for which
    [m_Key + 9] does not overflow, and [maxclients] is less than the
    largest [int], so that the loop counter does not overflow. *)
Theorem KeyCalc_selects_player (m_Key : Z) (s : S) :
  -2147483648 <= m_Key <= 2147483647 - 9 ->
  match maxclients_get s with Some n => n | None => 0 end < 2147483647 ->
  let swapPlayerSide :=
    match csgo_Unknown_GetTeamsSwappedOnScreen with
    | Some fnPlayerSidesWappedOnScreen => fnPlayerSidesWappedOnScreen s
    | None => false
    end in
  let imax := match maxclients_get s with Some n => n | None => 0 end in
  let nr := Z.rem (m_Key + 9) 10 in
  let isOtherScreenSide := negb (0 =? Z.rem (Z.quot nr 5) 2) in
  let slot := Z.rem nr 5 in
  let team := if eqb isOtherScreenSide swapPlayerSide then 3 else 2 in
  CMirvHandleKeyCalc_CalcHandle GetTeamNumber csgo_Unknown_GetTeamsSwappedOnScreen
    maxclients_get m_Key s
  = (if 0 <=? slot
     then GetRefEHandle
            <$> (team_players GetTeamNumber team 1 (Z.to_nat imax) !! Z.to_nat slot)
     else None,
     s)
  /\ (0 <= m_Key <= 9 ->
      slot = (m_Key + 4) mod 5
      /\ isOtherScreenSide = (m_Key =? 0) || (6 <=? m_Key)).
Proof.
  intros Hkey Hmax. cbn zeta. split.
  - unfold CMirvHandleKeyCalc_CalcHandle. rewrite CMirvHandleKeyCalc_loop_spec.
    unfold CMirvHandleKeyCalc_isOtherScreenSide, CMirvHandleKeyCalc_slot,
      CMirvHandleKeyCalc_nr.
    rewrite int_wrap_small by lia.
    cbn zeta.
    destruct (eqb _ _); rewrite Z.sub_0_r; reflexivity.
  - intros Hk.
    assert (Hcases : m_Key = 0 \/ m_Key = 1 \/ m_Key = 2 \/ m_Key = 3 \/ m_Key = 4
                     \/ m_Key = 5 \/ m_Key = 6 \/ m_Key = 7 \/ m_Key = 8 \/ m_Key = 9)
      by lia.
    repeat (destruct Hcases as [->|Hcases]; [split; reflexivity|]).
    subst m_Key. split; reflexivity.
Qed.

End KeyCalcFacts.

Open Scope nat_scope.

(** ** The accounting of references *)

Lemma count_refs_nil (q : addr) : count_refs q [] = 0.
Proof. reflexivity. Qed.

Lemma count_refs_cons (q x : addr) (l : list addr) :
  count_refs q (x :: l) = (if decide (x = q) then 1 else 0) + count_refs q l.
Proof.
  unfold count_refs. cbn.
  destruct (Pos.eq_dec x q), (decide (x = q)); try contradiction; reflexivity.
Qed.

Lemma count_refs_app (q : addr) (l1 l2 : list addr) :
  count_refs q (l1 ++ l2) = count_refs q l1 + count_refs q l2.
Proof. apply count_occ_app. Qed.

Lemma count_refs_rev (q : addr) (l : list addr) :
  count_refs q (rev l) = count_refs q l.
Proof. apply count_occ_rev. Qed.

Lemma count_refs_pos (q : addr) (l : list addr) : 0 < count_refs q l <-> q ∈ l.
Proof.
  unfold count_refs. rewrite list_elem_of_In.
  pose proof (count_occ_In Pos.eq_dec l q) as H. unfold gt in H.
  symmetry. exact H.
Qed.

Lemma count_refs_zero (q : addr) (l : list addr) : count_refs q l = 0 <-> q ∉ l.
Proof.
  rewrite <- count_refs_pos. lia.
Qed.

Lemma count_refs_delete (q p : addr) (i : nat) (l : list addr) :
  l !! i = Some p ->
  count_refs q l = (if decide (p = q) then 1 else 0) + count_refs q (delete i l).
Proof.
  revert i. induction l as [|x l IH]; intros [|i] Hi; try discriminate.
  - cbn in Hi. injection Hi as ->. cbn [delete list_delete]. apply count_refs_cons.
  - cbn in Hi. change (delete (S i) (x :: l)) with (x :: delete i l).
    rewrite !count_refs_cons, (IH i Hi). lia.
Qed.

Lemma operand_refs_comm (q : addr) (j1 j2 : addr) (z1 z2 : CMirvCalc) (y : nat) :
  count_refs q (operands (m_Kind z1)) + (count_refs q (operands (m_Kind z2)) + y)
  = count_refs q (operands (m_Kind z2)) + (count_refs q (operands (m_Kind z1)) + y).
Proof. lia. Qed.

Lemma operand_refs_empty (q : addr) : operand_refs ∅ q = 0.
Proof. unfold operand_refs. apply map_fold_empty. Qed.

Lemma operand_refs_insert (h : gmap addr CMirvCalc) (p : addr) (c : CMirvCalc) (q : addr) :
  h !! p = None ->
  operand_refs (<[p := c]> h) q = count_refs q (operands (m_Kind c)) + operand_refs h q.
Proof.
  intros Hp. unfold operand_refs.
  rewrite map_fold_insert_L; [reflexivity | | exact Hp].
  intros. apply operand_refs_comm; assumption.
Qed.

Lemma operand_refs_delete (h : gmap addr CMirvCalc) (p : addr) (c : CMirvCalc) (q : addr) :
  h !! p = Some c ->
  operand_refs h q = count_refs q (operands (m_Kind c)) + operand_refs (delete p h) q.
Proof.
  intros Hp. rewrite <- (insert_delete_id h p c Hp) at 1.
  apply operand_refs_insert, lookup_delete_eq.
Qed.

(** Changing a calc without changing its operands leaves the operand slots
    as they are. *)
Lemma operand_refs_insert_same
  (h : gmap addr CMirvCalc) (p : addr) (c c' : CMirvCalc) (q : addr) :
  h !! p = Some c -> operands (m_Kind c') = operands (m_Kind c) ->
  operand_refs (<[p := c']> h) q = operand_refs h q.
Proof.
  intros Hp Hk. rewrite (operand_refs_delete h p c q Hp).
  rewrite <- insert_delete_eq.
  rewrite operand_refs_insert by apply lookup_delete_eq.
  rewrite Hk. reflexivity.
Qed.

Lemma operand_refs_zero (h : gmap addr CMirvCalc) (q p : addr) (c : CMirvCalc) :
  operand_refs h q = 0 -> h !! p = Some c -> q ∉ operands (m_Kind c).
Proof.
  intros H0 Hp. rewrite (operand_refs_delete h p c q Hp) in H0.
  apply count_refs_zero. lia.
Qed.

Lemma operand_refs_AddRef (h : gmap addr CMirvCalc) (p q : addr) :
  operand_refs (AddRef p h) q = operand_refs h q.
Proof.
  unfold AddRef. destruct (h !! p) as [c|] eqn:Hp.
  - assert (E : alter (fun c => MkCalc (m_Name c) (m_RefCount c + 1) (m_Kind c)) p h
                = <[p := MkCalc (m_Name c) (m_RefCount c + 1) (m_Kind c)]> h).
    { apply map_eq. intros x. destruct (decide (x = p)) as [->|Hne].
      - rewrite lookup_alter_eq, lookup_insert_eq, Hp. reflexivity.
      - rewrite lookup_alter_ne, lookup_insert_ne by congruence. reflexivity. }
    rewrite E. apply (operand_refs_insert_same h p c); [exact Hp | reflexivity].
  - assert (E : alter (fun c => MkCalc (m_Name c) (m_RefCount c + 1) (m_Kind c)) p h = h).
    { apply map_eq. intros x. destruct (decide (x = p)) as [->|Hne].
      - rewrite lookup_alter_eq, Hp. reflexivity.
      - rewrite lookup_alter_ne by congruence. reflexivity. }
    rewrite E. reflexivity.
Qed.

Lemma operand_refs_AddRef_all (h : gmap addr CMirvCalc) (ops : list addr) (q : addr) :
  operand_refs (foldl (fun h' o => AddRef o h') h ops) q = operand_refs h q.
Proof.
  revert h. induction ops as [|o ops IH]; intros h; cbn; [reflexivity|].
  rewrite IH. apply operand_refs_AddRef.
Qed.

(** The constructor's [AddRef] calls: each operand gains one reference
    per slot. *)
Lemma AddRef_all_lookup (h : gmap addr CMirvCalc) (ops : list addr) (q : addr) :
  foldl (fun h' o => AddRef o h') h ops !! q
  = (fun c => MkCalc (m_Name c) (m_RefCount c + Z.of_nat (count_refs q ops)) (m_Kind c))
      <$> h !! q.
Proof.
  revert h. induction ops as [|o ops IH]; intros h.
  - cbn. destruct (h !! q) as [[n r k]|]; cbn; [|reflexivity].
    rewrite Z.add_0_r. reflexivity.
  - cbn [foldl]. rewrite IH. rewrite count_refs_cons.
    destruct (decide (o = q)) as [->|Hne].
    + unfold AddRef. rewrite lookup_alter_eq.
      destruct (h !! q) as [[n r k]|]; cbn; [|reflexivity].
      do 2 f_equal. lia.
    + rewrite AddRef_lookup_ne by congruence.
      destruct (h !! q) as [[n r k]|]; cbn; reflexivity.
Qed.

(** ** What [Release] does to the free store *)

Lemma only_releases_refl (h : gmap addr CMirvCalc) : only_releases h h.
Proof. intros x c' Hx. exists c'. repeat split; [exact Hx | lia]. Qed.

Lemma only_releases_trans (h1 h2 h3 : gmap addr CMirvCalc) :
  only_releases h1 h2 -> only_releases h2 h3 -> only_releases h1 h3.
Proof.
  intros H12 H23 x c3 Hx.
  destruct (H23 x c3 Hx) as (c2 & Hx2 & En & Ek & Er).
  destruct (H12 x c2 Hx2) as (c1 & Hx1 & En1 & Ek1 & Er1).
  exists c1. repeat split; [exact Hx1 | congruence | congruence | lia].
Qed.

Lemma release_all_None (fuel : nat) (ops : list addr) : release_all fuel ops None = None.
Proof. induction ops as [|o ops IH]; [reflexivity | exact IH]. Qed.

Lemma release_all_cons (fuel : nat) (o : addr) (ops : list addr) (h : gmap addr CMirvCalc) :
  release_all fuel (o :: ops) (Some h) = release_all fuel ops (Release fuel o h).
Proof. reflexivity. Qed.

Lemma Release_S (k : nat) (p : addr) (h : gmap addr CMirvCalc) :
  Release (S k) p h =
    match h !! p with
    | None => Some h
    | Some c =>
      let cnt := (m_RefCount c - 1)%Z in
      let h1 := <[p := MkCalc (m_Name c) cnt (m_Kind c)]> h in
      if decide (0 = cnt)%Z then
        match release_all k (rev (operands (m_Kind c))) (Some h1) with
        | Some h2 => Some (delete p h2)
        | None => None
        end
      else Some h1
    end.
Proof. reflexivity. Qed.

Lemma Release_only_releases (fuel : nat) :
  forall (p : addr) (h h' : gmap addr CMirvCalc),
    Release fuel p h = Some h' -> only_releases h h'.
Proof.
  induction fuel as [|k IH]; intros p h h' E; [discriminate|].
  rewrite Release_S in E. destruct (h !! p) as [c|] eqn:Hp.
  2:{ injection E as <-. apply only_releases_refl. }
  cbn zeta in E.
  set (h1 := <[p := MkCalc (m_Name c) (m_RefCount c - 1) (m_Kind c)]> h) in *.
  assert (H1 : only_releases h h1).
  { intros x c' Hx. unfold h1 in Hx. destruct (decide (x = p)) as [->|Hne].
    - rewrite lookup_insert_eq in Hx. injection Hx as <-. exists c. cbn.
      repeat split; [exact Hp | lia].
    - rewrite lookup_insert_ne in Hx by congruence. exists c'.
      repeat split; [exact Hx | lia]. }
  destruct (decide (0 = m_RefCount c - 1)%Z) as [Hz|Hz].
  2:{ injection E as <-. exact H1. }
  assert (Hall : forall ops ha hb,
            release_all k ops (Some ha) = Some hb -> only_releases ha hb).
  { induction ops as [|o ops IHops]; intros ha hb Eo.
    - injection Eo as <-. apply only_releases_refl.
    - rewrite release_all_cons in Eo.
      destruct (Release k o ha) as [hm|] eqn:Em.
      + eapply only_releases_trans; [exact (IH o ha hm Em) | exact (IHops hm hb Eo)].
      + rewrite release_all_None in Eo. discriminate. }
  destruct (release_all k (rev (operands (m_Kind c))) (Some h1)) as [h2|] eqn:E2;
    [|discriminate].
  injection E as <-.
  eapply only_releases_trans; [exact H1|].
  eapply only_releases_trans; [exact (Hall _ _ _ E2)|].
  intros x c' Hx. destruct (decide (x = p)) as [->|Hne].
  - rewrite lookup_delete_eq in Hx. discriminate.
  - rewrite lookup_delete_ne in Hx by congruence. exists c'.
    repeat split; [exact Hx | lia].
Qed.

(** ** [Release] and the accounting of references *)

Lemma Release_accounted (base : addr -> nat) (fuel : nat) :
  forall (q : addr) (pending : list addr) (h h' g : gmap addr CMirvCalc),
    g ⊆ h -> accounted base (q :: pending) g -> Release fuel q h = Some h' ->
    released_to base pending g h h'.
Proof.
  induction fuel as [|k IH]; intros q pending h h' g Hsub [Hacc Hlive] E; [discriminate|].
  assert (Hall : forall ops pend ha hb ga,
            ga ⊆ ha -> accounted base (ops ++ pend) ga ->
            release_all k ops (Some ha) = Some hb ->
            released_to base pend ga ha hb).
  { induction ops as [|o ops IHops]; intros pend ha hb ga Hs Ha Eo.
    - injection Eo as <-. exists ga.
      split; [exact Hs|]. split; [exact Ha|]. split; [auto|]. intros x Hx Hn. auto.
    - rewrite release_all_cons in Eo.
      destruct (Release k o ha) as [hm|] eqn:Em.
      2:{ rewrite release_all_None in Eo. discriminate. }
      destruct (IH o (ops ++ pend) ha hm ga Hs Ha Em) as (gm & Hsm & Hm & Hdm & Hzm).
      destruct (IHops pend hm hb gm Hsm Hm Eo) as (gb & Hsb & Hb & Hdb & Hzb).
      exists gb.
      split; [exact Hsb|]. split; [exact Hb|]. split.
      + intros x Hx. apply Hdm, Hdb, Hx.
      + intros x Hx Hn.
        destruct (Hzb x Hx Hn) as [Hx1 Hx2].
        exact (Hzm x Hx1 Hx2). }
  assert (Hq : is_Some (g !! q)).
  { apply Hlive. rewrite count_refs_cons, decide_True by reflexivity. lia. }
  destruct Hq as [c Hgq].
  pose proof (lookup_weaken _ _ _ _ Hgq Hsub) as Hhq.
  destruct (Hacc q c Hgq) as [Hrc Hops].
  rewrite count_refs_cons, decide_True in Hrc by reflexivity.
  rewrite Release_S, Hhq in E. cbn zeta in E.
  set (c' := MkCalc (m_Name c) (m_RefCount c - 1) (m_Kind c)) in *.
  destruct (decide (0 = m_RefCount c - 1)%Z) as [Hz|Hz].
  - (* the last reference: the destructor runs *)
    assert (Hzero : base q + operand_refs g q + count_refs q pending = 0) by lia.
    assert (Hself : q ∉ operands (m_Kind c)).
    { apply (operand_refs_zero g q q c); [lia | exact Hgq]. }
    assert (Hsub1 : delete q g ⊆ <[q := c']> h).
    { apply map_subseteq_spec. intros x v Hx.
      destruct (decide (x = q)) as [->|Hne].
      - rewrite lookup_delete_eq in Hx. discriminate.
      - rewrite lookup_delete_ne in Hx by congruence.
        rewrite lookup_insert_ne by congruence.
        exact (lookup_weaken _ _ _ _ Hx Hsub). }
    assert (Hacc1 : accounted base (rev (operands (m_Kind c)) ++ pending) (delete q g)).
    { split.
      - intros x cx Hx.
        destruct (decide (x = q)) as [->|Hne].
        { rewrite lookup_delete_eq in Hx. discriminate. }
        rewrite lookup_delete_ne in Hx by congruence.
        destruct (Hacc x cx Hx) as [Hrx Hox].
        rewrite count_refs_cons, decide_False in Hrx by congruence.
        rewrite (operand_refs_delete g q c x Hgq) in Hrx.
        split.
        + rewrite count_refs_app, count_refs_rev. rewrite Hrx. f_equal. lia.
        + intros o Ho. rewrite lookup_delete_ne; [apply Hox, Ho|].
          intros <-. apply (operand_refs_zero g q x cx); [lia | exact Hx | exact Ho].
      - intros x Hx. rewrite count_refs_app, count_refs_rev in Hx.
        destruct (decide (x = q)) as [->|Hne].
        { apply count_refs_zero in Hself. lia. }
        rewrite lookup_delete_ne by congruence.
        destruct (decide (0 < count_refs x (operands (m_Kind c)))) as [Hin|Hnin].
        + apply Hops, count_refs_pos, Hin.
        + apply Hlive. rewrite count_refs_cons, decide_False by congruence. lia. }
    destruct (release_all k (rev (operands (m_Kind c))) (Some (<[q := c']> h)))
      as [h2|] eqn:E2; [|discriminate].
    injection E as <-.
    destruct (Hall _ _ _ _ _ Hsub1 Hacc1 E2) as (g2 & Hs2 & H2 & Hd2 & Hz2).
    assert (Hq2 : g2 !! q = None).
    { destruct (g2 !! q) eqn:Eq; [|reflexivity].
      destruct (Hd2 q) as [v Hv]; [eauto|]. rewrite lookup_delete_eq in Hv. discriminate. }
    exists g2. split; [|split; [exact H2|split]].
    + apply map_subseteq_spec. intros x v Hx.
      destruct (decide (x = q)) as [->|Hne]; [congruence|].
      rewrite lookup_delete_ne by congruence.
      exact (lookup_weaken _ _ _ _ Hx Hs2).
    + intros x Hx. destruct (Hd2 x Hx) as [v Hv].
      destruct (decide (x = q)) as [->|Hne].
      * rewrite lookup_delete_eq in Hv. discriminate.
      * rewrite lookup_delete_ne in Hv by congruence. eauto.
    + intros x Hx Hn.
      destruct (decide (x = q)) as [->|Hne].
      { rewrite lookup_delete_eq in Hx. destruct Hx; discriminate. }
      rewrite lookup_delete_ne in Hx by congruence.
      destruct (Hz2 x Hx Hn) as [Hx1 Hx2].
      rewrite lookup_insert_ne in Hx1 by congruence.
      rewrite lookup_delete_ne in Hx2 by congruence. auto.
  - (* other references remain *)
    injection E as <-.
    exists (<[q := c']> g). split; [|split; [split|split]].
    + apply insert_mono, Hsub.
    + intros x cx Hx. destruct (decide (x = q)) as [->|Hne].
      * rewrite lookup_insert_eq in Hx. injection Hx as <-. cbn [m_RefCount m_Kind c'].
        rewrite (operand_refs_insert_same g q c c' q Hgq eq_refl).
        split; [lia|].
        intros o Ho. apply lookup_insert_is_Some'. right. apply Hops, Ho.
      * rewrite lookup_insert_ne in Hx by congruence.
        destruct (Hacc x cx Hx) as [Hrx Hox].
        rewrite count_refs_cons, decide_False in Hrx by congruence.
        rewrite (operand_refs_insert_same g q c c' x Hgq eq_refl).
        split; [lia|].
        intros o Ho. apply lookup_insert_is_Some'. right. apply Hox, Ho.
    + intros x Hx. apply lookup_insert_is_Some'.
      destruct (decide (x = q)) as [->|Hne]; [left; reflexivity | right].
      apply Hlive. rewrite count_refs_cons, decide_False by congruence. lia.
    + intros x Hx. apply lookup_insert_is_Some' in Hx.
      destruct Hx as [->|Hx]; [eauto | exact Hx].
    + intros x Hx Hn. destruct (decide (x = q)) as [->|Hne].
      * rewrite lookup_insert_eq in Hn. discriminate.
      * rewrite lookup_insert_ne in Hn by congruence.
        apply lookup_insert_is_Some' in Hx. destruct Hx as [->|Hx]; [congruence|]. auto.
Qed.

(** Releasing the one pending reference of an accounted free store leaves
    an accounted free store. *)
Lemma Release_accounted_top
  (base : addr -> nat) (fuel : nat) (q : addr) (h h' : gmap addr CMirvCalc) :
  accounted base [q] h -> Release fuel q h = Some h' -> accounted base [] h'.
Proof.
  intros Hacc E.
  destruct (Release_accounted base fuel q [] h h' h (reflexivity h) Hacc E)
    as (g' & Hsub & Hacc' & _ & Hz).
  assert (Eg : g' = h').
  { apply map_eq. intros x. destruct (g' !! x) as [v|] eqn:Ex.
    - symmetry. exact (lookup_weaken _ _ _ _ Ex Hsub).
    - destruct (h' !! x) as [v|] eqn:Ex'; [|reflexivity].
      destruct (Hz x (ltac:(eauto)) Ex) as [[w Hw] Hn]. congruence. }
  subst g'. exact Hacc'.
Qed.

Lemma references_accounted_iff (st : Calcs) :
  references_accounted st
  <-> accounted (registry_refs (m_Calcs st)) [] (free_store st).
Proof.
  unfold references_accounted, accounted, registry_refs. split.
  - intros (H1 & H2 & H3). split.
    + intros q c Hq. split; [rewrite (H1 q c Hq), count_refs_nil; f_equal; lia|].
      intros o Ho. exact (H2 q c o Hq Ho).
    + intros q Hq. rewrite count_refs_nil in Hq.
      assert (Hf : exists f, 0 < count_refs q (m_Calcs st f)).
      { destruct (decide (0 < count_refs q (m_Calcs st HandleCalcs))); [eauto|].
        destruct (decide (0 < count_refs q (m_Calcs st VecAngCalcs))); [eauto|].
        destruct (decide (0 < count_refs q (m_Calcs st CamCalcs))); [eauto|].
        destruct (decide (0 < count_refs q (m_Calcs st FovCalcs))); [eauto|].
        exists BoolCalcs. lia. }
      destruct Hf as [f Hf]. apply (H3 f), count_refs_pos, Hf.
  - intros [H1 H2]. split; [|split].
    + intros q c Hq. destruct (H1 q c Hq) as [Hr _].
      rewrite Hr, count_refs_nil. f_equal. lia.
    + intros q c o Hq Ho. destruct (H1 q c Hq) as [_ Hc]. exact (Hc o Ho).
    + intros f q Hq. apply H2. apply count_refs_pos in Hq. rewrite count_refs_nil.
      destruct f; lia.
Qed.

(** The registries after an entry of the family [fam] is erased or
    appended. *)
Lemma registry_refs_delete
  (calcs : CalcFamily -> list addr) (fam : CalcFamily) (it : nat) (p q : addr) :
  calcs fam !! it = Some p ->
  registry_refs calcs q
  = (if decide (p = q) then 1 else 0)
    + registry_refs (fun f => if decide (f = fam) then delete it (calcs f) else calcs f) q.
Proof.
  intros Hit. unfold registry_refs.
  pose proof (count_refs_delete q p it (calcs fam) Hit) as Hd.
  destruct fam; repeat case_decide; try congruence; lia.
Qed.

Lemma registry_refs_push
  (calcs : CalcFamily -> list addr) (fam : CalcFamily) (p q : addr) :
  registry_refs (fun f => if decide (f = fam) then calcs f ++ [p] else calcs f) q
  = (if decide (p = q) then 1 else 0) + registry_refs calcs q.
Proof.
  unfold registry_refs.
  assert (Hp : count_refs q (calcs fam ++ [p])
               = (if decide (p = q) then 1 else 0) + count_refs q (calcs fam)).
  { rewrite count_refs_app, count_refs_cons, count_refs_nil. lia. }
  destruct fam; repeat case_decide; try congruence; lia.
Qed.

Lemma registry_refs_pos (calcs : CalcFamily -> list addr) (q : addr) :
  0 < registry_refs calcs q <-> exists f, q ∈ calcs f.
Proof.
  unfold registry_refs. split.
  - intros Hq.
    destruct (decide (0 < count_refs q (calcs HandleCalcs)));
      [exists HandleCalcs; apply count_refs_pos; assumption|].
    destruct (decide (0 < count_refs q (calcs VecAngCalcs)));
      [exists VecAngCalcs; apply count_refs_pos; assumption|].
    destruct (decide (0 < count_refs q (calcs CamCalcs)));
      [exists CamCalcs; apply count_refs_pos; assumption|].
    destruct (decide (0 < count_refs q (calcs FovCalcs)));
      [exists FovCalcs; apply count_refs_pos; assumption|].
    exists BoolCalcs. apply count_refs_pos. lia.
  - intros [f Hf]. apply count_refs_pos in Hf. destruct f; lia.
Qed.

(** No operand slot points to an address at which there is no calc, if
    every operand slot points to a calc. *)
Lemma operand_refs_fresh (h : gmap addr CMirvCalc) (p : addr) :
  (forall q c o, h !! q = Some c -> o ∈ operands (m_Kind c) -> is_Some (h !! o)) ->
  h !! p = None -> operand_refs h p = 0.
Proof.
  intros Hclosed Hp.
  enough (Hgen : forall g, (forall q c, g !! q = Some c -> p ∉ operands (m_Kind c)) ->
                   operand_refs g p = 0).
  { apply Hgen. intros q c Hq Hin. destruct (Hclosed q c p Hq Hin). congruence. }
  intros g. induction g as [|i x m Hi IH] using map_ind; intros Hno.
  - apply operand_refs_empty.
  - rewrite operand_refs_insert by exact Hi.
    rewrite IH.
    + assert (p ∉ operands (m_Kind x)) by (apply (Hno i x), lookup_insert_eq).
      apply count_refs_zero in H. lia.
    + intros q c Hq. apply (Hno q c). rewrite lookup_insert_ne; [exact Hq|].
      intros <-. congruence.
Qed.

(** [Console_Remove] keeps the references accounted for. *)
Lemma Console_Remove_accounted
  (fam : CalcFamily) (name : string) (st st' : Calcs) (out : list string) :
  references_accounted st -> Console_Remove fam name st = Some (st', out) ->
  references_accounted st'.
Proof.
  intros Hst E. unfold Console_Remove in E.
  destruct (GetIteratorByName name (free_store st) (m_Calcs st fam)) as [[it p]|] eqn:Eit.
  2:{ injection E as <- _. exact Hst. }
  destruct (decide (1 = GetRefCount p (free_store st))%Z) as [Hrc|Hrc].
  2:{ injection E as <- _. exact Hst. }
  destruct (Release _ p (free_store st)) as [h|] eqn:Er; [|discriminate].
  injection E as <- _.
  apply references_accounted_iff. cbn [free_store m_Calcs].
  eapply (Release_accounted_top _ _ p (free_store st) h); [|exact Er].
  apply GetIteratorByName_Some in Eit. destruct Eit as (Hit & _).
  destruct Hst as (H1 & H2 & H3).
  split.
  - intros q c Hq. split; [|intros o Ho; exact (H2 q c o Hq Ho)].
    rewrite (H1 q c Hq), (registry_refs_delete (m_Calcs st) fam it p q Hit).
    rewrite count_refs_cons, count_refs_nil. f_equal. lia.
  - intros q Hq. rewrite count_refs_cons, count_refs_nil in Hq.
    destruct (decide (p = q)) as [<-|Hne].
    + apply (H3 fam). apply list_elem_of_lookup. eauto.
    + assert (Hpos : 0 < registry_refs (m_Calcs st) q).
      { rewrite (registry_refs_delete (m_Calcs st) fam it p q Hit). lia. }
      apply registry_refs_pos in Hpos. destruct Hpos as [f Hf]. exact (H3 f q Hf).
Qed.

(** The factory methods keep the references accounted for. *)
Lemma NewCalc_accounted
  (fam : CalcFamily) (name : option string) (k : CalcKind) (st : Calcs) :
  references_accounted st ->
  (forall q, q ∈ operands k -> is_Some (free_store st !! q)) ->
  references_accounted (NewCalc fam name k st).2.
Proof.
  intros Hst Hops.
  destruct (bool_decide (is_Some name)
            && negb (Console_CheckName name (free_store st) (m_Calcs st fam)).1) eqn:Erej.
  { unfold NewCalc. rewrite Erej. exact Hst. }
  unfold NewCalc. rewrite Erej. unfold construct.
  set (h := free_store st) in *.
  set (p := fresh (dom h)).
  assert (Hp : h !! p = None) by (apply not_elem_of_dom, is_fresh).
  set (h0 := <[p := CMirvCalc_new name k]> h).
  set (h1 := foldl (fun h' q => AddRef q h') h0 (operands k)).
  destruct Hst as (H1 & H2 & H3). fold h in H1, H2, H3.
  assert (Hpops : count_refs p (operands k) = 0).
  { apply count_refs_zero. intros Hin. destruct (Hops p Hin). congruence. }
  assert (Hpreg : registry_refs (m_Calcs st) p = 0).
  { destruct (decide (0 < registry_refs (m_Calcs st) p)) as [Hpos|]; [|lia].
    apply registry_refs_pos in Hpos. destruct Hpos as [f Hf].
    destruct (H3 f p Hf). congruence. }
  assert (Hpref : operand_refs h p = 0) by (apply operand_refs_fresh; assumption).
  assert (Hrefs1 : forall q, operand_refs h1 q = count_refs q (operands k) + operand_refs h q).
  { intros q. unfold h1. rewrite operand_refs_AddRef_all. unfold h0.
    rewrite operand_refs_insert by exact Hp. reflexivity. }
  assert (Hl1p : h1 !! p = Some (CMirvCalc_new name k)).
  { unfold h1. rewrite AddRef_all_lookup. unfold h0. rewrite lookup_insert_eq. cbn.
    rewrite Hpops. unfold CMirvCalc_new. cbn. reflexivity. }
  assert (Hl1 : forall q, q <> p ->
            h1 !! q = (fun c => MkCalc (m_Name c)
                                  (m_RefCount c + Z.of_nat (count_refs q (operands k)))
                                  (m_Kind c)) <$> h !! q).
  { intros q Hne. unfold h1. rewrite AddRef_all_lookup. unfold h0.
    rewrite lookup_insert_ne by congruence. reflexivity. }
  assert (Hlive1 : forall q, is_Some (h !! q) -> is_Some (h1 !! q)).
  { intros q [c Hq]. destruct (decide (q = p)) as [->|Hne]; [congruence|].
    rewrite (Hl1 q Hne), Hq. cbn. eauto. }
  assert (Hacc1 : forall extra : addr -> nat, extra p = 0 ->
            forall q c, h1 !! q = Some c ->
              (m_RefCount c + Z.of_nat (extra q)
               = Z.of_nat (registry_refs (m_Calcs st) q + extra q + operand_refs h1 q))%Z
              /\ forall o, o ∈ operands (m_Kind c) -> is_Some (h1 !! o)).
  { intros extra Hextra q c Hq. destruct (decide (q = p)) as [->|Hne].
    - rewrite Hl1p in Hq. injection Hq as <-. cbn [m_RefCount m_Kind CMirvCalc_new].
      rewrite Hrefs1, Hpops, Hpreg, Hpref, Hextra. split; [reflexivity|].
      intros o Ho. apply Hlive1, Hops, Ho.
    - rewrite (Hl1 q Hne) in Hq. destruct (h !! q) as [c0|] eqn:Hq0; [|discriminate].
      cbn in Hq. injection Hq as <-. cbn [m_RefCount m_Kind].
      rewrite (H1 q c0 Hq0), Hrefs1. split; [lia|].
      intros o Ho. apply Hlive1. exact (H2 q c0 o Hq0 Ho). }
  destruct name as [n|]; cbn [snd free_store m_Calcs].
  - (* a named calc: one more reference, one more registry entry *)
    split; [|split].
    + intros q c Hq. cbn [free_store m_Calcs] in *.
      rewrite registry_refs_push, operand_refs_AddRef.
      destruct (decide (p = q)) as [<-|Hne].
      * rewrite (AddRef_lookup_eq p _ h1 Hl1p) in Hq. injection Hq as <-.
        cbn [m_RefCount CMirvCalc_new].
        rewrite Hrefs1, Hpops, Hpreg, Hpref. reflexivity.
      * rewrite AddRef_lookup_ne in Hq by congruence.
        destruct (Hacc1 (fun _ => 0) eq_refl q c Hq) as [Hr _]. lia.
    + intros q c o Hq Ho. cbn [free_store] in *.
      assert (Ho1 : is_Some (h1 !! o)).
      { destruct (decide (p = q)) as [<-|Hne].
        - rewrite (AddRef_lookup_eq p _ h1 Hl1p) in Hq. injection Hq as <-.
          apply Hlive1, Hops, Ho.
        - rewrite AddRef_lookup_ne in Hq by congruence.
          destruct (Hacc1 (fun _ => 0) eq_refl q c Hq) as [_ Hc]. exact (Hc o Ho). }
      destruct Ho1 as [co Hco]. destruct (decide (o = p)) as [->|Hne'].
      * rewrite (AddRef_lookup_eq p _ h1 Hl1p). eauto.
      * rewrite AddRef_lookup_ne by congruence. eauto.
    + intros f q Hq. cbn [free_store m_Calcs] in *.
      assert (Hq1 : is_Some (h1 !! q)).
      { destruct (decide (f = fam)) as [->|Hf].
        - apply elem_of_app in Hq. destruct Hq as [Hq|Hq]; [apply Hlive1, (H3 fam q Hq)|].
          apply list_elem_of_singleton in Hq. subst q. eauto.
        - apply Hlive1, (H3 f q Hq). }
      destruct Hq1 as [cq Hcq]. destruct (decide (q = p)) as [->|Hne'].
      * rewrite (AddRef_lookup_eq p _ h1 Hl1p). eauto.
      * rewrite AddRef_lookup_ne by congruence. eauto.
  - (* an anonymous calc *)
    split; [|split].
    + intros q c Hq. cbn [free_store m_Calcs] in *.
      destruct (Hacc1 (fun _ => 0) eq_refl q c Hq) as [Hr _]. lia.
    + intros q c o Hq Ho. cbn [free_store] in *.
      destruct (Hacc1 (fun _ => 0) eq_refl q c Hq) as [_ Hc]. exact (Hc o Ho).
    + intros f q Hq. cbn [free_store m_Calcs] in *. apply Hlive1, (H3 f q Hq).
Qed.

(** What a factory method does to the state when it accepts the name. *)
Lemma NewCalc_shape
  (fam : CalcFamily) (name : option string) (k : CalcKind) (st : Calcs) :
  (forall q, q ∈ operands k -> is_Some (free_store st !! q)) ->
  name = None \/ (Console_CheckName name (free_store st) (m_Calcs st fam)).1 = true ->
  exists p st',
    NewCalc fam name k st = (Some p, st')
    /\ free_store st !! p = None
    /\ free_store st' !! p
       = Some (MkCalc (match name with Some n => n | None => "(no name)" end)
                 (match name with Some _ => 1 | None => 0 end) k)
    /\ (forall q, q <> p ->
          free_store st' !! q
          = (fun c => MkCalc (m_Name c)
                        (m_RefCount c + Z.of_nat (count_refs q (operands k))) (m_Kind c))
              <$> free_store st !! q)
    /\ m_Calcs st'
       = match name with
         | Some _ => fun f => if decide (f = fam) then m_Calcs st f ++ [p] else m_Calcs st f
         | None => m_Calcs st
         end.
Proof.
  intros Hops Hname. rewrite (NewCalc_accepted fam name k st Hname). unfold construct.
  set (h := free_store st) in *.
  set (p := fresh (dom h)).
  assert (Hp : h !! p = None) by (apply not_elem_of_dom, is_fresh).
  set (h1 := foldl (fun h' q => AddRef q h') (<[p := CMirvCalc_new name k]> h) (operands k)).
  assert (Hpops : count_refs p (operands k) = 0).
  { apply count_refs_zero. intros Hin. destruct (Hops p Hin). congruence. }
  assert (Hl1p : h1 !! p = Some (CMirvCalc_new name k)).
  { unfold h1. rewrite AddRef_all_lookup. rewrite lookup_insert_eq. cbn.
    rewrite Hpops. unfold CMirvCalc_new. cbn. reflexivity. }
  assert (Hl1 : forall q, q <> p ->
            h1 !! q = (fun c => MkCalc (m_Name c)
                                  (m_RefCount c + Z.of_nat (count_refs q (operands k)))
                                  (m_Kind c)) <$> h !! q).
  { intros q Hne. unfold h1. rewrite AddRef_all_lookup.
    rewrite lookup_insert_ne by congruence. reflexivity. }
  destruct name as [n|]; exists p; eexists; (split; [reflexivity|]);
    (split; [exact Hp|]); cbn [free_store m_Calcs].
  - split; [rewrite (AddRef_lookup_eq p _ h1 Hl1p); reflexivity|].
    split; [|reflexivity].
    intros q Hne. rewrite AddRef_lookup_ne by congruence. apply Hl1, Hne.
  - split; [exact Hl1p|]. split; [exact Hl1 | reflexivity].
Qed.

Lemma NewCalc_cases (fam : CalcFamily) (name : option string) (k : CalcKind) (st : Calcs) :
  NewCalc fam name k st = (None, st)
  \/ name = None
  \/ (Console_CheckName name (free_store st) (m_Calcs st fam)).1 = true.
Proof.
  unfold NewCalc. destruct name as [n|]; [|right; left; reflexivity].
  destruct (Console_CheckName (Some n) (free_store st) (m_Calcs st fam)).1.
  - right; right; reflexivity.
  - left. rewrite bool_decide_eq_true_2 by eauto. reflexivity.
Qed.

Lemma _stricmp_trans (a b c : string) :
  _stricmp a b = 0%Z -> _stricmp b c = 0%Z -> _stricmp a c = 0%Z.
Proof. rewrite !_stricmp_zero_iff. congruence. Qed.

Lemma _stricmp_sym (a b : string) : _stricmp a b = 0%Z -> _stricmp b a = 0%Z.
Proof. rewrite !_stricmp_zero_iff. congruence. Qed.

(** The factory methods keep the names of a registry distinct, and every
    calc in at most one registry entry. *)
Lemma NewCalc_names_unique
  (fam : CalcFamily) (name : option string) (k : CalcKind) (st : Calcs) :
  references_accounted st -> names_unique st -> registered_once st ->
  (forall q, q ∈ operands k -> is_Some (free_store st !! q)) ->
  names_unique (NewCalc fam name k st).2 /\ registered_once (NewCalc fam name k st).2.
Proof.
  intros (H1 & H2 & H3) Hu Ho Hops.
  destruct (NewCalc_cases fam name k st) as [E|Hname]; [rewrite E; auto|].
  destruct (NewCalc_shape fam name k st Hops Hname) as (p & st' & E & Hp & Hp' & Hq' & Hreg).
  rewrite E. cbn [snd].
  assert (Hnames : forall q, is_Some (free_store st !! q) ->
            GetName q (free_store st') = GetName q (free_store st)).
  { intros q [c Hq]. assert (Hne : q <> p) by congruence.
    unfold GetName. rewrite (Hq' q Hne), Hq. reflexivity. }
  assert (Hpreg : registry_refs (m_Calcs st) p = 0).
  { destruct (decide (0 < registry_refs (m_Calcs st) p)) as [Hpos|]; [|lia].
    apply registry_refs_pos in Hpos. destruct Hpos as [f Hf].
    destruct (H3 f p Hf). congruence. }
  destruct name as [n|].
  - assert (Hcheck : forall q, q ∈ m_Calcs st fam ->
              _stricmp n (GetName q (free_store st)) <> 0%Z).
    { destruct Hname as [|Hname]; [discriminate|].
      apply Console_CheckName_true in Hname.
      destruct Hname as (n' & [= <-] & _ & _ & Hnone).
      intros q Hq Hz. apply (Hnone q Hq). apply _stricmp_zero_iff. exact Hz. }
    assert (Hpn : GetName p (free_store st') = n).
    { unfold GetName. rewrite Hp'. reflexivity. }
    split.
    + intros f i j x y Hi Hj Hz. rewrite Hreg in Hi, Hj.
      destruct (decide (f = fam)) as [->|Hf].
      * apply lookup_app_Some in Hi, Hj.
        destruct Hi as [Hi|[Hli Hi]], Hj as [Hj|[Hlj Hj]].
        -- apply (Hu fam i j x y Hi Hj).
           rewrite <- !Hnames; [exact Hz | |]; apply (H3 fam);
             apply list_elem_of_lookup; eauto.
        -- exfalso. apply list_lookup_singleton_Some in Hj. destruct Hj as [_ <-].
           assert (Hx : x ∈ m_Calcs st fam) by (apply list_elem_of_lookup; eauto).
           apply (Hcheck x Hx). rewrite Hpn, (Hnames x (H3 fam x Hx)) in Hz.
           apply _stricmp_sym, Hz.
        -- exfalso. apply list_lookup_singleton_Some in Hi. destruct Hi as [_ <-].
           assert (Hy : y ∈ m_Calcs st fam) by (apply list_elem_of_lookup; eauto).
           apply (Hcheck y Hy). rewrite Hpn, (Hnames y (H3 fam y Hy)) in Hz. exact Hz.
        -- apply list_lookup_singleton_Some in Hi, Hj. lia.
      * apply (Hu f i j x y Hi Hj).
        rewrite <- !Hnames; [exact Hz | |]; apply (H3 f);
          apply list_elem_of_lookup; eauto.
    + intros q. rewrite Hreg, registry_refs_push.
      destruct (decide (p = q)) as [<-|Hne]; [lia|]. specialize (Ho q). lia.
  - split.
    + intros f i j x y Hi Hj Hz. rewrite Hreg in Hi, Hj.
      apply (Hu f i j x y Hi Hj).
      rewrite <- !Hnames; [exact Hz | |]; apply (H3 f);
        apply list_elem_of_lookup; eauto.
    + intros q. rewrite Hreg. apply Ho.
Qed.

(** So does [Console_Remove]. *)
Lemma Console_Remove_names_unique
  (fam : CalcFamily) (name : string) (st st' : Calcs) (out : list string) :
  references_accounted st -> names_unique st -> registered_once st ->
  Console_Remove fam name st = Some (st', out) ->
  names_unique st' /\ registered_once st'.
Proof.
  intros Hst Hu Ho E.
  pose proof (Console_Remove_accounted fam name st st' out Hst E) as (_ & _ & H3').
  unfold Console_Remove in E.
  destruct (GetIteratorByName name (free_store st) (m_Calcs st fam)) as [[it p]|] eqn:Eit.
  2:{ injection E as <- _. auto. }
  destruct (decide (1 = GetRefCount p (free_store st))%Z) as [Hrc|Hrc].
  2:{ injection E as <- _. auto. }
  destruct (Release _ p (free_store st)) as [h|] eqn:Er; [|discriminate].
  injection E as <- _. cbn [free_store m_Calcs] in *.
  pose proof (Release_only_releases _ _ _ _ Er) as Hrel.
  apply GetIteratorByName_Some in Eit. destruct Eit as (Hit & _).
  assert (Hnames : forall q, is_Some (h !! q) -> GetName q h = GetName q (free_store st)).
  { intros q [c' Hq]. destruct (Hrel q c' Hq) as (c & Hq0 & En & _).
    unfold GetName. rewrite Hq, Hq0. exact En. }
  split.
  - intros f i j x y Hi Hj Hz. cbn [free_store m_Calcs] in Hi, Hj, Hz.
    assert (Hx : is_Some (h !! x)) by (apply (H3' f), list_elem_of_lookup; eauto).
    assert (Hy : is_Some (h !! y)) by (apply (H3' f), list_elem_of_lookup; eauto).
    rewrite (Hnames x Hx), (Hnames y Hy) in Hz.
    destruct (decide (f = fam)) as [->|Hf].
    + rewrite list_lookup_delete in Hi, Hj.
      pose proof (Hu fam _ _ x y Hi Hj Hz) as Hij.
      repeat case_decide; lia.
    + apply (Hu f i j x y Hi Hj Hz).
  - intros q. specialize (Ho q). cbn [m_Calcs].
    rewrite (registry_refs_delete (m_Calcs st) fam it p q Hit) in Ho. lia.
Qed.

(** An edit keeps the references accounted for, the names distinct and
    the registries as they are. *)
Lemma edit_invariant (p : addr) (c : CMirvCalc) (k : CalcKind) (st : Calcs) :
  free_store st !! p = Some c -> operands k = operands (m_Kind c) ->
  references_accounted st -> names_unique st ->
  references_accounted
    {| free_store := <[p := MkCalc (m_Name c) (m_RefCount c) k]> (free_store st);
       m_Calcs := m_Calcs st |}
  /\ names_unique
       {| free_store := <[p := MkCalc (m_Name c) (m_RefCount c) k]> (free_store st);
          m_Calcs := m_Calcs st |}.
Proof.
  intros Hp Hk (H1 & H2 & H3) Hu.
  set (c' := MkCalc (m_Name c) (m_RefCount c) k).
  assert (Hlive : forall q, is_Some (free_store st !! q) ->
            is_Some (<[p := c']> (free_store st) !! q)).
  { intros q Hq. apply lookup_insert_is_Some'. right. exact Hq. }
  assert (Hnames : forall q, GetName q (<[p := c']> (free_store st))
                             = GetName q (free_store st)).
  { intros q. unfold GetName. destruct (decide (q = p)) as [->|Hne].
    - rewrite lookup_insert_eq, Hp. reflexivity.
    - rewrite lookup_insert_ne by congruence. reflexivity. }
  split; [split; [|split]|]; cbn [free_store m_Calcs].
  - intros q cq Hq. rewrite (operand_refs_insert_same _ p c c' q Hp Hk).
    destruct (decide (q = p)) as [->|Hne].
    + rewrite lookup_insert_eq in Hq. injection Hq as <-. exact (H1 p c Hp).
    + rewrite lookup_insert_ne in Hq by congruence. exact (H1 q cq Hq).
  - intros q cq o Hq Ho. apply Hlive.
    destruct (decide (q = p)) as [->|Hne].
    + rewrite lookup_insert_eq in Hq. injection Hq as <-. cbn [m_Kind c'] in Ho.
      rewrite Hk in Ho. exact (H2 p c o Hp Ho).
    + rewrite lookup_insert_ne in Hq by congruence. exact (H2 q cq o Hq Ho).
  - intros f q Hq. apply Hlive, (H3 f q Hq).
  - intros f i j x y Hi Hj Hz. cbn [free_store m_Calcs] in *.
    rewrite !Hnames in Hz. exact (Hu f i j x y Hi Hj Hz).
Qed.

(** ** The graph of the calcs has no cycle *)

Lemma ranked_acyclic (h : gmap addr CMirvCalc) (rank : addr -> nat) :
  ranked h rank -> acyclic h.
Proof.
  intros Hr.
  assert (Hlt : forall p q, tc (uses h) p q -> rank q < rank p).
  { intros p q Hpq. induction Hpq as [p q (c & Hp & Ho)|p q r (c & Hp & Ho) _ IH].
    - exact (Hr p c q Hp Ho).
    - pose proof (Hr p c q Hp Ho). lia. }
  intros p Hpp. specialize (Hlt p p Hpp). lia.
Qed.

Lemma ranked_only_releases (h h' : gmap addr CMirvCalc) (rank : addr -> nat) :
  only_releases h h' -> ranked h rank -> ranked h' rank.
Proof.
  intros Hrel Hr p c' o Hp Ho. destruct (Hrel p c' Hp) as (c & Hp0 & _ & Ek & _).
  rewrite Ek in Ho. exact (Hr p c o Hp0 Ho).
Qed.

Lemma sum_list_elem (rank : addr -> nat) (o : addr) (l : list addr) :
  o ∈ l -> rank o <= sum_list (rank <$> l).
Proof.
  induction l as [|x l IH]; intros Ho.
  - apply elem_of_nil in Ho. destruct Ho.
  - apply elem_of_cons in Ho. cbn. destruct Ho as [->|Ho]; [lia|].
    specialize (IH Ho). lia.
Qed.

Lemma NewCalc_ranked
  (fam : CalcFamily) (name : option string) (k : CalcKind) (st : Calcs)
  (rank : addr -> nat) :
  references_accounted st -> ranked (free_store st) rank ->
  (forall q, q ∈ operands k -> is_Some (free_store st !! q)) ->
  exists rank', ranked (free_store (NewCalc fam name k st).2) rank'.
Proof.
  intros (H1 & H2 & H3) Hr Hops.
  destruct (NewCalc_cases fam name k st) as [E|Hname]; [rewrite E; eauto|].
  destruct (NewCalc_shape fam name k st Hops Hname) as (p & st' & E & Hp & Hp' & Hq' & Hreg).
  rewrite E. cbn [snd].
  exists (fun x => if decide (x = p) then S (sum_list (rank <$> operands k)) else rank x).
  intros x c o Hx Ho. destruct (decide (x = p)) as [->|Hne].
  - rewrite Hp' in Hx. injection Hx as <-. cbn [m_Kind] in Ho.
    assert (o <> p) by (intros ->; destruct (Hops p Ho); congruence).
    rewrite decide_False by assumption.
    pose proof (sum_list_elem rank o (operands k) Ho). lia.
  - rewrite (Hq' x Hne) in Hx.
    destruct (free_store st !! x) as [c0|] eqn:Hx0; [|discriminate].
    cbn in Hx. injection Hx as <-. cbn [m_Kind] in Ho.
    assert (o <> p) by (intros ->; destruct (H2 x c0 p Hx0 Ho); congruence).
    rewrite decide_False by assumption. exact (Hr x c0 o Hx0 Ho).
Qed.

(** The references are accounted for, the names of each registry are
    distinct, no calc is registered twice and the calcs can be ranked, in
    every reachable state. *)
Lemma reachable_invariant (st : Calcs) :
  reachable st ->
  references_accounted st /\ names_unique st /\ registered_once st
  /\ exists rank, ranked (free_store st) rank.
Proof.
  induction 1 as [|fam name k st Hst (IH1 & IH2 & IH3 & rank & IH4) Hops
                  |fam name st st' out Hst (IH1 & IH2 & IH3 & rank & IH4) E
                  |p c k st Hst (IH1 & IH2 & IH3 & rank & IH4) Hp Hk].
  - split; [|split; [|split]].
    + split; [|split].
      * intros q c Hq. cbn in Hq. rewrite lookup_empty in Hq. discriminate.
      * intros q c o Hq. cbn in Hq. rewrite lookup_empty in Hq. discriminate.
      * intros f q Hq. cbn in Hq. apply elem_of_nil in Hq. destruct Hq.
    + intros f i j p q Hi. cbn in Hi. discriminate.
    + intros q. cbn. lia.
    + exists (fun _ => 0). intros p c o Hp. cbn in Hp.
      rewrite lookup_empty in Hp. discriminate.
  - split; [apply NewCalc_accounted; assumption|].
    destruct (NewCalc_names_unique fam name k st IH1 IH2 IH3 Hops) as [Hn Ho].
    split; [exact Hn|]. split; [exact Ho|].
    exact (NewCalc_ranked fam name k st rank IH1 IH4 Hops).
  - split; [exact (Console_Remove_accounted fam name st st' out IH1 E)|].
    destruct (Console_Remove_names_unique fam name st st' out IH1 IH2 IH3 E) as [Hn Ho].
    split; [exact Hn|]. split; [exact Ho|].
    exists rank. unfold Console_Remove in E.
    destruct (GetIteratorByName name (free_store st) (m_Calcs st fam)) as [[it q]|];
      [|injection E as <- _; exact IH4].
    destruct (decide (1 = GetRefCount q (free_store st))%Z);
      [|injection E as <- _; exact IH4].
    destruct (Release _ q (free_store st)) as [h|] eqn:Er; [|discriminate].
    injection E as <- _. cbn [free_store].
    exact (ranked_only_releases _ _ rank (Release_only_releases _ _ _ _ Er) IH4).
  - destruct (edit_invariant p c k st Hp Hk IH1 IH2) as [Ha Hn].
    split; [exact Ha|]. split; [exact Hn|]. split; [exact IH3|].
    exists rank. cbn [free_store]. intros x cx o Hx Ho.
    destruct (decide (x = p)) as [->|Hne].
    + rewrite lookup_insert_eq in Hx. injection Hx as <-. cbn [m_Kind] in Ho.
      rewrite Hk in Ho. exact (IH4 p c o Hp Ho).
    + rewrite lookup_insert_ne in Hx by congruence. exact (IH4 x cx o Hx Ho).
Qed.

(** ** Looking up names *)

Lemma GetByName_nil (name : string) (h : gmap addr CMirvCalc) : GetByName name h [] = None.
Proof. reflexivity. Qed.

Lemma GetByName_cons (name : string) (h : gmap addr CMirvCalc) (x : addr) (l : list addr) :
  GetByName name h (x :: l)
  = if decide (0%Z = _stricmp name (GetName x h)) then Some x else GetByName name h l.
Proof.
  unfold GetByName, GetIteratorByName. cbn [list_find].
  destruct (decide (0%Z = _stricmp name (GetName x h))); [reflexivity|].
  destruct (list_find _ l) as [[i y]|]; reflexivity.
Qed.

Lemma GetByName_ext (name : string) (h h' : gmap addr CMirvCalc) (l : list addr) :
  (forall q, q ∈ l -> GetName q h' = GetName q h) ->
  GetByName name h' l = GetByName name h l.
Proof.
  induction l as [|x l IH]; intros Hn; [reflexivity|].
  rewrite !GetByName_cons, (Hn x) by (left; reflexivity).
  rewrite IH; [reflexivity|]. intros q Hq. apply Hn. right. exact Hq.
Qed.

Lemma GetByName_push (name : string) (h : gmap addr CMirvCalc) (l : list addr) (p : addr) :
  GetByName name h (l ++ [p])
  = match GetByName name h l with
    | Some q => Some q
    | None => if decide (0%Z = _stricmp name (GetName p h)) then Some p else None
    end.
Proof.
  induction l as [|x l IH].
  - cbn [app]. rewrite GetByName_cons, GetByName_nil. reflexivity.
  - cbn [app]. rewrite !GetByName_cons.
    destruct (decide (0%Z = _stricmp name (GetName x h))); [reflexivity | exact IH].
Qed.

Lemma GetByName_delete
  (name : string) (h : gmap addr CMirvCalc) (l : list addr) (it : nat) (p : addr) :
  l !! it = Some p -> _stricmp name (GetName p h) <> 0%Z ->
  GetByName name h (delete it l) = GetByName name h l.
Proof.
  revert it. induction l as [|x l IH]; intros [|it] Hit Hne; try discriminate.
  - cbn in Hit. injection Hit as ->. cbn [delete list_delete].
    rewrite GetByName_cons, decide_False by congruence. reflexivity.
  - cbn in Hit. change (delete (S it) (x :: l)) with (x :: delete it l).
    rewrite !GetByName_cons, (IH it Hit Hne). reflexivity.
Qed.

Lemma GetByName_Some_iterator (name : string) (h : gmap addr CMirvCalc) (l : list addr) (p : addr) :
  GetByName name h l = Some p <-> exists it, GetIteratorByName name h l = Some (it, p).
Proof.
  unfold GetByName. destruct (GetIteratorByName name h l) as [[it q]|]; split.
  - intros [= ->]. eauto.
  - intros [it' [= _ ->]]. reflexivity.
  - discriminate.
  - intros [it' [=]].
Qed.

(** ** The registries in the states the program reaches *)

(** X11.  Reference counts are exact.  In every state reached from the
    start of the program by factory methods (with operands that have not
    been freed), by [Console_Remove] and by edits of calcs, the reference
    count of every calc
    on the free store is the number of registry entries plus the number of
    operand slots that point to it, and no operand slot and no registry
    entry points to a freed calc. *)
Theorem reachable_references_accounted (st : Calcs) :
  reachable st -> references_accounted st.
Proof. intros H. apply reachable_invariant, H. Qed.

(** X12.  In every such state the names of the entries of a registry are
    pairwise different up to case, and no calc has more than one registry
    entry. *)
Theorem reachable_names_unique (st : Calcs) :
  reachable st -> names_unique st /\ registered_once st.
Proof.
  intros H. destruct (reachable_invariant st H) as (_ & Hn & Ho & _). auto.
Qed.

(** X13.  A calc can be removed exactly when no calc uses it: in a
    reachable state [Console_Remove] removes the calc of the given name
    (printing nothing) iff the registry has a calc of that name and no
    operand slot of a calc on the free store points to it; the calc is
    then freed. *)
Theorem Console_Remove_iff_unused (fam : CalcFamily) (name : string) (st : Calcs) :
  reachable st ->
  ((exists st', Console_Remove fam name st = Some (st', []))
   <-> exists p, GetByName name (free_store st) (m_Calcs st fam) = Some p
                 /\ operand_refs (free_store st) p = 0)
  /\ (forall st' p,
        Console_Remove fam name st = Some (st', []) ->
        GetByName name (free_store st) (m_Calcs st fam) = Some p ->
        free_store st' !! p = None).
Proof.
  intros Hreach.
  destruct (reachable_invariant st Hreach) as ((H1 & H2 & H3) & Hu & Ho & _).
  unfold Console_Remove, GetByName.
  destruct (GetIteratorByName name (free_store st) (m_Calcs st fam)) as [[it p]|] eqn:Eit.
  2:{ split.
      - split; [intros [st' [=]] | intros [p [[=] _]]].
      - intros st' p [=]. }
  pose proof (proj1 (GetIteratorByName_Some _ _ _ _ _) Eit) as (Hit & _).
  assert (Hin : p ∈ m_Calcs st fam) by (apply list_elem_of_lookup; eauto).
  destruct (H3 fam p Hin) as [c Hc].
  assert (Hreg : registry_refs (m_Calcs st) p = 1).
  { specialize (Ho p).
    assert (0 < registry_refs (m_Calcs st) p) by (apply registry_refs_pos; eauto). lia. }
  pose proof (H1 p c Hc) as Hrc. rewrite Hreg in Hrc.
  unfold GetRefCount. rewrite Hc.
  destruct (decide (1 = m_RefCount c)%Z) as [Hone|Hmany].
  - destruct (Release_deletes p c (free_store st) Hc (eq_sym Hone)) as (h' & Er & Hgone).
    rewrite Er. split.
    + split; [|eauto]. intros _. exists p. split; [reflexivity | lia].
    + intros st' p' [= <-] [= <-]. exact Hgone.
  - split.
    + split; [intros [st' [=]]|]. intros (p' & [= <-] & Hz). lia.
    + intros st' p' [=].
Qed.

(** X14.  Removing a calc frees its name and touches no other name: after
    [Console_Remove] has removed the calc of the given name in a reachable
    state, the registry has no calc of that name, a lookup of any other
    name in it finds what it found before, and so does every lookup in the
    registries of the other families. *)
Theorem Console_Remove_frees_name
  (fam : CalcFamily) (name : string) (st st' : Calcs) :
  reachable st -> Console_Remove fam name st = Some (st', []) ->
  GetByName name (free_store st') (m_Calcs st' fam) = None
  /\ (forall other, _stricmp other name <> 0%Z ->
        GetByName other (free_store st') (m_Calcs st' fam)
        = GetByName other (free_store st) (m_Calcs st fam))
  /\ (forall f other, f <> fam ->
        GetByName other (free_store st') (m_Calcs st' f)
        = GetByName other (free_store st) (m_Calcs st f)).
Proof.
  intros Hreach E.
  destruct (reachable_invariant st Hreach) as (Hacc & Hu & Ho & _).
  pose proof (Console_Remove_accounted fam name st st' [] Hacc E) as (_ & _ & H3').
  unfold Console_Remove in E.
  destruct (GetIteratorByName name (free_store st) (m_Calcs st fam)) as [[it p]|] eqn:Eit;
    [|discriminate].
  destruct (decide (1 = GetRefCount p (free_store st))%Z) as [Hrc|Hrc]; [|discriminate].
  destruct (Release _ p (free_store st)) as [h|] eqn:Er; [|discriminate].
  injection E as <-. cbn [free_store m_Calcs] in *.
  pose proof (Release_only_releases _ _ _ _ Er) as Hrel.
  apply GetIteratorByName_Some in Eit. destruct Eit as (Hit & Hname & _).
  assert (Hnames : forall f q,
            q ∈ (if decide (f = fam) then delete it (m_Calcs st f) else m_Calcs st f) ->
            GetName q h = GetName q (free_store st)).
  { intros f q Hq. destruct (H3' f q Hq) as [c' Hq'].
    destruct (Hrel q c' Hq') as (c & Hq0 & En & _).
    unfold GetName. rewrite Hq', Hq0. exact En. }
  rewrite decide_True by reflexivity.
  split; [|split].
  - rewrite (GetByName_ext name (free_store st) h).
    2:{ intros q Hq. apply (Hnames fam). rewrite decide_True by reflexivity. exact Hq. }
    apply GetByName_None. intros q Hq Heq.
    apply list_elem_of_lookup in Hq. destruct Hq as [j Hj].
    rewrite list_lookup_delete in Hj.
    assert (Hz : _stricmp (GetName p (free_store st)) (GetName q (free_store st)) = 0%Z).
    { apply _stricmp_zero_iff. congruence. }
    pose proof (Hu fam _ _ p q Hit Hj Hz) as Hij.
    case_decide; lia.
  - intros other Hother.
    rewrite (GetByName_ext other (free_store st) h).
    2:{ intros q Hq. apply (Hnames fam). rewrite decide_True by reflexivity. exact Hq. }
    apply (GetByName_delete other (free_store st) _ it p Hit).
    intros Hz. apply Hother. apply _stricmp_zero_iff.
    apply _stricmp_zero_iff in Hz. congruence.
  - intros f other Hf. rewrite decide_False by exact Hf.
    apply GetByName_ext. intros q Hq. apply (Hnames f).
    rewrite decide_False by exact Hf. exact Hq.
Qed.

(** X15.  A calc is found under the name it was created with: after a
    factory method has created a calc under a name in a reachable state,
    a lookup in its registry of a name that equals this name up to case
    finds the new calc, a lookup of any other name finds what it found
    before, and so does every lookup in the registries of the other
    families. *)
Theorem NewCalc_then_GetByName
  (fam : CalcFamily) (n : string) (k : CalcKind) (st st' : Calcs) (p : addr) :
  reachable st ->
  (forall q, q ∈ operands k -> is_Some (free_store st !! q)) ->
  NewCalc fam (Some n) k st = (Some p, st') ->
  (forall same, _stricmp same n = 0%Z ->
     GetByName same (free_store st') (m_Calcs st' fam) = Some p)
  /\ (forall other, _stricmp other n <> 0%Z ->
        GetByName other (free_store st') (m_Calcs st' fam)
        = GetByName other (free_store st) (m_Calcs st fam))
  /\ (forall f other, f <> fam ->
        GetByName other (free_store st') (m_Calcs st' f)
        = GetByName other (free_store st) (m_Calcs st f)).
Proof.
  intros Hreach Hops E.
  destruct (reachable_invariant st Hreach) as ((H1 & H2 & H3) & Hu & Ho & _).
  destruct (NewCalc_cases fam (Some n) k st) as [E0|Hname]; [congruence|].
  destruct (NewCalc_shape fam (Some n) k st Hops Hname)
    as (p0 & st0 & E' & Hp & Hp' & Hq' & Hreg).
  rewrite E in E'. injection E' as <- <-.
  assert (Hnames : forall f q, q ∈ m_Calcs st f ->
            GetName q (free_store st') = GetName q (free_store st)).
  { intros f q Hq. destruct (H3 f q Hq) as [c Hc].
    assert (Hne : q <> p) by congruence.
    unfold GetName. rewrite (Hq' q Hne), Hc. reflexivity. }
  assert (Hpn : GetName p (free_store st') = n).
  { unfold GetName. rewrite Hp'. reflexivity. }
  assert (Hcheck : forall q, q ∈ m_Calcs st fam ->
            string_lower n <> string_lower (GetName q (free_store st))).
  { destruct Hname as [|Hname]; [discriminate|].
    apply Console_CheckName_true in Hname.
    destruct Hname as (n' & [= <-] & _ & _ & Hnone). exact Hnone. }
  rewrite Hreg. rewrite decide_True by reflexivity.
  split; [|split].
  - intros same Hsame. rewrite GetByName_push.
    rewrite (GetByName_ext same (free_store st) (free_store st'))
      by (intros q Hq; apply (Hnames fam q Hq)).
    assert (Hnone : GetByName same (free_store st) (m_Calcs st fam) = None).
    { apply GetByName_None. intros q Hq Heq. apply (Hcheck q Hq).
      apply _stricmp_zero_iff in Hsame. congruence. }
    rewrite Hnone, Hpn, decide_True by (symmetry; exact Hsame). reflexivity.
  - intros other Hother. rewrite GetByName_push.
    rewrite (GetByName_ext other (free_store st) (free_store st'))
      by (intros q Hq; apply (Hnames fam q Hq)).
    rewrite Hpn, decide_False by congruence.
    destruct (GetByName other (free_store st) (m_Calcs st fam)); reflexivity.
  - intros f other Hf. rewrite decide_False by exact Hf.
    apply GetByName_ext. intros q Hq. apply (Hnames f q Hq).
Qed.

(** X16.  [Release] only releases: called with the fuel [Console_Remove]
    gives it, it returns, and every calc that is on the free store
    afterwards was there before with the same name and the same kind, and
    its reference count has not grown; it creates no calc. *)
Theorem Release_only_decrements (p : addr) (h : gmap addr CMirvCalc) :
  exists h', Release (S (size h)) p h = Some h' /\ only_releases h h'.
Proof.
  destruct (Release_total p h) as [h' E]. exists h'. split; [exact E|].
  exact (Release_only_releases _ _ _ _ E).
Qed.

(** X17.  [AddRef] followed by [Release] gives the free store back, for a
    calc whose reference count is not zero; for a reference count of zero
    the pair frees the calc. *)
Theorem AddRef_then_Release (p : addr) (c : CMirvCalc) (h : gmap addr CMirvCalc) (fuel : nat) :
  h !! p = Some c ->
  (m_RefCount c <> 0%Z -> Release (S fuel) p (AddRef p h) = Some h)
  /\ (m_RefCount c = 0%Z ->
      exists h', Release (S (size (AddRef p h))) p (AddRef p h) = Some h'
                 /\ h' !! p = None).
Proof.
  intros Hp. pose proof (AddRef_lookup_eq p c h Hp) as Hp1. split.
  - intros Hrc. rewrite Release_S, Hp1. cbn [m_RefCount m_Name m_Kind].
    rewrite decide_False by lia. f_equal.
    apply map_eq. intros x. destruct (decide (x = p)) as [->|Hne].
    + rewrite lookup_insert_eq, Hp. destruct c as [nm rc kd]. cbn. do 2 f_equal. lia.
    + rewrite lookup_insert_ne by congruence. apply AddRef_lookup_ne. exact Hne.
  - intros Hrc. eapply Release_deletes; [exact Hp1|]. cbn. lia.
Qed.

(** ** Releasing several references *)

Lemma release_all_app (fuel : nat) (l1 l2 : list addr) (x : option (gmap addr CMirvCalc)) :
  release_all fuel (l1 ++ l2) x = release_all fuel l2 (release_all fuel l1 x).
Proof. unfold release_all. apply foldl_app. Qed.

Lemma release_all_accounted (base : addr -> nat) (fuel : nat) (ops : list addr) :
  forall (pending : list addr) (h h' g : gmap addr CMirvCalc),
    g ⊆ h -> accounted base (ops ++ pending) g ->
    release_all fuel ops (Some h) = Some h' ->
    released_to base pending g h h'.
Proof.
  induction ops as [|o ops IHops]; intros pend ha hb ga Hs Ha Eo.
  - injection Eo as <-. exists ga.
    split; [exact Hs|]. split; [exact Ha|]. split; [auto|]. intros x Hx Hn. auto.
  - rewrite release_all_cons in Eo.
    destruct (Release fuel o ha) as [hm|] eqn:Em.
    2:{ rewrite release_all_None in Eo. discriminate. }
    destruct (Release_accounted base fuel o (ops ++ pend) ha hm ga Hs Ha Em)
      as (gm & Hsm & Hm & Hdm & Hzm).
    destruct (IHops pend hm hb gm Hsm Hm Eo) as (gb & Hsb & Hb & Hdb & Hzb).
    exists gb.
    split; [exact Hsb|]. split; [exact Hb|]. split.
    + intros x Hx. apply Hdm, Hdb, Hx.
    + intros x Hx Hn.
      destruct (Hzb x Hx Hn) as [Hx1 Hx2].
      exact (Hzm x Hx1 Hx2).
Qed.

Lemma released_to_all (base : addr -> nat) (pending : list addr)
  (h h' : gmap addr CMirvCalc) :
  released_to base pending h h h' -> accounted base pending h'.
Proof.
  intros (g' & Hsub & Hacc' & _ & Hz).
  assert (Eg : g' = h').
  { apply map_eq. intros x. destruct (g' !! x) as [v|] eqn:Ex.
    - symmetry. exact (lookup_weaken _ _ _ _ Ex Hsub).
    - destruct (h' !! x) as [v|] eqn:Ex'; [|reflexivity].
      destruct (Hz x (ltac:(eauto)) Ex) as [[w Hw] Hn]. congruence. }
  subst g'. exact Hacc'.
Qed.

Lemma release_all_only_releases (fuel : nat) (ops : list addr) :
  forall h h', release_all fuel ops (Some h) = Some h' -> only_releases h h'.
Proof.
  induction ops as [|o ops IH]; intros h h' E.
  - injection E as <-. apply only_releases_refl.
  - rewrite release_all_cons in E. destruct (Release fuel o h) as [hm|] eqn:Em.
    + eapply only_releases_trans; [exact (Release_only_releases _ _ _ _ Em)|].
      exact (IH hm h' E).
    + rewrite release_all_None in E. discriminate.
Qed.

Lemma keeps_positive_refl (h : gmap addr CMirvCalc) : keeps_positive h h.
Proof. intros q c Hq. eauto. Qed.

Lemma keeps_positive_trans (h1 h2 h3 : gmap addr CMirvCalc) :
  keeps_positive h1 h2 -> keeps_positive h2 h3 -> keeps_positive h1 h3.
Proof.
  intros H12 H23 q c3 Hq. destruct (H23 q c3 Hq) as (c2 & Hq2 & Hp2).
  destruct (H12 q c2 Hq2) as (c1 & Hq1 & Hp1). eauto.
Qed.

Lemma Release_keeps_positive (fuel : nat) :
  forall p h h', Release fuel p h = Some h' -> keeps_positive h h'.
Proof.
  induction fuel as [|k IH]; intros p h h' E; [discriminate|].
  rewrite Release_S in E. destruct (h !! p) as [c|] eqn:Hp.
  2:{ injection E as <-. apply keeps_positive_refl. }
  cbn zeta in E.
  set (h1 := <[p := MkCalc (m_Name c) (m_RefCount c - 1) (m_Kind c)]> h) in *.
  destruct (decide (0 = m_RefCount c - 1)%Z) as [Hz|Hz].
  2:{ injection E as <-. intros q c' Hq. unfold h1 in Hq.
      destruct (decide (q = p)) as [->|Hne].
      - rewrite lookup_insert_eq in Hq. injection Hq as <-. exists c.
        split; [exact Hp|]. cbn. lia.
      - rewrite lookup_insert_ne in Hq by congruence. eauto. }
  assert (Hall : forall ops ha hb,
            release_all k ops (Some ha) = Some hb -> keeps_positive ha hb).
  { induction ops as [|o ops IHops]; intros ha hb Eo.
    - injection Eo as <-. apply keeps_positive_refl.
    - rewrite release_all_cons in Eo.
      destruct (Release k o ha) as [hm|] eqn:Em.
      + eapply keeps_positive_trans; [exact (IH o ha hm Em) | exact (IHops hm hb Eo)].
      + rewrite release_all_None in Eo. discriminate. }
  destruct (release_all k (rev (operands (m_Kind c))) (Some h1)) as [h2|] eqn:E2;
    [|discriminate].
  injection E as <-.
  intros q c' Hq. destruct (decide (q = p)) as [->|Hne].
  { rewrite lookup_delete_eq in Hq. discriminate. }
  rewrite lookup_delete_ne in Hq by congruence.
  destruct (Hall _ _ _ E2 q c' Hq) as (c1 & Hq1 & Hp1).
  unfold h1 in Hq1. rewrite lookup_insert_ne in Hq1 by congruence. eauto.
Qed.

Lemma release_all_keeps_positive (fuel : nat) (ops : list addr) :
  forall h h', release_all fuel ops (Some h) = Some h' -> keeps_positive h h'.
Proof.
  induction ops as [|o ops IH]; intros h h' E.
  - injection E as <-. apply keeps_positive_refl.
  - rewrite release_all_cons in E. destruct (Release fuel o h) as [hm|] eqn:Em.
    + eapply keeps_positive_trans; [exact (Release_keeps_positive _ _ _ _ Em)|].
      exact (IH hm h' E).
    + rewrite release_all_None in E. discriminate.
Qed.

(** An operand slot that points to [q] belongs to some calc. *)
Lemma operand_refs_pos (h : gmap addr CMirvCalc) (q : addr) :
  0 < operand_refs h q -> exists p c, h !! p = Some c /\ q ∈ operands (m_Kind c).
Proof.
  induction h as [|i x m Hi IH] using map_ind; intros Hpos.
  - rewrite operand_refs_empty in Hpos. lia.
  - rewrite operand_refs_insert in Hpos by exact Hi.
    destruct (decide (0 < count_refs q (operands (m_Kind x)))) as [Hx|Hx].
    + exists i, x. split; [apply lookup_insert_eq | apply count_refs_pos, Hx].
    + destruct IH as (p & c & Hp & Hq); [lia|].
      exists p, c. split; [|exact Hq].
      rewrite lookup_insert_ne; [exact Hp | congruence].
Qed.

(** A free store that is not empty has a calc of the largest rank. *)
Lemma largest_rank (h : gmap addr CMirvCalc) (rank : addr -> nat) :
  h <> ∅ ->
  exists q c, h !! q = Some c /\ forall p c', h !! p = Some c' -> rank p <= rank q.
Proof.
  induction h as [|i x m Hi IH] using map_ind; intros Hne; [congruence|].
  destruct (decide (m = ∅)) as [->|Hm].
  - exists i, x. split; [apply lookup_insert_eq|].
    intros p c' Hp. destruct (decide (p = i)) as [->|Hpi]; [lia|].
    rewrite lookup_insert_ne, lookup_empty in Hp by congruence. discriminate.
  - destruct (IH Hm) as (q & c & Hq & Hmax).
    destruct (decide (rank q <= rank i)) as [Hle|Hgt].
    + exists i, x. split; [apply lookup_insert_eq|].
      intros p c' Hp. destruct (decide (p = i)) as [->|Hpi]; [lia|].
      rewrite lookup_insert_ne in Hp by congruence.
      specialize (Hmax p c' Hp). lia.
    + exists q, c. split; [rewrite lookup_insert_ne; [exact Hq | congruence]|].
      intros p c' Hp. destruct (decide (p = i)) as [->|Hpi]; [lia|].
      rewrite lookup_insert_ne in Hp by congruence. exact (Hmax p c' Hp).
Qed.

(** With no reference from outside, positive reference counts and no
    cycle, nothing is left on the free store. *)
Lemma accounted_nothing (h : gmap addr CMirvCalc) (rank : addr -> nat) :
  accounted (fun _ => 0) [] h -> ranked h rank ->
  (forall q c, h !! q = Some c -> (1 <= m_RefCount c)%Z) ->
  h = ∅.
Proof.
  intros [Hacc _] Hr Hpos. destruct (decide (h = ∅)) as [|Hne]; [assumption|].
  exfalso. destruct (largest_rank h rank Hne) as (q & c & Hq & Hmax).
  destruct (Hacc q c Hq) as [Hrc _]. specialize (Hpos q c Hq).
  rewrite count_refs_nil in Hrc.
  destruct (operand_refs_pos h q) as (p & cp & Hp & Ho); [lia|].
  pose proof (Hr p cp q Hp Ho). specialize (Hmax p cp Hp). lia.
Qed.

(** ** The console commands *)

Section ConsoleFacts.

Variable atoi : string -> Z.
Variable atof : string -> R.
Variable CSubWrpCommandArgs : IWrpCommandArgs -> Z -> IWrpCommandArgs.

(** An edit leaves the operands of a calc as they are. *)
Lemma Console_Edit_operands (args : IWrpCommandArgs) (k : CalcKind) :
  operands (Console_Edit atoi atof args k) = operands k.
Proof.
  unfold Console_Edit, edit_sets.
  destruct (2 <=? ArgC args)%Z; [|reflexivity].
  destruct k; cbn [operands]; repeat case_match; reflexivity.
Qed.

Lemma GetByName_live (name : string) (f : CalcFamily) (st : Calcs) (p : addr) :
  reachable st ->
  GetByName name (free_store st) (m_Calcs st f) = Some p ->
  is_Some (free_store st !! p).
Proof.
  intros Hst E. destruct (reachable_invariant st Hst) as ((_ & _ & H3) & _).
  apply GetByName_Some_iterator in E. destruct E as [it E].
  apply GetIteratorByName_Some in E. destruct E as (Hit & _).
  apply (H3 f). apply list_elem_of_lookup. eauto.
Qed.

Lemma NewCalc_console_invariant
  (fam : CalcFamily) (n : string) (k : CalcKind) (st : Calcs) :
  fam <> BoolCalcs ->
  (forall q, q ∈ operands k -> is_Some (free_store st !! q)) ->
  console_invariant st -> console_invariant (NewCalc fam (Some n) k st).2.
Proof.
  intros Hfam Hops [Hst [Hall Hbool]].
  split; [apply reachable_NewCalc; assumption|].
  destruct (NewCalc_cases fam (Some n) k st) as [E|Hname]; [rewrite E; split; assumption|].
  destruct (NewCalc_shape fam (Some n) k st Hops Hname)
    as (p & st' & E & Hp & Hp' & Hq' & Hreg).
  rewrite E. cbn [snd]. split.
  - intros q Hq. rewrite Hreg, registry_refs_push.
    destruct (decide (p = q)) as [<-|Hne]; [lia|].
    rewrite (Hq' q) in Hq by congruence.
    apply fmap_is_Some in Hq. specialize (Hall q Hq). lia.
  - rewrite Hreg. rewrite decide_False by congruence. exact Hbool.
Qed.

Lemma Console_Remove_console_invariant
  (fam : CalcFamily) (name : string) (st st' : Calcs) (out : list string) :
  console_invariant st -> Console_Remove fam name st = Some (st', out) ->
  console_invariant st'.
Proof.
  intros [Hst [Hall Hbool]] E.
  split; [exact (reachable_Console_Remove fam name st st' out Hst E)|].
  unfold Console_Remove in E.
  destruct (GetIteratorByName name (free_store st) (m_Calcs st fam)) as [[it p]|] eqn:Eit.
  2:{ injection E as <- _. split; assumption. }
  destruct (decide (1 = GetRefCount p (free_store st))%Z) as [Hrc|Hrc].
  2:{ injection E as <- _. split; assumption. }
  destruct (Release _ p (free_store st)) as [h|] eqn:Er; [|discriminate].
  injection E as <- _. cbn [free_store m_Calcs].
  apply GetIteratorByName_Some in Eit. destruct Eit as (Hit & _).
  pose proof (Release_only_releases _ _ _ _ Er) as Hrel.
  assert (Hgone : h !! p = None).
  { rewrite Release_S in Er. unfold GetRefCount in Hrc.
    destruct (free_store st !! p) as [c|] eqn:Hp.
    - cbn zeta in Er. rewrite decide_True in Er by lia.
      destruct (release_all _ _ _) as [h2|]; [|discriminate].
      injection Er as <-. apply lookup_delete_eq.
    - discriminate. }
  split.
  - intros q [c' Hq]. cbn [free_store m_Calcs] in Hq |- *.
    destruct (Hrel q c' Hq) as (c & Hq0 & _).
    assert (Hne : p <> q) by (intros ->; congruence).
    pose proof (Hall q (ltac:(eauto))) as Hpos.
    rewrite (registry_refs_delete (m_Calcs st) fam it p q Hit) in Hpos.
    rewrite decide_False in Hpos by exact Hne. exact Hpos.
  - cbn [m_Calcs]. destruct (decide (BoolCalcs = fam)) as [<-|Hf]; [|exact Hbool].
    rewrite Hbool. reflexivity.
Qed.

Lemma Console_Edit_at_console_invariant
  (args : IWrpCommandArgs) (p : addr) (st : Calcs) :
  is_Some (free_store st !! p) ->
  console_invariant st -> console_invariant (Console_Edit_at atoi atof args p st).
Proof.
  intros [c Hp] [Hst [Hall Hbool]].
  assert (E : Console_Edit_at atoi atof args p st
              = {| free_store :=
                     <[p := MkCalc (m_Name c) (m_RefCount c) (Console_Edit atoi atof args (m_Kind c))]>
                       (free_store st);
                   m_Calcs := m_Calcs st |}).
  { unfold Console_Edit_at. f_equal. apply map_eq. intros x.
    destruct (decide (x = p)) as [->|Hne].
    - rewrite lookup_alter_eq, lookup_insert_eq, Hp. reflexivity.
    - rewrite lookup_alter_ne, lookup_insert_ne by congruence. reflexivity. }
  rewrite E. split.
  - apply reachable_edit; [exact Hst | exact Hp | apply Console_Edit_operands].
  - split; [|exact Hbool]. cbn [free_store m_Calcs]. intros q Hq.
    apply Hall. apply lookup_insert_is_Some' in Hq.
    destruct Hq as [->|Hq]; [eauto | exact Hq].
Qed.

Lemma mirv_calcs_other_console_invariant
  (fam : CalcFamily) (args : IWrpCommandArgs) (st st' : Calcs) :
  console_invariant st -> mirv_calcs_other atoi atof CSubWrpCommandArgs fam args st = Some st' ->
  console_invariant st'.
Proof.
  intros Hst E. unfold mirv_calcs_other in E.
  repeat case_match; simplify_eq; try assumption.
  - eapply Console_Remove_console_invariant; eassumption.
  - apply Console_Edit_at_console_invariant; [|assumption].
    eapply GetByName_live; [apply Hst | eassumption].
Qed.

(** The leaves of the [add] branches. *)
Ltac console_leaf Hst :=
  first
    [ assumption
    | eapply mirv_calcs_other_console_invariant; [exact Hst | eassumption]
    | apply NewCalc_console_invariant;
      [ discriminate
      | cbn [operands]; intros ? Hq;
        repeat (apply elem_of_cons in Hq; destruct Hq as [->|Hq]);
        try (apply elem_of_nil in Hq; destruct Hq);
        (eapply GetByName_live; [apply Hst | eassumption])
      | exact Hst ] ].

Lemma mirv_calcs_handle_console_invariant (args : IWrpCommandArgs) (st st' : Calcs) :
  console_invariant st -> mirv_calcs_handle atoi atof CSubWrpCommandArgs args st = Some st' -> console_invariant st'.
Proof.
  intros Hst E. unfold mirv_calcs_handle in E.
  unfold CMirvHandleCalcs_NewValueCalc, CMirvHandleCalcs_NewIndexCalc,
    CMirvHandleCalcs_NewKeyCalc, CMirvHandleCalcs_NewActiveWeaponCalc,
    CMirvHandleCalcs_NewLocalPlayerCalc, CMirvHandleCalcs_NewObserverTargetCalc in E.
  repeat case_match; simplify_eq; console_leaf Hst.
Qed.

Lemma mirv_calcs_vecang_console_invariant (args : IWrpCommandArgs) (st st' : Calcs) :
  console_invariant st -> mirv_calcs_vecang atoi atof CSubWrpCommandArgs args st = Some st' -> console_invariant st'.
Proof.
  intros Hst E. unfold mirv_calcs_vecang in E.
  unfold CMirvVecAngCalcs_NewValueCalc, CMirvVecAngCalcs_NewOffsetCalc,
    CMirvVecAngCalcs_NewHandleCalc, CMirvVecAngCalcs_NewHandleEyeCalc,
    CMirvVecAngCalcs_NewHandleAttachmentCalc, CMirvVecAngCalcs_NewOrCalc,
    CMirvVecAngCalcs_NewCamCalc, CMirvVecAngCalcs_NewSmoothCalc in E.
  repeat case_match; simplify_eq; console_leaf Hst.
Qed.

Lemma mirv_calcs_cam_console_invariant (args : IWrpCommandArgs) (st st' : Calcs) :
  console_invariant st -> mirv_calcs_cam atoi atof CSubWrpCommandArgs args st = Some st' -> console_invariant st'.
Proof.
  intros Hst E. unfold mirv_calcs_cam in E.
  unfold CMirvCamCalcs_NewCamCalc, CMirvCamCalcs_NewGameCalc in E.
  repeat case_match; simplify_eq; console_leaf Hst.
Qed.

Lemma mirv_calcs_fov_console_invariant (args : IWrpCommandArgs) (st st' : Calcs) :
  console_invariant st -> mirv_calcs_fov atoi atof CSubWrpCommandArgs args st = Some st' -> console_invariant st'.
Proof.
  intros Hst E. unfold mirv_calcs_fov in E.
  unfold CMirvFovCalcs_NewCamCalc in E.
  repeat case_match; simplify_eq; console_leaf Hst.
Qed.

Lemma console_reachable_invariant (st : Calcs) :
  console_reachable atoi atof CSubWrpCommandArgs st -> console_invariant st.
Proof.
  induction 1 as [|args st st' _ IH E].
  - split; [apply reachable_empty|]. split; [|reflexivity].
    intros q [c Hq]. cbn in Hq. rewrite lookup_empty in Hq. discriminate.
  - unfold mirv_calcs in E. repeat case_match; simplify_eq; try assumption.
    + eapply mirv_calcs_handle_console_invariant; eassumption.
    + eapply mirv_calcs_vecang_console_invariant; eassumption.
    + eapply mirv_calcs_fov_console_invariant; eassumption.
    + eapply mirv_calcs_cam_console_invariant; eassumption.
Qed.

End ConsoleFacts.

(** ** The end of the program *)

Lemma accounted_ext (base base' : addr -> nat) (pending pending' : list addr)
  (h : gmap addr CMirvCalc) :
  (forall q, base q + count_refs q pending = base' q + count_refs q pending') ->
  accounted base pending h -> accounted base' pending' h.
Proof.
  intros E [H1 H2]. split.
  - intros q c Hq. destruct (H1 q c Hq) as [Hr Ho]. split; [|exact Ho].
    rewrite Hr. f_equal. specialize (E q). lia.
  - intros q Hq. apply H2. specialize (E q). lia.
Qed.

(** The destructors of the four registries release the entries of the
    four lists one after the other. *)
Lemma program_exit_releases (fuel : nat) (st : Calcs) (h' : gmap addr CMirvCalc) :
  release_all fuel
    (m_Calcs st FovCalcs ++ m_Calcs st CamCalcs
     ++ m_Calcs st VecAngCalcs ++ m_Calcs st HandleCalcs)
    (Some (free_store st)) = Some h' ->
  exists st', program_exit fuel st = Some st' /\ free_store st' = h'
    /\ (forall f, f <> BoolCalcs -> m_Calcs st' f = [])
    /\ m_Calcs st' BoolCalcs = m_Calcs st BoolCalcs.
Proof.
  intros E. rewrite !release_all_app in E.
  unfold program_exit, CMirvCalcs_destroy.
  destruct (release_all fuel (m_Calcs st FovCalcs) (Some (free_store st))) as [h1|];
    [|rewrite !release_all_None in E; discriminate].
  cbn [mbind option_bind free_store m_Calcs].
  rewrite (decide_False (P := CamCalcs = FovCalcs)) by discriminate.
  destruct (release_all fuel (m_Calcs st CamCalcs) (Some h1)) as [h2|];
    [|rewrite !release_all_None in E; discriminate].
  cbn [mbind option_bind free_store m_Calcs].
  rewrite (decide_False (P := VecAngCalcs = CamCalcs)) by discriminate.
  rewrite (decide_False (P := VecAngCalcs = FovCalcs)) by discriminate.
  destruct (release_all fuel (m_Calcs st VecAngCalcs) (Some h2)) as [h3|];
    [|rewrite !release_all_None in E; discriminate].
  cbn [mbind option_bind free_store m_Calcs].
  rewrite (decide_False (P := HandleCalcs = VecAngCalcs)) by discriminate.
  rewrite (decide_False (P := HandleCalcs = CamCalcs)) by discriminate.
  rewrite (decide_False (P := HandleCalcs = FovCalcs)) by discriminate.
  rewrite E. eexists. split; [reflexivity|]. cbn [free_store m_Calcs].
  split; [reflexivity|]. split.
  - intros f Hf. destruct f; repeat case_decide; congruence.
  - repeat case_decide; congruence.
Qed.

(** X19.  No calc is an operand of itself, directly or through other
    calcs, in any state reached from the start of the program by factory
    methods with operands that have not been freed, by [Console_Remove]
    and by edits. *)
Theorem reachable_acyclic (st : Calcs) :
  reachable st -> acyclic (free_store st).
Proof.
  intros H. destruct (reachable_invariant st H) as (_ & _ & _ & rank & Hr).
  exact (ranked_acyclic _ rank Hr).
Qed.

Section ConsoleTheorems.

Variable atoi : string -> Z.
Variable atof : string -> R.
Variable CSubWrpCommandArgs : IWrpCommandArgs -> Z -> IWrpCommandArgs.

(** X18.  What the console command keeps.  In every state the command
    [mirv_calcs] leads to from the start of the program, the registries
    list exactly the calcs on the free store, the reference count of every
    calc is one (for its registry entry) plus the number of operand slots
    of calcs that point to it, and every operand slot points to a calc
    that has not been freed. *)
Theorem console_calcs_registered (st : Calcs) :
  console_reachable atoi atof CSubWrpCommandArgs st ->
  (forall p, is_Some (free_store st !! p) <-> exists fam, p ∈ m_Calcs st fam)
  /\ (forall p c, free_store st !! p = Some c ->
        m_RefCount c = Z.of_nat (1 + operand_refs (free_store st) p)
        /\ forall o, o ∈ operands (m_Kind c) -> is_Some (free_store st !! o)).
Proof.
  intros Hc.
  destruct (console_reachable_invariant _ _ _ st Hc) as [Hst [Hall Hbool]].
  destruct (reachable_invariant st Hst) as ((H1 & H2 & H3) & _ & Ho & _).
  split.
  - intros p. split.
    + intros Hp. apply registry_refs_pos, Hall, Hp.
    + intros [fam Hp]. exact (H3 fam p Hp).
  - intros p c Hp. split.
    + rewrite (H1 p c Hp). f_equal.
      assert (0 < registry_refs (m_Calcs st) p) by (apply Hall; eauto).
      specialize (Ho p). lia.
    + intros o Hoo. exact (H2 p c o Hp Hoo).
Qed.

(** X20.  Nothing is leaked at the end of the program.  From every state
    the command [mirv_calcs] leads to, the destructors of the four
    registries return (the nesting of destructor calls is at most the
    number of calcs) and leave the free store empty: every calc has been
    freed, whatever the order of the entries and whichever calcs are
    operands of others. *)
Theorem program_exit_frees_all (st : Calcs) :
  console_reachable atoi atof CSubWrpCommandArgs st ->
  exists st',
    program_exit (S (size (free_store st))) st = Some st'
    /\ free_store st' = ∅
    /\ forall f, m_Calcs st' f = [].
Proof.
  intros Hc.
  destruct (console_reachable_invariant _ _ _ st Hc) as [Hst [Hall Hbool]].
  destruct (reachable_invariant st Hst) as (Hacc & _ & _ & rank & Hr).
  set (fuel := S (size (free_store st))).
  set (L := m_Calcs st FovCalcs ++ m_Calcs st CamCalcs
            ++ m_Calcs st VecAngCalcs ++ m_Calcs st HandleCalcs).
  destruct (release_all_enough fuel (Release_enough fuel) L (free_store st))
    as (h' & E & _).
  { pose proof (alive_le_size (free_store st)). unfold fuel. lia. }
  destruct (program_exit_releases fuel st h' E) as (st' & Ex & Eh & Hregs & Hb).
  exists st'. split; [exact Ex|]. split.
  2:{ intros f. destruct (decide (f = BoolCalcs)) as [->|Hf]; [|exact (Hregs f Hf)].
      rewrite Hb. exact Hbool. }
  rewrite Eh.
  assert (Hacc0 : accounted (fun _ => 0) (L ++ []) (free_store st)).
  { apply references_accounted_iff in Hacc.
    refine (accounted_ext _ _ _ _ _ _ Hacc).
    intros q. unfold registry_refs, L. rewrite Hbool, !count_refs_app, !count_refs_nil.
    lia. }
  pose proof (released_to_all _ _ _ _
                (release_all_accounted (fun _ => 0) fuel L [] (free_store st) h'
                   (free_store st) (reflexivity _) Hacc0 E)) as Hacc'.
  apply (accounted_nothing h' rank Hacc').
  - exact (ranked_only_releases _ _ rank (release_all_only_releases _ _ _ _ E) Hr).
  - intros q c' Hq.
    destruct (release_all_keeps_positive _ _ _ _ E q c' Hq) as (c & Hq0 & Hpos).
    apply Hpos. destruct Hacc as (H1 & _). rewrite (H1 q c Hq0).
    assert (0 < registry_refs (m_Calcs st) q) by (apply Hall; eauto). lia.
Qed.

End ConsoleTheorems.

Open Scope R_scope.

(** ** The further theorems at concrete inputs *)


(** X11 to X15 and X17 for the registries after
    [mirv_calcs handle add value h1 5]. *)
Lemma reachable_references_accounted_witness : references_accounted Calcs_h1.
Proof.
  apply (reachable_references_accounted Calcs_h1).
  apply (reachable_NewCalc HandleCalcs (Some "h1") (HandleValueCalc 5) Calcs_empty).
  - apply reachable_empty.
  - intros q Hq. apply elem_of_nil in Hq. destruct Hq.
Defined.

Lemma reachable_names_unique_witness : names_unique Calcs_h1 /\ registered_once Calcs_h1.
Proof.
  apply (reachable_names_unique Calcs_h1).
  apply (reachable_NewCalc HandleCalcs (Some "h1") (HandleValueCalc 5) Calcs_empty).
  - apply reachable_empty.
  - intros q Hq. apply elem_of_nil in Hq. destruct Hq.
Defined.

Lemma Console_Remove_iff_unused_witness :
  ((exists st', Console_Remove HandleCalcs "H1" Calcs_h1 = Some (st', []))
   <-> exists p, GetByName "H1" (free_store Calcs_h1) (m_Calcs Calcs_h1 HandleCalcs) = Some p
                 /\ operand_refs (free_store Calcs_h1) p = 0%nat)
  /\ (forall st' p,
        Console_Remove HandleCalcs "H1" Calcs_h1 = Some (st', []) ->
        GetByName "H1" (free_store Calcs_h1) (m_Calcs Calcs_h1 HandleCalcs) = Some p ->
        free_store st' !! p = None).
Proof.
  apply (Console_Remove_iff_unused HandleCalcs "H1" Calcs_h1).
  apply (reachable_NewCalc HandleCalcs (Some "h1") (HandleValueCalc 5) Calcs_empty).
  - apply reachable_empty.
  - intros q Hq. apply elem_of_nil in Hq. destruct Hq.
Defined.

Lemma Console_Remove_frees_name_witness :
  let st' :=
    match Console_Remove HandleCalcs "h1" Calcs_h1 with
    | Some (st', _) => st'
    | None => Calcs_empty
    end in
  GetByName "h1" (free_store st') (m_Calcs st' HandleCalcs) = None
  /\ (forall other, _stricmp other "h1" <> 0%Z ->
        GetByName other (free_store st') (m_Calcs st' HandleCalcs)
        = GetByName other (free_store Calcs_h1) (m_Calcs Calcs_h1 HandleCalcs))
  /\ (forall f other, f <> HandleCalcs ->
        GetByName other (free_store st') (m_Calcs st' f)
        = GetByName other (free_store Calcs_h1) (m_Calcs Calcs_h1 f)).
Proof.
  apply (Console_Remove_frees_name HandleCalcs "h1" Calcs_h1).
  - apply (reachable_NewCalc HandleCalcs (Some "h1") (HandleValueCalc 5) Calcs_empty).
    + apply reachable_empty.
    + intros q Hq. apply elem_of_nil in Hq. destruct Hq.
  - vm_compute. reflexivity.
Defined.

Lemma NewCalc_then_GetByName_witness :
  let st' := (CMirvVecAngCalcs_NewHandleCalc (Some "p1") 1%positive Calcs_h1).2 in
  (forall same, _stricmp same "p1" = 0%Z ->
     GetByName same (free_store st') (m_Calcs st' VecAngCalcs) = Some 2%positive)
  /\ (forall other, _stricmp other "p1" <> 0%Z ->
        GetByName other (free_store st') (m_Calcs st' VecAngCalcs)
        = GetByName other (free_store Calcs_h1) (m_Calcs Calcs_h1 VecAngCalcs))
  /\ (forall f other, f <> VecAngCalcs ->
        GetByName other (free_store st') (m_Calcs st' f)
        = GetByName other (free_store Calcs_h1) (m_Calcs Calcs_h1 f)).
Proof.
  apply (NewCalc_then_GetByName VecAngCalcs "p1" (VecAngHandleCalcEx 1 false false)
           Calcs_h1).
  - apply (reachable_NewCalc HandleCalcs (Some "h1") (HandleValueCalc 5) Calcs_empty).
    + apply reachable_empty.
    + intros q Hq. apply elem_of_nil in Hq. destruct Hq.
  - intros q Hq. apply list_elem_of_singleton in Hq. subst q. vm_compute. eauto.
  - vm_compute. reflexivity.
Defined.

Lemma AddRef_then_Release_witness :
  (1%Z <> 0%Z ->
   Release 1 1%positive (AddRef 1%positive (free_store Calcs_h1))
   = Some (free_store Calcs_h1))
  /\ (1%Z = 0%Z ->
      exists h',
        Release (S (size (AddRef 1%positive (free_store Calcs_h1)))) 1%positive
          (AddRef 1%positive (free_store Calcs_h1)) = Some h'
        /\ h' !! 1%positive = None).
Proof.
  apply (AddRef_then_Release 1%positive (MkCalc "h1" 1 (HandleValueCalc 5))
           (free_store Calcs_h1) 0).
  vm_compute. reflexivity.
Defined.

(** X10 for the key 1, two client entities of which the first is a player
    of the team CT, and no swap function. *)
Lemma KeyCalc_selects_player_witness :
  let GetTeamNumber := fun _ : C_BaseEntity_csgo (SourceSdk := TestSdk) => 3%Z in
  let maxclients_get := fun _ : unit => Some 2%Z in
  CMirvHandleKeyCalc_CalcHandle (sdk := TestSdk) GetTeamNumber None maxclients_get 1%Z tt
  = (Some 1%Z, tt)
  /\ ((0 <= 1 <= 9)%Z ->
      Z.rem (Z.rem (1 + 9) 10) 5 = ((1 + 4) mod 5)%Z
      /\ negb (0 =? Z.rem (Z.quot (Z.rem (1 + 9) 10) 5) 2)%Z
         = ((1 =? 0)%Z || (6 <=? 1)%Z)).
Proof.
  exact (KeyCalc_selects_player (sdk := TestSdk) (S := unit)
           (fun _ => 3%Z) None (fun _ => Some 2%Z) 1%Z tt
           ltac:(lia) ltac:(cbn; lia)).
Defined.

(** X18 to X20 for the registries after [mirv_calcs handle add value h1 5]
    and [mirv_calcs vecAng add handle v1 h1]. *)
Ltac console_session :=
  apply (console_command _ _ _
           (example_args ["mirv_calcs"; "vecAng"; "add"; "handle"; "v1"; "h1"]%string)
           Calcs_h1 Calcs_v1);
  [ apply (console_command _ _ _
             (example_args ["mirv_calcs"; "handle"; "add"; "value"; "h1"; "5"]%string)
             Calcs_empty Calcs_h1);
    [ apply console_start | vm_compute; reflexivity ]
  | vm_compute; reflexivity ].

Lemma console_calcs_registered_witness :
  (forall p, is_Some (free_store Calcs_v1 !! p) <-> exists fam, p ∈ m_Calcs Calcs_v1 fam)
  /\ (forall p c, free_store Calcs_v1 !! p = Some c ->
        m_RefCount c = Z.of_nat (1 + operand_refs (free_store Calcs_v1) p)
        /\ forall o, o ∈ operands (m_Kind c) -> is_Some (free_store Calcs_v1 !! o)).
Proof.
  apply (console_calcs_registered example_atoi example_atof example_sub_args Calcs_v1).
  console_session.
Defined.

Lemma reachable_acyclic_witness : acyclic (free_store Calcs_v1).
Proof.
  apply (reachable_acyclic Calcs_v1).
  apply (reachable_NewCalc VecAngCalcs (Some "v1"%string)
           (VecAngHandleCalcEx 1%positive false false) Calcs_h1).
  - apply (reachable_NewCalc HandleCalcs (Some "h1"%string) (HandleValueCalc 5) Calcs_empty).
    + apply reachable_empty.
    + intros q Hq. cbn in Hq. apply elem_of_nil in Hq. destruct Hq.
  - intros q Hq. cbn in Hq. apply list_elem_of_singleton in Hq. subst q.
    vm_compute. eauto.
Defined.

Lemma program_exit_frees_all_witness :
  exists st',
    program_exit (S (size (free_store Calcs_v1))) Calcs_v1 = Some st'
    /\ free_store st' = ∅
    /\ forall f, m_Calcs st' f = [].
Proof.
  apply (program_exit_frees_all example_atoi example_atof example_sub_args Calcs_v1).
  console_session.
Defined.
